(** * FindUncommonShares: a shallow embedding of FindUncommonShares.py

    The program enumerates the computer objects of a directory through a
    paged LDAP search, lists the SMB shares of every computer from a pool
    of worker threads, and exports the collected shares to JSON, XLSX and
    SQLite.

    Python integers are unbounded and are modelled by [Z]; [&] is
    [Z.land], which agrees with Python on negative numbers too (both are
    two's complement with an infinite sign extension).  Python strings are
    modelled by [string]; a [dict] whose iteration order is observed by the
    program is an association list in insertion order, a [dict] that is
    only looked up is a [gmap]. *)

From Stdlib Require Import ZArith String Ascii List Lia.
From stdpp Require Import gmap strings list fin_maps pretty.

Local Open Scope string_scope.
Local Open Scope list_scope.
Local Open Scope Z_scope.

(** ** Exceptions

    A call that may raise returns a [result]; the payload of [Raise] is
    the text of the exception, as [print(e)] would show it. *)

Inductive result (A : Type) : Type :=
| Ok (a : A)
| Raise (e : string).
Arguments Ok {A} a.
Arguments Raise {A} e.

Definition bind_result {A B} (r : result A) (k : A -> result B) : result B :=
  match r with
  | Ok a => k a
  | Raise e => Raise e
  end.

#[global] Instance result_ret : MRet result := fun _ a => Ok a.
#[global] Instance result_bind : MBind result :=
  fun _ _ k r => bind_result r k.

(** ** Share types: [STYPE_MASK] *)

Module known_flags.
Definition STYPE_DISKTREE : Z := 0x0.
Definition STYPE_PRINTQ : Z := 0x1.
Definition STYPE_DEVICE : Z := 0x2.
Definition STYPE_IPC : Z := 0x3.
Definition STYPE_SPECIAL : Z := 0x80000000.
Definition STYPE_TEMPORARY : Z := 0x40000000.
End known_flags.

(** [flags.append(x)] on the local list [flags]. *)
Definition append {A} (l : list A) (x : A) : list A := l ++ [x].

Definition STYPE_MASK (stype_value : Z) : list string :=
  let flags := [] in
  let flags :=
    if Z.land stype_value 3 =? known_flags.STYPE_DISKTREE then
      append flags "STYPE_DISKTREE"
    else if Z.land stype_value 3 =? known_flags.STYPE_PRINTQ then
      append flags "STYPE_PRINTQ"
    else if Z.land stype_value 3 =? known_flags.STYPE_DEVICE then
      append flags "STYPE_DEVICE"
    else if Z.land stype_value 3 =? known_flags.STYPE_IPC then
      append flags "STYPE_IPC"
    else flags in
  let flags :=
    if Z.land stype_value known_flags.STYPE_SPECIAL =? 0 then
      append flags "STYPE_SPECIAL"
    else flags in
  let flags :=
    if Z.land stype_value known_flags.STYPE_TEMPORARY =? 0 then
      append flags "STYPE_TEMPORARY"
    else flags in
  flags.

(** The four category flags, indexed by the value of the low two bits. *)
Definition category_flags : list string :=
  ["STYPE_DISKTREE"; "STYPE_PRINTQ"; "STYPE_DEVICE"; "STYPE_IPC"].

Definition category_of (low : Z) : string :=
  if low =? 0 then "STYPE_DISKTREE"
  else if low =? 1 then "STYPE_PRINTQ"
  else if low =? 2 then "STYPE_DEVICE"
  else "STYPE_IPC".

(** ** The directory: [get_domain_computers]

    [ldap_session.search] is a call into ldap3.  The directory server is
    simulated by the script of the pages it will send, in order.  A page
    carries [ldap_session.result["controls"]] (absent, or a dictionary from
    control OID to the cookie of that control) and [ldap_session.response].
    The server answers a search only when the request carries the cookie it
    handed out with the previous page (no cookie for the first request), so
    a client that does not thread the cookie is refused. *)

Definition LDAP_PAGED_RESULT_OID_STRING : string := "1.2.840.113556.1.4.319".

Record attributes := {
  dNSHostName : string;
  sAMAccountName : string
}.

Record entry := {
  type : string;
  dn : string;
  attrs : attributes
}.

Record page := {
  controls : option (gmap string string);
  response : list entry
}.

(** The continuation cookie a page hands out, if it has a paging control. *)
Definition page_cookie (p : page) : option string :=
  match controls p with
  | Some cs => cs !! LDAP_PAGED_RESULT_OID_STRING
  | None => None
  end.

(** The [for entry in ldap_session.response] loop. *)
Definition record_entry (results : gmap string attributes) (e : entry)
  : gmap string attributes :=
  if decide (type e <> "searchResEntry") then results
  else <[dn e := {| dNSHostName := dNSHostName (attrs e);
                    sAMAccountName := sAMAccountName (attrs e) |}]> results.

Definition record_entries (results : gmap string attributes) (es : list entry)
  : gmap string attributes :=
  foldl record_entry results es.

(** The [if "controls" in ...] cascade: the new values of
    [paged_response] and [paged_cookie]. *)
Definition next_paging (p : page) (paged_cookie : option string)
  : bool * option string :=
  match controls p with
  | Some cs =>
      match cs !! LDAP_PAGED_RESULT_OID_STRING with
      | Some next_cookie =>
          if (String.length next_cookie =? 0)%nat then (false, paged_cookie)
          else (true, Some next_cookie)
      | None => (false, paged_cookie)
      end
  | None => (false, paged_cookie)
  end.

(** The [while paged_response == True] loop.  [server] is what the
    simulated server still has to send and [expected] the cookie it wants
    to see; the first two tests are the server's side of
    [ldap_session.search], the rest is the body of the loop. *)
Fixpoint paged_search (server : list page) (expected : option string)
    (paged_cookie : option string) (results : gmap string attributes)
  : result (gmap string attributes) :=
  match server with
  | [] => Raise "LDAPOperationResult: no such search"
  | p :: server' =>
      if decide (paged_cookie = expected) then
        let '(paged_response, paged_cookie) := next_paging p paged_cookie in
        let results := record_entries results (response p) in
        if paged_response then
          paged_search server' (page_cookie p) paged_cookie results
        else Ok results
      else Raise "LDAPOperationResult: invalid cookie"
  end.

Definition get_domain_computers (ldap_session : list page)
  : result (gmap string attributes) :=
  let results := ∅ in
  let paged_cookie := None in
  paged_search ldap_session None paged_cookie results.

(** A page asks for a continuation when its paging control carries a
    non-empty cookie. *)
Definition continues (p : page) : bool :=
  match page_cookie p with
  | Some c => negb (String.length c =? 0)%nat
  | None => false
  end.

(** A paged answer: every page but the last asks for a continuation, the
    last one has an empty cookie, or no paging control at all. *)
Fixpoint well_paged (pages : list page) : bool :=
  match pages with
  | [] => false
  | [p] => negb (continues p)
  | p :: rest => continues p && well_paged rest
  end.

(** The computer entries of a paged answer, in the order received. *)
Definition computer_entries (pages : list page) : list entry :=
  filter (fun e => type e = "searchResEntry") (concat (response <$> pages)).

(** ** Strings

    The string operations of Python the program uses. *)

(** [s[:-1]]: everything but the last character; the empty string stays
    empty. *)
Definition all_but_last (s : string) : string :=
  substring 0 (String.length s - 1) s.

(** [s.endswith(suffix)]. *)
Definition endswith (s suffix : string) : bool :=
  (String.length suffix <=? String.length s)%nat
  && String.eqb
       (substring (String.length s - String.length suffix)
                  (String.length suffix) s)
       suffix.

(** [sep.join(parts)]. *)
Fixpoint join (sep : string) (parts : list string) : string :=
  match parts with
  | [] => ""
  | [x] => x
  | x :: rest => x +:+ sep +:+ join sep rest
  end.

(** ** Dictionaries in insertion order

    [results] is iterated by the exporters, so it is a list of items in
    insertion order; assigning to a key that is present keeps its place. *)

Definition dict (V : Type) : Type := list (string * V).

Fixpoint dict_get {V} (d : dict V) (k : string) : option V :=
  match d with
  | [] => None
  | (k', v) :: d' => if decide (k' = k) then Some v else dict_get d' k
  end.

Fixpoint dict_set {V} (d : dict V) (k : string) (v : V) : dict V :=
  match d with
  | [] => [(k, v)]
  | (k', v') :: d' =>
      if decide (k' = k) then (k, v) :: d' else (k', v') :: dict_set d' k v
  end.

Definition dict_keys {V} (d : dict V) : list string := fst <$> d.

(** ** The options

    The attributes of the [argparse] namespace.  An attribute that the
    program compares with [None] is an [option]. *)

Record options := {
  use_ldaps : bool;
  quiet : bool;
  debug : bool;
  colors : bool;
  ignore_hidden_shares : bool;
  threads : Z;
  export_xlsx : option string;
  export_json : option string;
  export_sqlite : option string;
  dc_ip : option string;
  auth_domain : string;
  auth_username : string;
  no_pass : bool;
  auth_password : option string;
  auth_hashes : option string;
  auth_key : option string;
  use_kerberos : bool
}.

(** ** The share prober: [worker] *)

Definition COMMON_SHARES : list string := [
  "C$";
  "ADMIN$"; "IPC$";
  "PRINT$"; "print$";
  "fax$"; "FAX$";
  "SYSVOL"; "NETLOGON"
].

(** One element of the answer of [smbClient.listShares()]. *)
Record SHARE_INFO_1 := {
  shi1_netname : string;
  shi1_remark : string;
  shi1_type : Z
}.

(** The dictionary appended to [results[target_name]]; the key "type" of
    the inner dictionary is the field [stype]. *)
Record computer_dict := { fqdn : string; ip : string }.
Record type_dict := { stype_value : Z; stype_flags : list string }.
Record share_dict := {
  name : string;
  comment : string;
  hidden : bool;
  uncpath : string;
  stype : type_dict
}.
Record share_record := { computer : computer_dict; share : share_dict }.

Definition make_record (target_name target_ip sharename sharecomment : string)
    (sharetype : Z) : share_record :=
  {| computer := {| fqdn := target_name; ip := target_ip |};
     share := {|
       name := sharename;
       comment := sharecomment;
       hidden := if endswith sharename "$" then true else false;
       uncpath := join "\" [""; ""; target_ip; sharename; ""];
       stype := {| stype_value := sharetype;
                   stype_flags := STYPE_MASK sharetype |}
     |}
  |}.

(** The statements between [lock.acquire()] and [lock.release()]. *)
Definition record_share (results : dict (list share_record))
    (target_name : string) (r : share_record) : dict (list share_record) :=
  let results :=
    if negb (bool_decide (target_name ∈ dict_keys results)) then
      dict_set results target_name []
    else results in
  match dict_get results target_name with
  | Some l => dict_set results target_name (append l r)
  | None => results
  end.

(** Terminal colours: [color "94" s] is [\x1b[94m] ++ s ++ [\x1b[0m]. *)
Definition ESC : string := String "027"%char "".
Definition color (code s : string) : string :=
  ESC +:+ "[" +:+ code +:+ "m" +:+ s +:+ ESC +:+ "[0m".

(** The cascade of [print] calls that follows the release of the lock:
    the lines it prints (none or one). *)
Definition display (o : options) (sharename sharecomment address : string)
  : list string :=
  if negb (bool_decide (sharename ∈ COMMON_SHARES)) then
    if negb (quiet o) then
      if negb (String.length sharecomment =? 0)%nat then
        if colors o then
          if endswith sharename "$" then
            if negb (ignore_hidden_shares o) then
              ["[>] Found '" +:+ color "94" sharename +:+ "' on '"
               +:+ color "96" address +:+ "' (comment: '"
               +:+ color "95" sharecomment +:+ "')"]
            else []
          else
            ["[>] Found '" +:+ color "93" sharename +:+ "' on '"
             +:+ color "96" address +:+ "' (comment: '"
             +:+ color "95" sharecomment +:+ "')"]
        else
          ["[>] Found '" +:+ sharename +:+ "' on '" +:+ address
           +:+ "' (comment: '" +:+ sharecomment +:+ "')"]
      else
        if colors o then
          if endswith sharename "$" then
            if negb (ignore_hidden_shares o) then
              ["[>] Found '" +:+ color "94" sharename +:+ "' on '"
               +:+ color "96" address +:+ "'"]
            else []
          else
            ["[>] Found '" +:+ color "93" sharename +:+ "' on '"
             +:+ color "96" address +:+ "'"]
        else
          if endswith sharename "$" then
            if negb (ignore_hidden_shares o) then
              ["[>] Found '" +:+ sharename +:+ "' on '" +:+ address +:+ "'"]
            else []
          else
            ["[>] Found '" +:+ sharename +:+ "' on '" +:+ address +:+ "'"]
    else []
  else if debug o && negb (quiet o) then
    if negb (String.length sharecomment =? 0)%nat then
      if colors o then
        if endswith sharename "$" && negb (ignore_hidden_shares o) then
          ["[>] Skipping common share '" +:+ color "94" sharename +:+ "' on '"
           +:+ color "96" address +:+ "' (comment: '"
           +:+ color "95" sharecomment +:+ "')"]
        else
          ["[>] Skipping common share '" +:+ color "93" sharename +:+ "' on '"
           +:+ color "96" address +:+ "' (comment: '"
           +:+ color "95" sharecomment +:+ "')"]
      else
        ["[>] Skipping common share '" +:+ sharename +:+ "' on '" +:+ address
         +:+ "' (comment: '" +:+ sharecomment +:+ "')"]
    else
      if colors o then
        if endswith sharename "$" && negb (ignore_hidden_shares o) then
          ["[>] Skipping common share '" +:+ color "94" sharename +:+ "' on '"
           +:+ color "96" address +:+ "'"]
        else
          ["[>] Skipping common share '" +:+ color "93" sharename +:+ "' on '"
           +:+ color "96" address +:+ "'"]
      else
        if endswith sharename "$" then
          if negb (ignore_hidden_shares o) then
            ["[>] Skipping common share '" +:+ sharename +:+ "' on '"
             +:+ address +:+ "'"]
          else []
        else
          ["[>] Skipping common share '" +:+ sharename +:+ "' on '"
           +:+ address +:+ "'"]
  else [].

(** What happens outside the program while one host is probed: the name
    resolution, the SMB connection, the login and the share listing, each
    of which may raise, and the terminal: [print_error n line] is the
    exception [print(line)] raises when the task has printed [n] lines
    before (a [UnicodeEncodeError] for a character the encoding of the
    terminal lacks, a [BrokenPipeError] once the reader is gone), and
    [None] when the line is printed. *)
Record host_probe := {
  dns_lookup : result (list string);
  smb_connect : result unit;
  smb_login : result unit;
  listShares : result (list SHARE_INFO_1);
  print_error : nat -> string -> option string
}.

(** [init_smb_session], called with [debug=False] so that it prints
    nothing.  With Kerberos the arguments of [kerberosLogin] are evaluated
    first, and the namespace has no attribute [aesKey] (the option is stored
    as [auth_key]). *)
Definition init_smb_session (o : options) (p : host_probe) : result unit :=
  _ ← smb_connect p;
  if use_kerberos o then
    Raise "'Namespace' object has no attribute 'aesKey'"
  else
    smb_login p.

(** The steps of a worker that touch what the threads share: the insertion
    in [results], done while holding the lock, and a call of [print]. *)
Inductive action :=
| Append (target_name : string) (r : share_record)
| Output (lines : list string).

(** The body of [for share in resp]. *)
Definition share_actions (o : options) (target_name target_ip address : string)
    (sh : SHARE_INFO_1) : list action :=
  let sharename := all_but_last (shi1_netname sh) in
  let sharecomment := all_but_last (shi1_remark sh) in
  let sharetype := shi1_type sh in
  [ Append target_name
      (make_record target_name target_ip sharename sharecomment sharetype);
    Output (display o sharename sharecomment address) ].

(** The [print] calls of one place of the code: the lines that are
    printed, and the exception that stopped them, if one did. *)
Fixpoint print_all (print_error : nat -> string -> option string) (n : nat)
    (lines : list string) : list string * option string :=
  match lines with
  | [] => ([], None)
  | line :: lines' =>
      match print_error n line with
      | Some e => ([], Some e)
      | None =>
          let '(printed, e) := print_all print_error (S n) lines' in
          (line :: printed, e)
      end
  end.

(** The statements of a [try] block as far as they are run: a [print]
    that raises ends the block, and what comes after it is not run.  The
    actions that are done, and the exception raised, if one is. *)
Fixpoint attempt (p : host_probe) (n : nat) (acts : list action)
  : list action * option string :=
  match acts with
  | [] => ([], None)
  | Append target_name r :: acts' =>
      let '(done, e) := attempt p n acts' in
      (Append target_name r :: done, e)
  | Output lines :: acts' =>
      match print_all (print_error p) n lines with
      | (printed, Some e) => ([Output printed], Some e)
      | (printed, None) =>
          let '(done, e) := attempt p (n + length lines) acts' in
          (Output printed :: done, e)
      end
  end.

(** The number of lines a list of actions prints. *)
Fixpoint prints (acts : list action) : nat :=
  match acts with
  | [] => 0
  | Append _ _ :: acts' => prints acts'
  | Output lines :: acts' => length lines + prints acts'
  end.

(** [worker]: the actions of the task, and how the task ends.  The name
    lookup is outside the [try]: when it raises, so does the task.  The
    loop over the shares is inside: an exception of [init_smb_session], of
    [listShares] or of a [print] of the loop ends it and goes to the
    handler, which prints it with [--debug]; that [print] is outside the
    [try] again. *)
Definition worker (o : options) (target_name address : string)
    (p : host_probe) : list action * result unit :=
  match dns_lookup p with
  | Raise e => ([], Raise e)
  | Ok target_ip =>
      match target_ip with
      | [] => ([], Ok tt)
      | target_ip :: _ =>
          let '(done, raised) :=
            match (_ ← init_smb_session o p; listShares p) with
            | Ok resp =>
                attempt p 0
                  (concat (share_actions o target_name target_ip address
                             <$> resp))
            | Raise e => ([], Some e)
            end in
          match raised with
          | None => (done, Ok tt)
          | Some e =>
              if debug o then
                match print_error p (prints done) e with
                | None => (done ++ [Output [e]], Ok tt)
                | Some e' => (done, Raise e')
                end
              else (done, Ok tt)
          end
      end
  end.

(** ** The thread pool

    What the threads share: the dictionary [results] and the terminal. *)

Inductive event :=
| Print (s : string)
| Print_help
| Getpass (prompt : string).

Record shared := {
  results : dict (list share_record);
  stdout : list event
}.

Definition do_action (st : shared) (a : action) : shared :=
  match a with
  | Append target_name r =>
      {| results := record_share (results st) target_name r;
         stdout := stdout st |}
  | Output lines =>
      {| results := results st;
         stdout := stdout st ++ (Print <$> lines) |}
  end.

(** [ThreadPoolExecutor(max_workers=...)] refuses a pool without
    workers. *)
Definition ThreadPoolExecutor (max_workers : Z) : result unit :=
  if max_workers <=? 0 then Raise "max_workers must be greater than 0"
  else Ok tt.

(** The next action of task [i], and the tasks once it is done. *)
Definition next_action (tasks : list (list action)) (i : nat)
  : option (action * list (list action)) :=
  match tasks !! i with
  | Some (a :: rest) => Some (a, <[i := rest]> tasks)
  | _ => None
  end.

(** The tasks run interleaved.  The schedule names, step after step, the
    task that performs its next action (a step of a task that has none is
    idle); when the schedule is over, leaving the [with] block waits for
    every task, and what is left of them runs to its end.  Every
    interleaving of the tasks is the run of some schedule; the bound on the
    number of tasks in progress at a time only removes interleavings. *)
Fixpoint run_pool (schedule : list nat) (tasks : list (list action))
    (st : shared) : shared :=
  match schedule with
  | [] => foldl do_action st (concat tasks)
  | i :: schedule' =>
      match next_action tasks i with
      | Some (a, tasks') => run_pool schedule' tasks' (do_action st a)
      | None => run_pool schedule' tasks st
      end
  end.

(** ** The exporters *)

(** The records of a result set, in the order the exporters visit them:
    [for computername in results.keys(): for share in results[computername]]. *)
Definition records_of (results : dict (list share_record)) : list share_record :=
  concat ((fun computername => default [] (dict_get results computername))
            <$> dict_keys results).

(** *** JSON: the value handed to [json.dumps], as a JSON tree. *)

Unset Elimination Schemes.
Inductive json :=
| JString (s : string)
| JInt (z : Z)
| JBool (b : bool)
| JArray (items : list json)
| JObject (members : list (string * json)).
Set Elimination Schemes.

Definition json_of_record (r : share_record) : json :=
  JObject [
    ("computer", JObject [
       ("fqdn", JString (fqdn (computer r)));
       ("ip", JString (ip (computer r))) ]);
    ("share", JObject [
       ("name", JString (name (share r)));
       ("comment", JString (comment (share r)));
       ("hidden", JBool (hidden (share r)));
       ("uncpath", JString (uncpath (share r)));
       ("type", JObject [
          ("stype_value", JInt (stype_value (stype (share r))));
          ("stype_flags",
           JArray (JString <$> stype_flags (stype (share r)))) ]) ])
  ].

Definition json_of_results (results : dict (list share_record)) : json :=
  JObject ((fun '(computername, l) =>
              (computername, JArray (json_of_record <$> l))) <$> results).

(** *** XLSX: the worksheet of xlsxwriter, without its size limits.

    [write] chooses what to make of a value by its type and, for a string,
    by its text: no cell of the empty string (a blank written without a
    format is ignored), a formula of a string that starts with ["="] (or is
    written between ["{="] and ["}"]), a hyperlink of a string that starts
    like a URL, and a text cell of any other string.  The limits of Excel
    (1048576 rows, 32767 characters in a string, 2079 in a URL, 65530
    hyperlinks in a sheet) are left out. *)

(** A value handed to [write]: a [str] or a [bool]. *)
Inductive token :=
| Str (s : string)
| Bool (b : bool).

(** What a cell holds. *)
Inductive cell :=
| Text (s : string)
| Boolean (b : bool)
| Formula (formula : string)
| Url (url : string).

Record worksheet := {
  table : gmap (nat * nat) cell;
  col_widths : gmap nat nat;
  row_heights : gmap nat nat;
  filter_range : option (nat * nat * nat * nat)
}.

Definition add_worksheet : worksheet :=
  {| table := ∅; col_widths := ∅; row_heights := ∅; filter_range := None |}.

(** [s.startswith(prefix)]. *)
Definition startswith (s prefix : string) : bool := String.prefix prefix s.

(** [c in s]. *)
Fixpoint contains (c : ascii) (s : string) : bool :=
  match s with
  | EmptyString => false
  | String c' s' => Ascii.eqb c' c || contains c s'
  end.

(** [re.match("(ftp|http)s?://", s) or re.match("mailto:", s)
    or re.match("(in|ex)ternal:", s)]. *)
Definition url_like (s : string) : bool :=
  existsb (startswith s)
    ["ftp://"; "ftps://"; "http://"; "https://"; "mailto:";
     "internal:"; "external:"].

(** [_write_token_as_string], with the defaults [strings_to_formulas] and
    [strings_to_urls] on and [strings_to_numbers] off: the cell written, if
    one is. *)
Definition write_token_as_string (s : string) : option cell :=
  if String.eqb s "" then None
  else if startswith s "=" then Some (Formula s)
  else if startswith s "{=" && endswith s "}" then Some (Formula s)
  else if contains ":" s && url_like s then Some (Url s)
  else Some (Text s).

(** The cell [write] makes of a value. *)
Definition written (t : token) : option cell :=
  match t with
  | Bool b => Some (Boolean b)
  | Str s => write_token_as_string s
  end.

Definition write (ws : worksheet) (row col : nat) (t : token) : worksheet :=
  match written t with
  | Some c =>
      {| table := <[(row, col) := c]> (table ws);
         col_widths := col_widths ws;
         row_heights := row_heights ws;
         filter_range := filter_range ws |}
  | None => ws
  end.

Fixpoint write_row (ws : worksheet) (row col : nat) (data : list token)
  : worksheet :=
  match data with
  | [] => ws
  | token :: data' => write_row (write ws row col token) row (S col) data'
  end.

Definition set_column (ws : worksheet) (first_col last_col width : nat)
  : worksheet :=
  {| table := table ws;
     col_widths :=
       foldl (fun m c => <[c := width]> m) (col_widths ws)
             (seq first_col (S last_col - first_col));
     row_heights := row_heights ws;
     filter_range := filter_range ws |}.

Definition set_row (ws : worksheet) (row height : nat) : worksheet :=
  {| table := table ws;
     col_widths := col_widths ws;
     row_heights := <[row := height]> (row_heights ws);
     filter_range := filter_range ws |}.

Definition autofilter (ws : worksheet)
    (first_row first_col last_row last_col : nat) : worksheet :=
  {| table := table ws;
     col_widths := col_widths ws;
     row_heights := row_heights ws;
     filter_range := Some (first_row, first_col, last_row, last_col) |}.

Definition header_fields : list string :=
  ["Computer FQDN"; "Computer IP"; "Share name"; "Share comment"; "Is hidden"].

(** The list [data] of one share. *)
Definition row_data (r : share_record) : list token :=
  [ Str (fqdn (computer r)); Str (ip (computer r));
    Str (name (share r)); Str (comment (share r));
    Bool (hidden (share r)) ].

(** The two nested loops that write the data rows: the worksheet and
    [row_id] go round. *)
Definition write_shares (results : dict (list share_record))
    (st : worksheet * nat) : worksheet * nat :=
  foldl (fun st computername =>
           let computer := default [] (dict_get results computername) in
           foldl (fun '(ws, row_id) r =>
                    (write_row ws row_id 0 (row_data r), S row_id))
                 st computer)
        st (dict_keys results).

Definition export_xlsx_sheet (results : dict (list share_record)) : worksheet :=
  let worksheet := add_worksheet in
  let worksheet :=
    foldl (fun ws k =>
             set_column ws k (k + 1)
               (String.length (default "" (header_fields !! k)) + 3))
          worksheet (seq 0 (length header_fields)) in
  let worksheet := set_row worksheet 0 20 in
  let worksheet := write_row worksheet 0 0 (Str <$> header_fields) in
  let row_id := 1%nat in
  let '(worksheet, row_id) := write_shares results (worksheet, row_id) in
  autofilter worksheet 0 0 row_id (length header_fields - 1).

(** *** SQLite: the rows of the table [shares]. *)

Definition sqlite_row : Type := string * string * string * string * Z.

Definition row_values (r : share_record) : sqlite_row :=
  (fqdn (computer r), ip (computer r), name (share r), comment (share r),
   stype_value (stype (share r))).

(** [CREATE TABLE IF NOT EXISTS] and the [INSERT]s; [rows] is what the
    table holds before (nothing when the file is new). *)
Definition export_sqlite_rows (rows : list sqlite_row)
    (results : dict (list share_record)) : list sqlite_row :=
  foldl (fun rows computername =>
           foldl (fun rows r => rows ++ [row_values r]) rows
                 (default [] (dict_get results computername)))
        rows (dict_keys results).

(** ** The command line: [parse_args]

    The parser is the table of its [add_argument] calls.  [argparse] reads
    a command line in two steps.  It first finds, in the strings of the
    command line, the arguments of the parser that are named and the string
    each one is given ([_parse_optional], [consume_optional]: an option
    string may be abbreviated, a value may follow ["="] or be glued to a
    short option, short flags may be written together); then it takes the
    action of each occurrence in turn ([take_action]).  The first step is a
    function of the command line alone, a [lexer] here; the second one is
    [take_actions].  [argparse_lexer] is the lexer of Python 3.11 for this
    parser (which has no positional argument), and the statements about
    [parse_args] are made for every lexer. *)

Definition VERSION : string := "2.3".

Definition set_use_ldaps (v : bool) (o : options) : options :=
  let 'Build_options _ b c d e f g h i j k l m n p q r := o in
  Build_options v b c d e f g h i j k l m n p q r.
Definition set_quiet (v : bool) (o : options) : options :=
  let 'Build_options a _ c d e f g h i j k l m n p q r := o in
  Build_options a v c d e f g h i j k l m n p q r.
Definition set_debug (v : bool) (o : options) : options :=
  let 'Build_options a b _ d e f g h i j k l m n p q r := o in
  Build_options a b v d e f g h i j k l m n p q r.
Definition set_colors (v : bool) (o : options) : options :=
  let 'Build_options a b c _ e f g h i j k l m n p q r := o in
  Build_options a b c v e f g h i j k l m n p q r.
Definition set_ignore_hidden_shares (v : bool) (o : options) : options :=
  let 'Build_options a b c d _ f g h i j k l m n p q r := o in
  Build_options a b c d v f g h i j k l m n p q r.
Definition set_threads (v : Z) (o : options) : options :=
  let 'Build_options a b c d e _ g h i j k l m n p q r := o in
  Build_options a b c d e v g h i j k l m n p q r.
Definition set_export_xlsx (v : option string) (o : options) : options :=
  let 'Build_options a b c d e f _ h i j k l m n p q r := o in
  Build_options a b c d e f v h i j k l m n p q r.
Definition set_export_json (v : option string) (o : options) : options :=
  let 'Build_options a b c d e f g _ i j k l m n p q r := o in
  Build_options a b c d e f g v i j k l m n p q r.
Definition set_export_sqlite (v : option string) (o : options) : options :=
  let 'Build_options a b c d e f g h _ j k l m n p q r := o in
  Build_options a b c d e f g h v j k l m n p q r.
Definition set_dc_ip (v : option string) (o : options) : options :=
  let 'Build_options a b c d e f g h i _ k l m n p q r := o in
  Build_options a b c d e f g h i v k l m n p q r.
Definition set_auth_domain (v : string) (o : options) : options :=
  let 'Build_options a b c d e f g h i j _ l m n p q r := o in
  Build_options a b c d e f g h i j v l m n p q r.
Definition set_auth_username (v : string) (o : options) : options :=
  let 'Build_options a b c d e f g h i j k _ m n p q r := o in
  Build_options a b c d e f g h i j k v m n p q r.
Definition set_no_pass (v : bool) (o : options) : options :=
  let 'Build_options a b c d e f g h i j k l _ n p q r := o in
  Build_options a b c d e f g h i j k l v n p q r.
Definition set_auth_password (v : option string) (o : options) : options :=
  let 'Build_options a b c d e f g h i j k l m _ p q r := o in
  Build_options a b c d e f g h i j k l m v p q r.
Definition set_auth_hashes (v : option string) (o : options) : options :=
  let 'Build_options a b c d e f g h i j k l m n _ q r := o in
  Build_options a b c d e f g h i j k l m n v q r.
Definition set_auth_key (v : option string) (o : options) : options :=
  let 'Build_options a b c d e f g h i j k l m n p _ r := o in
  Build_options a b c d e f g h i j k l m n p v r.
Definition set_use_kerberos (v : bool) (o : options) : options :=
  let 'Build_options a b c d e f g h i j k l m n p q _ := o in
  Build_options a b c d e f g h i j k l m n p q v.

(** [int(s)]: white space around, an optional sign, and decimal digits,
    which a single underscore may separate.  The limit of CPython on the
    length of the numeral (4300 digits) is left out. *)
Definition digit (c : ascii) : option Z :=
  let n := nat_of_ascii c in
  if (48 <=? n)%nat && (n <=? 57)%nat then Some (Z.of_nat (n - 48)) else None.

Definition is_space (c : ascii) : bool :=
  bool_decide (nat_of_ascii c ∈ [9; 10; 11; 12; 13; 32; 133; 160]%nat).

Fixpoint lstrip (s : string) : string :=
  match s with
  | String c s' => if is_space c then lstrip s' else s
  | EmptyString => ""
  end.

Fixpoint rstrip (s : string) : string :=
  match s with
  | String c s' =>
      let r := rstrip s' in
      if String.eqb r "" && is_space c then "" else String c r
  | EmptyString => ""
  end.

(** The digits after a first one. *)
Fixpoint digits (s : string) (acc : Z) : option Z :=
  match s with
  | EmptyString => Some acc
  | String c s' =>
      match digit c with
      | Some d => digits s' (10 * acc + d)
      | None =>
          if Ascii.eqb c "_"%char then
            match s' with
            | String c' s'' =>
                match digit c' with
                | Some d => digits s'' (10 * acc + d)
                | None => None
                end
            | EmptyString => None
            end
          else None
      end
  end.

Definition numeral (s : string) : option Z :=
  match s with
  | String c s' =>
      match digit c with
      | Some d => digits s' d
      | None => None
      end
  | EmptyString => None
  end.

Definition int (s : string) : option Z :=
  match rstrip (lstrip s) with
  | String "-"%char s' => Z.opp <$> numeral s'
  | String "+"%char s' => numeral s'
  | s' => numeral s'
  end.

(** What an argument does with the namespace. *)
Inductive arg_action :=
| store (set : string -> options -> result options)
| store_const (set : options -> options)
| help.

(** An argument of the parser; [is_default v] tells whether the value made
    of the string [v] is the very object that is the default of the
    argument ([argument_values is action.default]): so it is for an empty
    string when the default is the empty string, and for the number 20 of
    [-t]. *)
Record argument := {
  option_strings : list string;
  act : arg_action;
  required : bool;
  exclusive : bool;
  is_default : string -> bool
}.

Definition flag (strings : list string) (set : options -> options)
    (exclusive : bool) : argument :=
  {| option_strings := strings; act := store_const set;
     required := false; exclusive := exclusive;
     is_default := fun _ => false |}.

(** An argument that stores the string it is given; [default] is its
    default when that is a string. *)
Definition valued (strings : list string) (default : option string)
    (set : string -> options -> options)
    (required exclusive : bool) : argument :=
  {| option_strings := strings; act := store (fun v o => Ok (set v o));
     required := required; exclusive := exclusive;
     is_default := fun v =>
       match default with
       | Some d => String.eqb d "" && String.eqb v ""
       | None => false
       end |}.

(** The arguments, in the order they are added; [exclusive] marks the
    members of the mutually exclusive group [cred]. *)
Definition parser : list argument := [
  {| option_strings := ["-h"; "--help"]; act := help;
     required := false; exclusive := false; is_default := fun _ => false |};
  flag ["--use-ldaps"] (set_use_ldaps true) false;
  flag ["-q"; "--quiet"] (set_quiet true) false;
  flag ["--debug"] (set_debug true) false;
  flag ["-no-colors"] (set_colors false) false;
  flag ["-I"; "--ignore-hidden-shares"] (set_ignore_hidden_shares true) false;
  {| option_strings := ["-t"; "--threads"];
     act := store (fun v o =>
                     match int v with
                     | Some n => Ok (set_threads n o)
                     | None => Raise "invalid int value"
                     end);
     required := false; exclusive := false;
     is_default := fun v => bool_decide (int v = Some 20) |};
  valued ["--export-xlsx"] None (fun v => set_export_xlsx (Some v)) false false;
  valued ["--export-json"] None (fun v => set_export_json (Some v)) false false;
  valued ["--export-sqlite"] None (fun v => set_export_sqlite (Some v))
    false false;
  valued ["--dc-ip"] None (fun v => set_dc_ip (Some v)) true false;
  valued ["-d"; "--domain"] (Some "") set_auth_domain false false;
  valued ["-u"; "--user"] (Some "") set_auth_username false false;
  flag ["--no-pass"] (set_no_pass true) true;
  valued ["-p"; "--password"] (Some "")
    (fun v => set_auth_password (Some v)) false true;
  valued ["-H"; "--hashes"] None (fun v => set_auth_hashes (Some v)) false true;
  valued ["--aes-key"] None (fun v => set_auth_key (Some v)) false true;
  flag ["-k"; "--kerberos"] (set_use_kerberos true) false
].

(** The namespace before any argument is read: the [default] of every
    argument, [None] where none is given. *)
Definition defaults : options :=
  {| use_ldaps := false; quiet := false; debug := false; colors := true;
     ignore_hidden_shares := false; threads := 20;
     export_xlsx := None; export_json := None; export_sqlite := None;
     dc_ip := None; auth_domain := ""; auth_username := "";
     no_pass := false; auth_password := Some ""; auth_hashes := None;
     auth_key := None; use_kerberos := false |}.

(** *** Taking the actions *)

(** What the lexer makes of the command line: an occurrence of the
    argument at place [i] of the parser, with the string it is given when
    it takes one; a string that names no argument; an error that stops the
    reading there. *)
Inductive step :=
| Take (i : nat) (argument_strings : option string)
| Extra (arg_string : string)
| Refuse (message : string).

Definition lexer : Type := list string -> result (list step).

Record parsing := {
  namespace : options;
  seen_actions : list nat;
  seen_non_default_actions : list nat;
  extras : list string
}.

Inductive parsed :=
| Parsed (st : parsing)
| Help
| Error (message : string).

(** An argument of the exclusive group conflicts with another one of the
    group that was given a value other than its default before. *)
Definition conflicts (i : nat) (a : argument) (seen_non_default : list nat)
  : bool :=
  exclusive a
  && existsb (fun j => negb (j =? i)%nat
                       && match parser !! j with
                          | Some b => exclusive b
                          | None => false
                          end) seen_non_default.

(** [take_action]: the string is converted, the exclusive group is
    checked unless the value is the default, and the namespace is
    updated.  The value of a flag is a fresh empty list, never the
    default.  An argument that stores stores the string it is given.
    ([_get_values] of Python 3.11 drops a string that is exactly ["--"],
    so that [-p=--] stores an empty list, which is not [None] either; the
    namespace here holds strings, and the argument stores ["--"].) *)
Definition take_action (i : nat) (argument_strings : option string)
    (st : parsing) : parsed :=
  match parser !! i with
  | None => Error "no such argument"
  | Some a =>
      let seen_actions := i :: seen_actions st in
      match act a, argument_strings with
      | help, None => Help
      | store_const set, None =>
          if conflicts i a (seen_non_default_actions st)
          then Error "not allowed with argument"
          else Parsed {| namespace := set (namespace st);
                         seen_actions := seen_actions;
                         seen_non_default_actions :=
                           i :: seen_non_default_actions st;
                         extras := extras st |}
      | store set, Some v =>
          match set v (namespace st) with
          | Raise e => Error e
          | Ok o =>
              if is_default a v then
                Parsed {| namespace := o;
                          seen_actions := seen_actions;
                          seen_non_default_actions :=
                            seen_non_default_actions st;
                          extras := extras st |}
              else if conflicts i a (seen_non_default_actions st)
              then Error "not allowed with argument"
              else Parsed {| namespace := o;
                             seen_actions := seen_actions;
                             seen_non_default_actions :=
                               i :: seen_non_default_actions st;
                             extras := extras st |}
          end
      | store _, None => Error "expected one argument"
      | _, Some _ => Error "ignored explicit argument"
      end
  end.

Fixpoint take_actions (steps : list step) (st : parsing) : parsed :=
  match steps with
  | [] => Parsed st
  | Take i argument_strings :: steps' =>
      match take_action i argument_strings st with
      | Parsed st' => take_actions steps' st'
      | r => r
      end
  | Extra arg_string :: steps' =>
      take_actions steps'
        {| namespace := namespace st;
           seen_actions := seen_actions st;
           seen_non_default_actions := seen_non_default_actions st;
           extras := extras st ++ [arg_string] |}
  | Refuse message :: _ => Error message
  end.

(** The indices of the required arguments that were not seen. *)
Definition missing_required (seen : list nat) : list nat :=
  List.filter (fun i => match parser !! i with
                        | Some a => required a && negb (bool_decide (i ∈ seen))
                        | None => false
                        end) (seq 0 (length parser)).

(** [parser.parse_args()] on [sys.argv[1:]]. *)
Definition parser_parse_args (lexer : lexer) (args : list string) : parsed :=
  match lexer args with
  | Raise e => Error e
  | Ok steps =>
      match take_actions steps
              {| namespace := defaults; seen_actions := [];
                 seen_non_default_actions := []; extras := [] |} with
      | Parsed st =>
          match missing_required (seen_actions st) with
          | _ :: _ => Error "the following arguments are required"
          | [] =>
              match extras st with
              | _ :: _ => Error "unrecognized arguments"
              | [] => Parsed st
              end
          end
      | r => r
      end
  end.

(** Leaving the program: [Exit] is [sys.exit], also when [argparse] calls
    it. *)
Inductive outcome (A : Type) :=
| Return (a : A)
| Exit (status : Z).
Arguments Return {A} a.
Arguments Exit {A} status.

Definition NL : string := String "010"%char "".

(** [parse_args]; [tty] is what the user would type at a password
    prompt. *)
Definition parse_args (lexer : lexer) (argv : list string) (tty : string)
  : list event * outcome options :=
  let out :=
    [Print ("FindUncommonShares v" +:+ VERSION +:+ " - by @podalirius_" +:+ NL)] in
  if (length argv =? 1)%nat then (out ++ [Print_help], Exit 1)
  else
    match parser_parse_args lexer (drop 1 argv) with
    | Help => (out ++ [Print_help], Exit 0)
    | Error _ => (out, Exit 2)
    | Parsed st =>
        let options := namespace st in
        if bool_decide (auth_password options = None)
           && bool_decide (no_pass options = false)
        then (out ++ [Getpass "Password:"],
              Return (set_auth_password (Some tty) options))
        else (out, Return options)
    end.

(** *** The lexer of [argparse] *)

(** [_option_string_actions]: the option strings, each with the place of
    its argument, in the order they were added. *)
Definition option_string_actions : list (string * nat) :=
  concat (imap (fun i a => (fun s => (s, i)) <$> option_strings a) parser).

Definition option_action (option_string : string) : option nat :=
  snd <$> List.find (fun x => String.eqb (fst x) option_string)
            option_string_actions.

(** [s.split("=", 1)], when there is an ["="]. *)
Fixpoint partition_eq (s : string) : option (string * string) :=
  match s with
  | EmptyString => None
  | String c s' =>
      if Ascii.eqb c "="%char then Some ("", s')
      else match partition_eq s' with
           | Some (before, after) => Some (String c before, after)
           | None => None
           end
  end.

(** [_negative_number_matcher], the expression ["^-\d+$|^-\d*\.\d+$"]:
    ["$"] also matches before a newline that ends the string. *)
Fixpoint all_digits (s : string) : bool :=
  match s with
  | EmptyString => true
  | String c s' => bool_decide (is_Some (digit c)) && all_digits s'
  end.

Fixpoint skip_digits (s : string) : string :=
  match s with
  | String c s' => if bool_decide (is_Some (digit c)) then skip_digits s' else s
  | EmptyString => ""
  end.

Definition negative_number (arg_string : string) : bool :=
  match arg_string with
  | String "-"%char s =>
      let s := if endswith s NL then all_but_last s else s in
      match skip_digits s with
      | EmptyString => negb (String.eqb s "")
      | String "."%char fraction =>
          negb (String.eqb fraction "") && all_digits fraction
      | _ => false
      end
  | _ => false
  end.

(** [_get_option_tuples]: the arguments an option string that is not
    written in full may stand for, with the string it gives them. *)
Definition get_option_tuples (option_string : string)
  : list (nat * string * option string) :=
  match option_string with
  | String "-"%char (String "-"%char _) =>
      let '(option_prefix, explicit_arg) :=
        match partition_eq option_string with
        | Some (option_prefix, explicit_arg) => (option_prefix, Some explicit_arg)
        | None => (option_string, None)
        end in
      omap (fun '(s, i) =>
              if startswith s option_prefix then Some (i, s, explicit_arg)
              else None) option_string_actions
  | String "-"%char (String c short_explicit_arg) =>
      let option_prefix := option_string in
      let short_option_prefix := String "-"%char (String c "") in
      omap (fun '(s, i) =>
              if String.eqb s short_option_prefix
              then Some (i, s, Some short_explicit_arg)
              else if startswith s option_prefix then Some (i, s, None)
              else None) option_string_actions
  | _ => []
  end.

(** The pattern of an argument string: ["O"] with what [_parse_optional]
    returns (the place of the argument, if the parser has it, the option
    string, and the explicit argument), ["A"], or ["-"] for ["--"]. *)
Inductive arg_pattern :=
| O (action : option nat) (option_string : string)
    (explicit_arg : option string)
| A
| dashes.

Definition parse_optional (arg_string : string) : result arg_pattern :=
  match arg_string with
  | EmptyString => Ok A
  | String c _ =>
      if negb (Ascii.eqb c "-"%char) then Ok A
      else
        match option_action arg_string with
        | Some i => Ok (O (Some i) arg_string None)
        | None =>
            if (String.length arg_string =? 1)%nat then Ok A
            else
              match
                '(option_string, explicit_arg) ← partition_eq arg_string;
                i ← option_action option_string;
                Some (O (Some i) option_string (Some explicit_arg))
              with
              | Some pattern => Ok pattern
              | None =>
                  match get_option_tuples arg_string with
                  | _ :: _ :: _ => Raise "ambiguous option"
                  | [(i, option_string, explicit_arg)] =>
                      Ok (O (Some i) option_string explicit_arg)
                  | [] =>
                      if negative_number arg_string then Ok A
                      else if contains " " arg_string then Ok A
                      else Ok (O None arg_string None)
                  end
              end
        end
  end.

(** The patterns of the command line; after ["--"] every string is an
    ["A"]. *)
Fixpoint arg_strings_pattern (arg_strings : list string)
  : result (list (string * arg_pattern)) :=
  match arg_strings with
  | [] => Ok []
  | arg_string :: arg_strings' =>
      if String.eqb arg_string "--" then
        Ok ((arg_string, dashes) :: ((fun s => (s, A)) <$> arg_strings'))
      else
        pattern ← parse_optional arg_string;
        patterns ← arg_strings_pattern arg_strings';
        Ok ((arg_string, pattern) :: patterns)
  end.

(** The number of strings an argument takes. *)
Definition nargs (i : nat) : nat :=
  match act <$> parser !! i with
  | Some (store _) => 1
  | _ => 0
  end.

(** The loop of [consume_optional] on an explicit argument: an argument
    that takes a string takes it; after a flag written with one dash the
    explicit argument is read as more flags, one character each.  The
    occurrences found, and the argument that goes on with the strings that
    follow, if the loop ends on one without an explicit argument. *)
Fixpoint explicit (i : nat) (option_string explicit_arg : string)
  : result (list step * option nat) :=
  if (nargs i =? 0)%nat then
    match option_string, explicit_arg with
    | String _ (String c1 _), String c explicit_arg' =>
        if negb (Ascii.eqb c1 "-"%char) then
          let option_string := String "-"%char (String c "") in
          match option_action option_string with
          | Some j =>
              match explicit_arg' with
              | EmptyString => Ok ([Take i None], Some j)
              | _ =>
                  '(action_tuples, last) ← explicit j option_string explicit_arg';
                  Ok (Take i None :: action_tuples, last)
              end
          | None => Raise "ignored explicit argument"
          end
        else Raise "ignored explicit argument"
    | _, _ => Raise "ignored explicit argument"
    end
  else Ok ([Take i (Some explicit_arg)], None).

(** [consume_optional] at every option string in turn; the strings in
    between are extras, since the parser has no positional argument. *)
Fixpoint consume_optionals (patterns : list (string * arg_pattern))
  : list step :=
  match patterns with
  | [] => []
  | (arg_string, O (Some i) option_string explicit_arg) :: patterns' =>
      match match explicit_arg with
            | Some explicit_arg => explicit i option_string explicit_arg
            | None => Ok ([], Some i)
            end with
      | Raise message => [Refuse message]
      | Ok (action_tuples, None) => action_tuples ++ consume_optionals patterns'
      | Ok (action_tuples, Some j) =>
          if (nargs j =? 0)%nat then
            action_tuples ++ Take j None :: consume_optionals patterns'
          else
            match patterns' with
            | (arg_string, A) :: patterns'' =>
                action_tuples
                ++ Take j (Some arg_string) :: consume_optionals patterns''
            | _ => [Refuse "expected one argument"]
            end
      end
  | (arg_string, _) :: patterns' => Extra arg_string :: consume_optionals patterns'
  end.

Definition argparse_lexer : lexer :=
  fun arg_strings =>
    patterns ← arg_strings_pattern arg_strings;
    Ok (consume_optionals patterns).

(** ** The program: [__main__]

    What the program meets outside itself: the terminal, the directory
    ([init_ldap_session] only hands the credentials to ldap3, so its
    outcome is given: the exception the bind raises, or the pages the bound
    session will be served), the ticket cache of Kerberos, the answers of
    the network to the probe of each computer (by distinguished name), the
    order in which the threads run, whether a file can be written at a
    path, and the rows the table [shares] of the database already holds.

    [ccache_errors] are the exceptions of [CCache.loadFile] in
    [ldap3_kerberos_login], one for each connection attempt that gets there
    and cannot load the cache: the function prints them, quiet or not.  Its
    other [print] calls are under [debug], which [init_ldap_connection]
    leaves at [False]. *)

Record environment := {
  tty : string;
  ccache_errors : list string;
  ldap_session : result (list page);
  probe : string -> host_probe;
  schedule : list nat;
  writable : string -> bool;
  database : list sqlite_row
}.

Inductive file :=
| Json_file (j : json)
| Xlsx_file (ws : worksheet)
| Sqlite_file (rows : list sqlite_row).

(** What a run leaves: what it printed, the files it wrote (by the path
    given on the command line), its exit status, and the exception that
    ended it, if one did. *)
Record run := {
  output : list event;
  files : list (string * file);
  status : Z;
  uncaught : option string
}.

(** An exception nobody catches ends the program with status 1. *)
Definition crash (out : list event) (written : list (string * file))
    (e : string) : run :=
  {| output := out; files := written; status := 1; uncaught := Some e |}.

(** One [if options.export_... is not None] block: the announcement, the
    file (its directory is created when missing), and ["done."]. *)
Definition export_to (env : environment) (path : option string)
    (trail : string) (content : file)
    (next : list event -> list (string * file) -> run)
    (out : list event) (written : list (string * file)) : run :=
  match path with
  | None => next out written
  | Some path =>
      let out := out ++ [Print ("[>] Exporting results to " +:+ path +:+ trail)] in
      if writable env path then
        next (out ++ [Print "done."]) (written ++ [(path, content)])
      else crash out written "PermissionError"
  end.

Definition exports (o : options) (env : environment)
    (results : dict (list share_record)) (out : list event) : run :=
  export_to env (export_json o) " ... " (Json_file (json_of_results results))
    (export_to env (export_xlsx o) " ... "
       (Xlsx_file (export_xlsx_sheet results))
       (export_to env (export_sqlite o) " ..."
          (Sqlite_file (export_sqlite_rows (database env) results))
          (fun out written =>
             {| output := out; files := written; status := 0;
                uncaught := None |})))
    out [].

(** The tasks handed to the pool, one for each computer; what a task
    raises stays in its future, which nobody reads. *)
Definition submit_all (o : options) (env : environment)
    (computers : gmap string attributes) : list (list action) :=
  (fun '(ck, computer) =>
     fst (worker o (dNSHostName computer) (dNSHostName computer)
                 (probe env ck)))
    <$> map_to_list computers.

(** What [init_ldap_session] prints: with [-k], the exceptions of the
    ticket cache. *)
Definition init_ldap_session_output (options : options) (env : environment)
  : list event :=
  if use_kerberos options then Print <$> ccache_errors env else [].

(** The program from the parsed options on; [out] is what was printed
    before. *)
Definition program (options : options) (env : environment)
    (out : list event) : run :=
  let out := out ++ init_ldap_session_output options env in
  match ldap_session env with
  | Raise e => crash out [] e
  | Ok ldap_session =>
      let out :=
        if negb (quiet options)
        then out ++ [Print "[>] Extracting all computers ..."]
        else out in
      match get_domain_computers ldap_session with
      | Raise e => crash out [] e
      | Ok computers =>
          let out :=
            if negb (quiet options)
            then out ++ [Print ("[+] Found " +:+ pretty (size computers)
                                +:+ " computers in the domain. " +:+ NL);
                         Print "[>] Enumerating shares ..."]
            else out in
          match ThreadPoolExecutor
                  (Z.min (threads options) (Z.of_nat (size computers))) with
          | Raise e => crash out [] e
          | Ok _ =>
              let st :=
                run_pool (schedule env) (submit_all options env computers)
                         {| results := []; stdout := out |} in
              exports options env (results st) (stdout st)
          end
      end
  end.


(** ** Reading a result set

    The vocabulary of the statements below. *)

(** The records of a result set, each with the host it is filed under. *)
Definition filed (d : dict (list share_record)) : list (string * share_record) :=
  concat ((fun '((k, l) : string * list share_record) => pair k <$> l)
            <$> (d : list (string * list share_record))).

(** The insertions a list of actions makes. *)
Definition appended (acts : list action) : list (string * share_record) :=
  omap (fun a => match a with
                 | Append target_name r => Some (target_name, r)
                 | Output _ => None
                 end) acts.





(** An action without what it prints. *)
Definition silent (a : action) : action :=
  match a with
  | Append target_name r => Append target_name r
  | Output _ => Output []
  end.

Definition silent_tasks (tasks : list (list action)) : list (list action) :=
  (fun task : list action => silent <$> task) <$> tasks.


(** The place of [-p/--password] in [parser]. *)
Definition password_argument : nat := 14.

(** The paths of the export files asked for, in the order they are
    written. *)
Definition export_paths (o : options) : list string :=
  omap id [export_json o; export_xlsx o; export_sqlite o].

(** ** A small domain

    Two computers, served in two pages; the second page of the directory
    also carries a referral.  The first computer lists two shares, the name
    of the second one cannot be resolved, and the lookup raises. *)

Definition example_pages : list page := [
  {| controls := Some {[ LDAP_PAGED_RESULT_OID_STRING := "cookie-1" ]};
     response := [
       {| type := "searchResEntry"; dn := "CN=WS01,CN=Computers,DC=lab";
          attrs := {| dNSHostName := "ws01.lab";
                      sAMAccountName := "WS01$" |} |} ] |};
  {| controls := Some {[ LDAP_PAGED_RESULT_OID_STRING := "" ]};
     response := [
       {| type := "searchResRef"; dn := "";
          attrs := {| dNSHostName := ""; sAMAccountName := "" |} |};
       {| type := "searchResEntry"; dn := "CN=WS02,CN=Computers,DC=lab";
          attrs := {| dNSHostName := "ws02.lab";
                      sAMAccountName := "WS02$" |} |} ] |}
].

Definition example_computers : gmap string attributes :=
  <["CN=WS01,CN=Computers,DC=lab" :=
      {| dNSHostName := "ws01.lab"; sAMAccountName := "WS01$" |}]>
    (<["CN=WS02,CN=Computers,DC=lab" :=
         {| dNSHostName := "ws02.lab"; sAMAccountName := "WS02$" |}]> ∅).

(** The strings of the server end with a terminator, here ["000"]. *)
Definition NUL : string := String "000"%char "".

Definition example_shares : list SHARE_INFO_1 := [
  {| shi1_netname := "C$" +:+ NUL; shi1_remark := "Default share" +:+ NUL;
     shi1_type := 0x80000000 |};
  {| shi1_netname := "Projects" +:+ NUL; shi1_remark := NUL;
     shi1_type := 0x0 |}
].

Definition example_probe (ck : string) : host_probe :=
  if decide (ck = "CN=WS01,CN=Computers,DC=lab") then
    {| dns_lookup := Ok ["10.0.0.11"]; smb_connect := Ok tt;
       smb_login := Ok tt; listShares := Ok example_shares;
       print_error := fun _ _ => None |}
  else
    {| dns_lookup := Raise "The DNS operation timed out";
       smb_connect := Raise "Connection refused";
       smb_login := Raise "STATUS_LOGON_FAILURE";
       listShares := Raise "STATUS_ACCESS_DENIED";
       print_error := fun _ _ => None |}.

Definition example_env : environment :=
  {| tty := "";
     ccache_errors := [];
     ldap_session := Ok example_pages;
     probe := example_probe;
     schedule := [1; 0; 1; 0]%nat;
     writable := fun _ => true;
     database := [] |}.

Definition example_argv : list string :=
  ["FindUncommonShares.py"; "--dc-ip"; "10.0.0.1"; "-d"; "lab"; "-u"; "alice";
   "--export-json"; "shares.json"; "--export-sqlite=shares.db"].

Definition example_options : options :=
  set_export_sqlite (Some "shares.db")
    (set_export_json (Some "shares.json")
       (set_auth_username "alice"
          (set_auth_domain "lab" (set_dc_ip (Some "10.0.0.1") defaults)))).




(** The result set of the small domain. *)
Definition example_results : dict (list share_record) :=
  [("ws01.lab",
    [make_record "ws01.lab" "10.0.0.11" "C$" "Default share" 0x80000000;
     make_record "ws01.lab" "10.0.0.11" "Projects" "" 0x0])].

(** A directory where a computer is renamed between two pages: its
    distinguished name comes twice. *)
Definition renamed_entry (host : string) : entry :=
  {| type := "searchResEntry"; dn := "CN=SRV,CN=Computers,DC=lab";
     attrs := {| dNSHostName := host; sAMAccountName := "SRV$" |} |}.

Definition renamed_pages : list page := [
  {| controls := Some {[ LDAP_PAGED_RESULT_OID_STRING := "cookie-1" ]};
     response := [renamed_entry "old.lab"] |};
  {| controls := None; response := [renamed_entry "new.lab"] |}
].

(** The records the probe of one computer yields when every line is
    printed: one for each share it lists, in the order of the listing; none
    when the name does not resolve, when the session cannot be opened or
    when the listing fails. *)
Definition host_records (o : options) (env : environment)
    (ck : string) (c : attributes) : list share_record :=
  match dns_lookup (probe env ck) with
  | Ok (target_ip :: _) =>
      match (_ ← init_smb_session o (probe env ck); listShares (probe env ck)) with
      | Ok resp =>
          (fun sh => make_record (dNSHostName c) target_ip
                       (all_but_last (shi1_netname sh))
                       (all_but_last (shi1_remark sh)) (shi1_type sh))
            <$> resp
      | Raise _ => []
      end
  | _ => []
  end.

(** The lines of the share [sh] in the loop of [worker]. *)
Definition share_lines (o : options) (address : string) (sh : SHARE_INFO_1)
  : list string :=
  display o (all_but_last (shi1_netname sh)) (all_but_last (shi1_remark sh))
    address.

(** The shares of a listing that the loop of [worker] reaches: all of them
    up to the first one whose line [print] raises on, that one included
    (it is appended before its line is printed); [n] is the number of lines
    printed before. *)
Fixpoint reached (o : options) (address : string) (p : host_probe) (n : nat)
    (resp : list SHARE_INFO_1) : list SHARE_INFO_1 :=
  match resp with
  | [] => []
  | sh :: resp' =>
      sh :: match snd (print_all (print_error p) n (share_lines o address sh)) with
            | Some _ => []
            | None =>
                reached o address p (n + length (share_lines o address sh)) resp'
            end
  end.

(** The records the probe of one computer files: those of the shares its
    loop reaches. *)
Definition recorded (o : options) (env : environment)
    (ck : string) (c : attributes) : list share_record :=
  match dns_lookup (probe env ck) with
  | Ok (target_ip :: _) =>
      match (_ ← init_smb_session o (probe env ck); listShares (probe env ck)) with
      | Ok resp =>
          (fun sh => make_record (dNSHostName c) target_ip
                       (all_but_last (shi1_netname sh))
                       (all_but_last (shi1_remark sh)) (shi1_type sh))
            <$> reached o (dNSHostName c) (probe env ck) 0 resp
      | Raise _ => []
      end
  | _ => []
  end.

(** Every line is printed while the computer [ck] is probed. *)
Definition prints_well (env : environment) (ck : string) : Prop :=
  forall n line, print_error (probe env ck) n line = None.

(** The small domain with Kerberos and without a ticket cache:
    [KRB5CCNAME] is not set, [CCache.loadFile(None)] raises, and the login
    goes on with the credentials of the command line. *)
Definition no_ccache_env : environment :=
  {| tty := "";
     ccache_errors := ["expected str, bytes or os.PathLike object, not NoneType"];
     ldap_session := Ok example_pages;
     probe := example_probe;
     schedule := [];
     writable := fun _ => true;
     database := [] |}.

(** A terminal that prints ASCII only: [print] raises on a line with the
    character ["233"] (an e with an acute accent in Latin-1).  The first
    computer lists a hidden share with such a name, then two shares with
    plain names. *)
Definition ascii_only (n : nat) (line : string) : option string :=
  if contains "233"%char line
  then Some "'ascii' codec can't encode character '\xe9'"
  else None.

Definition accented_shares : list SHARE_INFO_1 := [
  {| shi1_netname := "Priv" +:+ String "233"%char "$" +:+ NUL;
     shi1_remark := "Direction" +:+ NUL; shi1_type := 0x0 |};
  {| shi1_netname := "C$" +:+ NUL; shi1_remark := "Default share" +:+ NUL;
     shi1_type := 0x80000000 |};
  {| shi1_netname := "Data" +:+ NUL; shi1_remark := NUL; shi1_type := 0x0 |}
].

Definition ascii_env : environment :=
  {| tty := "";
     ccache_errors := [];
     ldap_session := Ok example_pages;
     probe := fun ck =>
       if decide (ck = "CN=WS01,CN=Computers,DC=lab") then
         {| dns_lookup := Ok ["10.0.0.11"]; smb_connect := Ok tt;
            smb_login := Ok tt; listShares := Ok accented_shares;
            print_error := ascii_only |}
       else example_probe ck;
     schedule := [];
     writable := fun _ => true;
     database := [] |}.

(** The records a list of actions files under host [k], in order. *)
Definition appended_for (k : string) (acts : list action) : list share_record :=
  omap (fun a => match a with
                 | Append target_name r =>
                     if decide (target_name = k) then Some r else None
                 | Output _ => None
                 end) acts.

(** What [take_actions] keeps true of the credentials: one that is not
    at its default was given on the command line with a value that is not
    the default, and two different credential arguments were never both
    given such a value. *)
Definition credentials_invariant (ns : options) (seen_non_default : list nat)
  : Prop :=
  (no_pass ns = true -> 13%nat ∈ seen_non_default)
  /\ (auth_password ns <> Some "" -> 14%nat ∈ seen_non_default)
  /\ (auth_hashes ns <> None -> 15%nat ∈ seen_non_default)
  /\ (auth_key ns <> None -> 16%nat ∈ seen_non_default)
  /\ (forall i j, i ∈ seen_non_default -> j ∈ seen_non_default ->
                  (13 <= i <= 16)%nat -> (13 <= j <= 16)%nat -> i = j).

(** ** The hashes of [-H]

    [__main__] cuts [options.auth_hashes] at the colons, and
    [init_ldap_connection] puts the two hashes together again for ldap3. *)

(** [s.split(":")]. *)
Fixpoint split_colon (s : string) : list string :=
  match s with
  | EmptyString => [""]
  | String c s' =>
      if Ascii.eqb c ":"%char then "" :: split_colon s'
      else match split_colon s' with
           | part :: parts => String c part :: parts
           | [] => [String c ""]
           end
  end.

(** [":" in s]. *)
Fixpoint has_colon (s : string) : bool :=
  match s with
  | EmptyString => false
  | String c s' => Ascii.eqb c ":"%char || has_colon s'
  end.

(** [l[i]], which raises when [i] is out of range. *)
Definition item (l : list string) (i : nat) : result string :=
  match l !! i with
  | Some x => Ok x
  | None => Raise "list index out of range"
  end.

(** The lines that set [auth_lm_hash] and [auth_nt_hash]. *)
Definition split_hashes (auth_hashes : option string) : result (string * string) :=
  let auth_lm_hash := "" in
  let auth_nt_hash := "" in
  match auth_hashes with
  | Some h =>
      if has_colon h then
        auth_lm_hash ← item (split_colon h) 0;
        auth_nt_hash ← item (split_colon h) 1;
        Ok (auth_lm_hash, auth_nt_hash)
      else Ok (auth_lm_hash, h)
  | None => Ok (auth_lm_hash, auth_nt_hash)
  end.

Definition EMPTY_LM_HASH : string := "aad3b435b51404eeaad3b435b51404ee".

(** The [password] that [init_ldap_connection] hands to ldap3 when hashes
    are given. *)
Definition hashes_password (lmhash nthash : string) : string :=
  let lmhash := if String.eqb lmhash "" then EMPTY_LM_HASH else lmhash in
  lmhash +:+ ":" +:+ nthash.

(** ** The LDAP connection: [init_ldap_connection], [init_ldap_session]

    What ldap3 is asked for, and the order of the attempts; the network is
    the function [connect], whose [Raise "LDAPSocketOpenError"] stands for
    the exception of that class. *)

Inductive tls_version := PROTOCOL_TLSv1_2 | PROTOCOL_TLSv1.

Inductive authentication :=
| KERBEROS
| NTLM (user : string) (password : option string).

Record connection_request := {
  target : string;
  port : Z;
  use_ssl : bool;
  tls : option tls_version;
  auth : authentication
}.

Definition init_ldap_connection {S : Type}
    (connect : connection_request -> result S)
    (target : string) (tls_version : option tls_version) (o : options)
    (domain username : string) (password : option string)
    (lmhash nthash : string) : connection_request * result S :=
  let user := domain +:+ "\" +:+ username in
  let '(use_ssl, port) :=
    match tls_version with
    | Some _ => (true, 636)
    | None => (false, 389)
    end in
  let request auth :=
    {| target := target; port := port; use_ssl := use_ssl;
       tls := tls_version; auth := auth |} in
  let request :=
    if use_kerberos o then request KERBEROS
    else if bool_decide (auth_hashes o <> None) then
      request (NTLM user (Some (hashes_password lmhash nthash)))
    else request (NTLM user password) in
  (request, connect request).

(** [init_ldap_session]: the requests made, in order, and the outcome;
    [machine_name] is what [get_machine_name] gives. *)
Definition init_ldap_session {S : Type}
    (connect : connection_request -> result S)
    (machine_name : result string) (o : options)
    (domain username : string) (password : option string)
    (lmhash nthash : string) : list connection_request * result S :=
  let target :=
    if use_kerberos o then machine_name
    else match dc_ip o with
         | Some dc_ip => Ok dc_ip
         | None => Ok domain
         end in
  match target with
  | Raise e => ([], Raise e)
  | Ok target =>
      if use_ldaps o then
        match init_ldap_connection connect target (Some PROTOCOL_TLSv1_2) o
                domain username password lmhash nthash with
        | (first, Raise e) =>
            if String.eqb e "LDAPSocketOpenError" then
              let '(second, r) :=
                init_ldap_connection connect target (Some PROTOCOL_TLSv1) o
                  domain username password lmhash nthash in
              ([first; second], r)
            else ([first], Raise e)
        | (first, Ok session) => ([first], Ok session)
        end
      else
        let '(only, r) :=
          init_ldap_connection connect target None o
            domain username password lmhash nthash in
        ([only], r)
  end.

(** The request [init_ldap_connection] makes of ldap3. *)
Definition ldap_request (o : options) (target : string)
    (tls_version : option tls_version) (domain username : string)
    (password : option string) (lmhash nthash : string) : connection_request :=
  {| target := target;
     port := match tls_version with Some _ => 636 | None => 389 end;
     use_ssl := match tls_version with Some _ => true | None => false end;
     tls := tls_version;
     auth := if use_kerberos o then KERBEROS
             else if bool_decide (auth_hashes o <> None)
                  then NTLM (domain +:+ "\" +:+ username)
                         (Some (hashes_password lmhash nthash))
                  else NTLM (domain +:+ "\" +:+ username) password |}.

(** ** The path of an export file

    Each export block takes the path apart with [os.path.dirname] and
    [os.path.basename] (those of [posixpath]) and puts it together again. *)

(** [(p[:i], p[i:])] for [i = p.rfind("/") + 1]. *)
Fixpoint split_path (p : string) : string * string :=
  match p with
  | EmptyString => ("", "")
  | String c p' =>
      let '(head, tail) := split_path p' in
      if String.eqb head "" then
        if Ascii.eqb c "/"%char then (String c "", tail)
        else ("", String c tail)
      else (String c head, tail)
  end.

(** [s.rstrip("/")]. *)
Fixpoint rstrip_slash (s : string) : string :=
  match s with
  | EmptyString => ""
  | String c s' =>
      let r := rstrip_slash s' in
      if String.eqb r "" && Ascii.eqb c "/"%char then "" else String c r
  end.

Definition dirname (p : string) : string :=
  let head := fst (split_path p) in
  if negb (String.eqb head "") && negb (String.eqb (rstrip_slash head) "")
  then rstrip_slash head
  else head.

Definition basename (p : string) : string := snd (split_path p).

(** [path_to_file], and whether the block asks for [basepath] to be
    created when it does not exist. *)
Definition path_to_file (p : string) : string * bool :=
  let basepath := dirname p in
  let filename := basename p in
  if negb (bool_decide (basepath ∈ ["."; ""])) then
    (basepath +:+ "/" +:+ filename, true)
  else (filename, false).

(** [path] has no ["/"]. *)
Fixpoint no_slash (s : string) : bool :=
  match s with
  | EmptyString => true
  | String c s' => negb (Ascii.eqb c "/"%char) && no_slash s'
  end.

(** ** Hashes for Kerberos: the first lines of [ldap3_kerberos_login] *)

Definition hex_digit (c : ascii) : option Z :=
  let n := Z.of_nat (nat_of_ascii c) in
  if (48 <=? n) && (n <=? 57) then Some (n - 48)
  else if (97 <=? n) && (n <=? 102) then Some (n - 87)
  else if (65 <=? n) && (n <=? 70) then Some (n - 55)
  else None.

(** [binascii.unhexlify]: the bytes, as numbers. *)
Fixpoint unhexlify (s : string) : result (list Z) :=
  match s with
  | EmptyString => Ok []
  | String _ EmptyString => Raise "Odd-length string"
  | String a (String b s') =>
      match hex_digit a, hex_digit b with
      | Some x, Some y =>
          match unhexlify s' with
          | Ok bytes => Ok (16 * x + y :: bytes)
          | Raise e => Raise e
          end
      | _, _ => Raise "Non-hexadecimal digit found"
      end
  end.

(** A hash is a string until it is decoded. *)
Inductive hash :=
| Hex (s : string)
| Bytes (b : list Z).

(** [if len(h) % 2: h = "0" + h]. *)
Definition pad_odd (h : string) : string :=
  if Nat.odd (String.length h) then "0" +:+ h else h.

(** The block [if lmhash != "" or nthash != ""]; the error of
    [unhexlify] is not a [TypeError], so the [except] lets it through. *)
Definition kerberos_hashes (lmhash nthash : string) : result (hash * hash) :=
  if negb (String.eqb lmhash "") || negb (String.eqb nthash "") then
    let lmhash := pad_odd lmhash in
    let nthash := pad_odd nthash in
    lm ← unhexlify lmhash;
    nt ← unhexlify nthash;
    Ok (Bytes lm, Bytes nt)
  else Ok (Hex lmhash, Hex nthash).

(** The number a string of hexadecimal digits writes, and the number a
    list of bytes writes, most significant first. *)
Fixpoint hex_value (s : string) (acc : Z) : option Z :=
  match s with
  | EmptyString => Some acc
  | String c s' =>
      match hex_digit c with
      | Some d => hex_value s' (16 * acc + d)
      | None => None
      end
  end.

Definition bytes_value (bytes : list Z) (acc : Z) : Z :=
  foldl (fun acc b => 256 * acc + b) acc bytes.

(** A command line with hashes. *)
Definition hashes_argv : list string :=
  ["FindUncommonShares.py"; "--dc-ip"; "10.0.0.1"; "-u"; "alice";
   "-H"; ":31d6cfe0d16ae931b73c59d7e0c089c0"].

(** * Theorems *)

(** ** Share-type decoding *)

Lemma land_pow2 (v n : Z) :
  0 <= n -> Z.land v (2 ^ n) = if Z.testbit v n then 2 ^ n else 0.
Proof.
  intros Hn. apply Z.bits_inj'. intros i Hi.
  rewrite Z.land_spec, Z.pow2_bits_eqb by lia.
  destruct (Z.eqb_spec n i) as [->|Hne].
  - destruct (Z.testbit v i) eqn:E; simpl.
    + now rewrite Z.pow2_bits_true.
    + now rewrite Z.bits_0.
  - rewrite andb_false_r.
    destruct (Z.testbit v n).
    + now rewrite Z.pow2_bits_false.
    + now rewrite Z.bits_0.
Qed.

Lemma land_pow2_eq0 (v n : Z) :
  0 <= n -> (Z.land v (2 ^ n) =? 0) = negb (Z.testbit v n).
Proof.
  intros Hn. rewrite land_pow2 by assumption.
  destruct (Z.testbit v n); simpl; [|reflexivity].
  apply Z.eqb_neq. pose proof (Z.pow_pos_nonneg 2 n). lia.
Qed.

Lemma low2_range (v : Z) : 0 <= Z.land v 3 < 4.
Proof.
  change 3 with (Z.ones 2). rewrite Z.land_ones by lia.
  apply Z.mod_pos_bound. reflexivity.
Qed.

Lemma STYPE_MASK_unfold (v : Z) :
  STYPE_MASK v =
    [category_of (Z.land v 3)]
    ++ (if Z.testbit v 31 then [] else ["STYPE_SPECIAL"])
    ++ (if Z.testbit v 30 then [] else ["STYPE_TEMPORARY"]).
Proof.
  unfold STYPE_MASK, known_flags.STYPE_SPECIAL, known_flags.STYPE_TEMPORARY.
  change 0x80000000 with (2 ^ 31). change 0x40000000 with (2 ^ 30).
  rewrite !land_pow2_eq0 by lia.
  pose proof (low2_range v) as Hr.
  assert (Z.land v 3 = 0 \/ Z.land v 3 = 1 \/ Z.land v 3 = 2 \/ Z.land v 3 = 3)
    as [E|[E|[E|E]]] by lia;
    rewrite E; destruct (Z.testbit v 31), (Z.testbit v 30); reflexivity.
Qed.

(** C1: [STYPE_MASK] reports "STYPE_SPECIAL" exactly when bit 31 of the
    value is clear and "STYPE_TEMPORARY" exactly when bit 30 is clear. *)
Theorem STYPE_MASK_inverted_polarity (stype_value : Z) :
  ("STYPE_SPECIAL" ∈ STYPE_MASK stype_value
     <-> Z.land stype_value 0x80000000 = 0)
  /\ ("STYPE_SPECIAL" ∈ STYPE_MASK stype_value
     <-> Z.testbit stype_value 31 = false)
  /\ ("STYPE_TEMPORARY" ∈ STYPE_MASK stype_value
     <-> Z.land stype_value 0x40000000 = 0)
  /\ ("STYPE_TEMPORARY" ∈ STYPE_MASK stype_value
     <-> Z.testbit stype_value 30 = false).
Proof.
  assert (Hc : forall low, category_of low <> "STYPE_SPECIAL"
                           /\ category_of low <> "STYPE_TEMPORARY").
  { intros low. unfold category_of.
    destruct (low =? 0), (low =? 1), (low =? 2); split; discriminate. }
  destruct (Hc (Z.land stype_value 3)) as [Hs Ht].
  change 0x80000000 with (2 ^ 31). change 0x40000000 with (2 ^ 30).
  rewrite !land_pow2 by lia.
  rewrite STYPE_MASK_unfold.
  destruct (Z.testbit stype_value 31), (Z.testbit stype_value 30); simpl;
    rewrite ?elem_of_cons, ?elem_of_nil; repeat split; intros H;
    try discriminate; try lia; auto;
    repeat (destruct H as [H|H]); try discriminate; try contradiction;
    try (symmetry in H; contradiction).
Qed.

(** C2: the decoded flags contain exactly one category flag, the one the
    low two bits of the value select. *)
Theorem STYPE_MASK_one_category (stype_value : Z) :
  0 <= Z.land stype_value 3 < 4
  /\ Z.land stype_value 3 = stype_value mod 4
  /\ filter (.∈ category_flags) (STYPE_MASK stype_value)
     = [category_of (Z.land stype_value 3)]
  /\ category_flags !! Z.to_nat (Z.land stype_value 3)
     = Some (category_of (Z.land stype_value 3)).
Proof.
  pose proof (low2_range stype_value) as Hr.
  split; [exact Hr|]. split.
  { change 3 with (Z.ones 2). now rewrite Z.land_ones by lia. }
  rewrite STYPE_MASK_unfold.
  assert (Z.land stype_value 3 = 0 \/ Z.land stype_value 3 = 1
          \/ Z.land stype_value 3 = 2 \/ Z.land stype_value 3 = 3)
    as [E|[E|[E|E]]] by lia;
    rewrite E;
    destruct (Z.testbit stype_value 31), (Z.testbit stype_value 30);
    split; reflexivity.
Qed.

(** ** Paged directory search *)

Lemma record_entry_attrs (e : entry) :
  {| dNSHostName := dNSHostName (attrs e);
     sAMAccountName := sAMAccountName (attrs e) |} = attrs e.
Proof. now destruct (attrs e). Qed.

Lemma record_entry_lookup (results : gmap string attributes) e k :
  record_entry results e !! k =
    if decide (type e = "searchResEntry" /\ dn e = k) then Some (attrs e)
    else results !! k.
Proof.
  unfold record_entry. rewrite record_entry_attrs.
  destruct (decide (type e <> "searchResEntry")) as [Hn|Hy].
  - rewrite decide_False; [reflexivity|]. intros [? _]. contradiction.
  - apply dec_stable in Hy. rewrite lookup_insert.
    destruct (decide (dn e = k)) as [->|Hne].
    + now rewrite decide_True.
    + rewrite decide_False; [reflexivity|]. intros [_ ?]. contradiction.
Qed.

Lemma record_entries_snoc (results : gmap string attributes) es e :
  record_entries results (es ++ [e]) = record_entry (record_entries results es) e.
Proof. unfold record_entries. now rewrite foldl_app. Qed.

Lemma record_entries_sound (results : gmap string attributes) es k a :
  record_entries results es !! k = Some a ->
  results !! k = Some a
  \/ exists e, e ∈ es /\ type e = "searchResEntry" /\ dn e = k /\ attrs e = a.
Proof.
  induction es as [|e es IH] using rev_ind; [now left|].
  rewrite record_entries_snoc, record_entry_lookup.
  destruct (decide _) as [[Ht Hd]|_].
  - intros [= <-]. right. exists e. rewrite elem_of_app, list_elem_of_singleton.
    auto.
  - intros H. destruct (IH H) as [?|(e' & ? & ?)]; [now left|].
    right. exists e'. rewrite elem_of_app. tauto.
Qed.

Lemma record_entries_complete (results : gmap string attributes) es k a :
  (forall e, e ∈ es -> type e = "searchResEntry" -> dn e = k -> attrs e = a) ->
  (results !! k = Some a
   \/ exists e, e ∈ es /\ type e = "searchResEntry" /\ dn e = k) ->
  record_entries results es !! k = Some a.
Proof.
  induction es as [|e es IH] using rev_ind.
  - intros _ [H|(e & He & _)]; [exact H|]. now apply elem_of_nil in He.
  - intros Hall Hsrc. rewrite record_entries_snoc, record_entry_lookup.
    destruct (decide _) as [[Ht Hd]|Hno].
    + f_equal. apply Hall; auto. rewrite elem_of_app, list_elem_of_singleton. auto.
    + apply IH.
      * intros e' He'. apply Hall. rewrite elem_of_app. auto.
      * destruct Hsrc as [H|(e' & He' & Ht & Hd)]; [now left|].
        rewrite elem_of_app, list_elem_of_singleton in He'.
        destruct He' as [He'| ->]; [right; eauto|]. tauto.
Qed.

Lemma record_entries_key (results : gmap string attributes) es e :
  e ∈ es -> type e = "searchResEntry" ->
  is_Some (record_entries results es !! dn e).
Proof.
  induction es as [|e' es IH] using rev_ind.
  - intros He. now apply elem_of_nil in He.
  - intros He Ht. rewrite record_entries_snoc, record_entry_lookup.
    destruct (decide _) as [_|Hno]; [eauto|].
    rewrite elem_of_app, list_elem_of_singleton in He.
    destruct He as [He| ->]; [auto|tauto].
Qed.

Lemma continues_next_paging p paged_cookie :
  continues p = true ->
  next_paging p paged_cookie = (true, page_cookie p).
Proof.
  unfold continues, next_paging, page_cookie.
  destruct (controls p) as [cs|]; [|discriminate].
  destruct (cs !! LDAP_PAGED_RESULT_OID_STRING) as [c|]; [|discriminate].
  now destruct (String.length c =? 0)%nat.
Qed.

Lemma stops_next_paging p paged_cookie :
  continues p = false ->
  next_paging p paged_cookie = (false, paged_cookie).
Proof.
  unfold continues, next_paging, page_cookie.
  destruct (controls p) as [cs|]; [|reflexivity].
  destruct (cs !! LDAP_PAGED_RESULT_OID_STRING) as [c|]; [|reflexivity].
  now destruct (String.length c =? 0)%nat.
Qed.

Lemma paged_search_well_paged pages : forall expected results,
  well_paged pages = true ->
  paged_search pages expected expected results
  = Ok (record_entries results (concat (response <$> pages))).
Proof.
  induction pages as [|p rest IH]; intros expected results Hw; [discriminate|].
  cbn [paged_search]. rewrite decide_True by reflexivity.
  destruct rest as [|q rest].
  - cbn in Hw. apply negb_true_iff in Hw.
    rewrite (stops_next_paging _ _ Hw). cbn. now rewrite app_nil_r.
  - change (well_paged (p :: q :: rest))
      with (continues p && well_paged (q :: rest))%bool in Hw.
    apply andb_true_iff in Hw as [Hc Hw].
    rewrite (continues_next_paging _ _ Hc). rewrite IH by exact Hw.
    f_equal. rewrite fmap_cons with (x := p). cbn [concat].
    unfold record_entries. now rewrite foldl_app.
Qed.

Lemma NoDup_fmap_inj_on {A B} (f : A -> B) (l : list A) x y :
  NoDup (f <$> l) -> x ∈ l -> y ∈ l -> f x = f y -> x = y.
Proof.
  induction l as [|z l IH]; intros Hnd Hx Hy Hf.
  - now apply elem_of_nil in Hx.
  - rewrite fmap_cons in Hnd. apply NoDup_cons in Hnd as [Hz Hnd].
    apply elem_of_cons in Hx as [->|Hx]; apply elem_of_cons in Hy as [->|Hy];
      auto.
    + exfalso. apply Hz. rewrite Hf. now apply list_elem_of_fmap_2.
    + exfalso. apply Hz. rewrite <- Hf. now apply list_elem_of_fmap_2.
Qed.

(** C3: on a paged answer (every page but the last hands out a non-empty
    cookie, the last one an empty cookie or no paging control) the
    enumerator returns, and its result holds exactly the computer entries
    of all pages, keyed by distinguished name: nothing spurious, no
    distinguished name dropped, and each entry once. *)
Theorem get_domain_computers_paged (pages : list page) :
  well_paged pages = true ->
  exists results : gmap string attributes,
    get_domain_computers pages = Ok results
    /\ (forall k a, results !! k = Some a ->
          exists e, e ∈ computer_entries pages /\ dn e = k /\ attrs e = a)
    /\ (forall e, e ∈ computer_entries pages -> is_Some (results !! dn e))
    /\ (forall e, e ∈ computer_entries pages ->
          (forall e', e' ∈ computer_entries pages -> dn e' = dn e ->
                      attrs e' = attrs e) ->
          results !! dn e = Some (attrs e))
    /\ (NoDup (dn <$> computer_entries pages) ->
          map_to_list results
          ≡ₚ (fun e => (dn e, attrs e)) <$> computer_entries pages).
Proof.
  intros Hw. eexists. split.
  { unfold get_domain_computers. now apply paged_search_well_paged. }
  set (es := concat (response <$> pages)).
  assert (Hce : forall e, e ∈ computer_entries pages
                          <-> type e = "searchResEntry" /\ e ∈ es).
  { intros e. unfold computer_entries. now rewrite list_elem_of_filter. }
  assert (Hsound : forall k a, record_entries ∅ es !! k = Some a ->
            exists e, e ∈ computer_entries pages /\ dn e = k /\ attrs e = a).
  { intros k a H. apply record_entries_sound in H as [H|(e & He & Ht & Hd & Ha)].
    - now rewrite lookup_empty in H.
    - exists e. rewrite Hce. auto. }
  assert (Hcons : forall e, e ∈ computer_entries pages ->
            (forall e', e' ∈ computer_entries pages -> dn e' = dn e ->
                        attrs e' = attrs e) ->
            record_entries ∅ es !! dn e = Some (attrs e)).
  { intros e He Hsame. apply Hce in He as [Ht He].
    apply record_entries_complete.
    - intros e' He' Ht' Hd. apply Hsame; [|exact Hd]. apply Hce. auto.
    - right. eauto. }
  split; [exact Hsound|]. split.
  { intros e He. apply Hce in He as [Ht He]. now apply record_entries_key. }
  split; [exact Hcons|].
  intros Hnd. apply NoDup_Permutation.
  - apply NoDup_map_to_list.
  - apply (NoDup_fmap_1 fst). rewrite <- list_fmap_compose. exact Hnd.
  - intros [k a]. rewrite elem_of_map_to_list, list_elem_of_fmap. split.
    + intros H. apply Hsound in H as (e & He & <- & <-). eauto.
    + intros (e & [= -> ->] & He). apply Hcons; [exact He|].
      intros e' He' Hd. f_equal.
      now apply (NoDup_fmap_inj_on dn (computer_entries pages)).
Qed.

(** ** Strings *)

Lemma string_length_app (s1 s2 : string) :
  String.length (s1 +:+ s2) = (String.length s1 + String.length s2)%nat.
Proof. induction s1 as [|c s1 IH]; simpl; [reflexivity|]. now rewrite IH. Qed.

Lemma substring_all (s : string) : substring 0 (String.length s) s = s.
Proof. induction s as [|c s IH]; simpl; [reflexivity|]. now rewrite IH. Qed.

Lemma substring_app_l (s1 s2 : string) :
  substring 0 (String.length s1) (s1 +:+ s2) = s1.
Proof.
  induction s1 as [|c s1 IH]; simpl.
  - now destruct s2.
  - now rewrite IH.
Qed.

Lemma substring_app_r (s1 s2 : string) :
  substring (String.length s1) (String.length s2) (s1 +:+ s2) = s2.
Proof. induction s1 as [|c s1 IH]; simpl; [apply substring_all|exact IH]. Qed.

Lemma substring_split (s : string) (n : nat) :
  (n <= String.length s)%nat ->
  s = substring 0 n s +:+ substring n (String.length s - n) s.
Proof.
  revert n. induction s as [|c s IH]; intros [|n] Hn; simpl in *;
    try reflexivity; try lia.
  - now rewrite substring_all.
  - rewrite (IH n) at 1 by lia. reflexivity.
Qed.

Lemma endswith_spec (s suffix : string) :
  endswith s suffix = true <-> exists prefix, s = prefix +:+ suffix.
Proof.
  unfold endswith. rewrite andb_true_iff, Nat.leb_le, String.eqb_eq. split.
  - intros [Hle Hsub].
    exists (substring 0 (String.length s - String.length suffix) s).
    rewrite (substring_split s (String.length s - String.length suffix))
      at 1 by lia.
    f_equal. rewrite <- Hsub at 3. f_equal. lia.
  - intros [prefix ->]. rewrite string_length_app. split; [lia|].
    replace (String.length prefix + String.length suffix
             - String.length suffix)%nat
      with (String.length prefix) by lia.
    apply substring_app_r.
Qed.

Lemma all_but_last_empty : all_but_last "" = "".
Proof. reflexivity. Qed.

Lemma all_but_last_snoc (s : string) (c : ascii) :
  all_but_last (s +:+ String c "") = s.
Proof.
  unfold all_but_last. rewrite string_length_app. simpl.
  replace (String.length s + 1 - 1)%nat with (String.length s) by lia.
  apply substring_app_l.
Qed.

(** C9: the recorded name and comment are the strings of the server without
    their last character; an empty string stays empty, and a string
    [s ++ [c]] is recorded as [s], whatever the character [c] is. *)
Theorem recorded_strings_lose_last_character
    (o : options) (target_name target_ip address : string) (sh : SHARE_INFO_1) :
  (exists r lines,
     share_actions o target_name target_ip address sh
     = [Append target_name r; Output lines]
     /\ name (share r) = all_but_last (shi1_netname sh)
     /\ comment (share r) = all_but_last (shi1_remark sh))
  /\ all_but_last "" = ""
  /\ (forall s c, all_but_last (s +:+ String c "") = s)
  /\ (forall s, String.length (all_but_last s) = (String.length s - 1)%nat).
Proof.
  split; [eexists _, _; repeat split|].
  split; [reflexivity|]. split; [exact all_but_last_snoc|].
  intros s. destruct s as [|c s]; [reflexivity|].
  assert (H : forall t : string, t <> "" ->
            exists t' c', t = t' +:+ String c' "").
  { induction t as [|a t IH]; [congruence|]. intros _.
    destruct t as [|b t].
    - exists "", a. reflexivity.
    - destruct IH as (t' & c' & E); [discriminate|].
      exists (String a t'), c'. rewrite E. reflexivity. }
  destruct (H (String c s)) as (t' & c' & ->); [discriminate|].
  rewrite all_but_last_snoc, string_length_app. simpl. lia.
Qed.

(** ** Dictionaries *)

Section dict.
Context {V : Type}.
Implicit Types (d : dict V) (k : string) (v : V).

Lemma dict_get_None d k : dict_get d k = None <-> k ∉ dict_keys d.
Proof.
  induction d as [|[k' v'] d IH]; simpl.
  - split; [intros _; apply not_elem_of_nil|reflexivity].
  - rewrite not_elem_of_cons. destruct (decide (k' = k)) as [->|Hne].
    + split; [discriminate|]. intros [? _]. congruence.
    + rewrite IH. split; [intros ?; split; congruence|tauto].
Qed.

Lemma dict_get_app d1 d2 k :
  k ∉ dict_keys d1 -> dict_get (d1 ++ d2) k = dict_get d2 k.
Proof.
  induction d1 as [|[k' v'] d1 IH]; simpl; [reflexivity|].
  rewrite not_elem_of_cons. intros [Hne Hk].
  rewrite decide_False by congruence. auto.
Qed.

Lemma dict_set_app d1 d2 k v :
  k ∉ dict_keys d1 -> dict_set (d1 ++ d2) k v = d1 ++ dict_set d2 k v.
Proof.
  induction d1 as [|[k' v'] d1 IH]; simpl; [reflexivity|].
  rewrite not_elem_of_cons. intros [Hne Hk].
  rewrite decide_False by congruence. now rewrite IH.
Qed.

Lemma dict_get_Some d k v :
  dict_get d k = Some v ->
  exists d1 d2, d = d1 ++ (k, v) :: d2 /\ k ∉ dict_keys d1.
Proof.
  induction d as [|[k' v'] d IH]; simpl; [discriminate|].
  destruct (decide (k' = k)) as [->|Hne].
  - intros [= ->]. exists [], d. split; [reflexivity|apply not_elem_of_nil].
  - intros H. destruct (IH H) as (d1 & d2 & -> & Hk).
    exists ((k', v') :: d1), d2. split; [reflexivity|].
    simpl. rewrite not_elem_of_cons. split; congruence.
Qed.

Lemma dict_get_item d k v :
  NoDup (dict_keys d) -> (k, v) ∈ d -> dict_get d k = Some v.
Proof.
  induction d as [|[k' v'] d IH]; simpl.
  - intros _ H. now apply elem_of_nil in H.
  - rewrite NoDup_cons, elem_of_cons. intros [Hk' Hnd] [[= <- <-]|Hin].
    + now rewrite decide_True.
    + rewrite decide_False; [auto|]. intros ->. apply Hk'.
      unfold dict_keys. apply list_elem_of_fmap. now exists (k, v).
Qed.

Lemma dict_set_absent d k v :
  k ∉ dict_keys d -> dict_set d k v = d ++ [(k, v)].
Proof.
  intros Hk. rewrite <- (app_nil_r d) at 1. now rewrite dict_set_app.
Qed.

Lemma dict_get_snoc d k v :
  k ∉ dict_keys d -> dict_get (d ++ [(k, v)]) k = Some v.
Proof.
  intros Hk. rewrite dict_get_app by exact Hk. simpl.
  now rewrite decide_True.
Qed.

Lemma dict_set_snoc d k v v' :
  k ∉ dict_keys d -> dict_set (d ++ [(k, v)]) k v' = d ++ [(k, v')].
Proof.
  intros Hk. rewrite dict_set_app by exact Hk. simpl.
  now rewrite decide_True.
Qed.

Lemma dict_keys_set d k v :
  NoDup (dict_keys d) -> NoDup (dict_keys (dict_set d k v)).
Proof.
  destruct (dict_get d k) as [v0|] eqn:E.
  - destruct (dict_get_Some _ _ _ E) as (d1 & d2 & -> & Hk).
    rewrite dict_set_app by exact Hk. simpl. rewrite decide_True by reflexivity.
    unfold dict_keys. now rewrite !fmap_app, !fmap_cons.
  - apply dict_get_None in E.
    rewrite dict_set_absent by exact E. unfold dict_keys in *.
    rewrite fmap_app. simpl. intros Hnd.
    apply NoDup_app. split; [exact Hnd|]. split.
    + intros x Hx. rewrite list_elem_of_singleton. congruence.
    + apply NoDup_singleton.
Qed.
End dict.

(** ** Recording a share *)

Lemma filed_app (d1 d2 : dict (list share_record)) :
  filed (d1 ++ d2) = filed d1 ++ filed d2.
Proof. unfold filed. now rewrite fmap_app, concat_app. Qed.

Lemma filed_cons (d : dict (list share_record)) k l :
  filed ((k, l) :: d) = (pair k <$> l) ++ filed d.
Proof. reflexivity. Qed.

Lemma record_share_cases (d : dict (list share_record)) t r :
  (exists d1 l d2, d = d1 ++ (t, l) :: d2
                   /\ record_share d t r = d1 ++ (t, l ++ [r]) :: d2)
  \/ ((t ∉ dict_keys d) /\ record_share d t r = d ++ [(t, [r])]).
Proof.
  unfold record_share, append.
  destruct (decide (t ∈ dict_keys d)) as [Hin|Hout].
  - left. rewrite bool_decide_eq_true_2 by exact Hin. simpl.
    destruct (dict_get d t) as [l|] eqn:E;
      [|apply dict_get_None in E; contradiction].
    destruct (dict_get_Some _ _ _ E) as (d1 & d2 & -> & Hk).
    exists d1, l, d2. split; [reflexivity|].
    rewrite dict_set_app by exact Hk. simpl. now rewrite decide_True.
  - right. split; [exact Hout|].
    rewrite bool_decide_eq_false_2 by exact Hout. simpl.
    rewrite dict_set_absent by exact Hout.
    rewrite dict_get_snoc by exact Hout.
    now rewrite dict_set_snoc.
Qed.

Lemma record_share_filed (d : dict (list share_record)) t r :
  filed (record_share d t r) ≡ₚ filed d ++ [(t, r)].
Proof.
  destruct (record_share_cases d t r)
    as [(d1 & l & d2 & -> & ->)|(_ & ->)].
  - rewrite !filed_app, !filed_cons, fmap_app. simpl. rewrite <- !app_assoc.
    apply Permutation_app_head. apply Permutation_app_head.
    simpl. apply Permutation_cons_append.
  - rewrite filed_app, filed_cons. reflexivity.
Qed.

Lemma record_share_keys (d : dict (list share_record)) t r :
  NoDup (dict_keys d) -> NoDup (dict_keys (record_share d t r)).
Proof.
  intros Hnd. unfold record_share.
  set (d' := if negb _ then _ else _).
  assert (Hd' : NoDup (dict_keys d')).
  { subst d'. destruct (negb _); [now apply dict_keys_set|exact Hnd]. }
  destruct (dict_get d' t); [now apply dict_keys_set|exact Hd'].
Qed.

Lemma records_of_filed (d : dict (list share_record)) :
  NoDup (dict_keys d) -> records_of d = snd <$> filed d.
Proof.
  intros Hnd. unfold records_of, dict_keys.
  rewrite <- list_fmap_compose.
  assert (H : forall d0 : dict (list share_record),
            (forall k l, (k, l) ∈ d0 -> (k, l) ∈ d) ->
            concat ((fun x => default [] (dict_get d (fst x))) <$> d0)
            = snd <$> filed d0).
  { induction d0 as [|[k l] d0 IH]; intros Hsub; [reflexivity|].
    unfold filed. rewrite !fmap_cons. simpl. rewrite fmap_app. f_equal.
    - rewrite (dict_get_item d k l Hnd) by (apply Hsub; left). simpl.
      rewrite <- list_fmap_compose. symmetry. apply list_fmap_id.
    - apply IH. intros k' l' Hin. apply Hsub. now right. }
  apply H. auto.
Qed.

(** ** The thread pool *)

Lemma do_action_filed (st : shared) (a : action) :
  filed (results (do_action st a)) ≡ₚ filed (results st) ++ appended [a].
Proof.
  destruct a as [t r|lines]; simpl.
  - apply record_share_filed.
  - now rewrite app_nil_r.
Qed.

Lemma do_action_keys (st : shared) (a : action) :
  NoDup (dict_keys (results st)) -> NoDup (dict_keys (results (do_action st a))).
Proof. destruct a; simpl; [apply record_share_keys|auto]. Qed.

Lemma appended_app (acts1 acts2 : list action) :
  appended (acts1 ++ acts2) = appended acts1 ++ appended acts2.
Proof. apply omap_app. Qed.

Lemma appended_cons (a : action) (acts : list action) :
  appended (a :: acts) = appended [a] ++ appended acts.
Proof. now destruct a. Qed.

Lemma do_actions_filed (acts : list action) : forall st : shared,
  filed (results (foldl do_action st acts))
  ≡ₚ filed (results st) ++ appended acts.
Proof.
  induction acts as [|a acts IH]; intros st; cbn [foldl].
  - simpl. now rewrite app_nil_r.
  - rewrite IH, do_action_filed, (appended_cons a acts).
    now rewrite app_assoc.
Qed.

Lemma do_actions_keys (acts : list action) : forall st : shared,
  NoDup (dict_keys (results st)) ->
  NoDup (dict_keys (results (foldl do_action st acts))).
Proof.
  induction acts as [|a acts IH]; intros st Hnd; simpl; [exact Hnd|].
  apply IH. now apply do_action_keys.
Qed.

Lemma next_action_split (tasks tasks' : list (list action)) i a :
  next_action tasks i = Some (a, tasks') ->
  exists before rest after,
    tasks = before ++ (a :: rest) :: after
    /\ tasks' = before ++ rest :: after.
Proof.
  unfold next_action. destruct (tasks !! i) as [[|a' rest]|] eqn:E;
    try discriminate.
  intros [= -> <-].
  apply list_elem_of_split_length in E as (before & after & -> & ->).
  exists before, rest, after. split; [reflexivity|].
  rewrite insert_app_r_alt by lia. now rewrite Nat.sub_diag.
Qed.

Lemma next_action_appended (tasks tasks' : list (list action)) i a :
  next_action tasks i = Some (a, tasks') ->
  appended (concat tasks) ≡ₚ appended [a] ++ appended (concat tasks').
Proof.
  intros H. apply next_action_split in H as (before & rest & after & -> & ->).
  rewrite !concat_app, !concat_cons, !appended_app.
  rewrite (appended_cons a rest), <- !app_assoc.
  apply Permutation_app_swap_app.
Qed.

Lemma run_pool_filed (sched : list nat) :
  forall (tasks : list (list action)) (st : shared),
    filed (results (run_pool sched tasks st))
    ≡ₚ filed (results st) ++ appended (concat tasks).
Proof.
  induction sched as [|i sched IH]; intros tasks st; simpl.
  - apply do_actions_filed.
  - destruct (next_action tasks i) as [[a tasks']|] eqn:E; [|apply IH].
    rewrite IH, do_action_filed, (next_action_appended _ _ _ _ E).
    now rewrite app_assoc.
Qed.

Lemma run_pool_keys (sched : list nat) :
  forall (tasks : list (list action)) (st : shared),
    NoDup (dict_keys (results st)) ->
    NoDup (dict_keys (results (run_pool sched tasks st))).
Proof.
  induction sched as [|i sched IH]; intros tasks st Hnd; simpl.
  - now apply do_actions_keys.
  - destruct (next_action tasks i) as [[a tasks']|]; [|now apply IH].
    apply IH. now apply do_action_keys.
Qed.

(** ** The exporters *)

Lemma foldl_nested {A B C} (g : A -> B -> A) (f : C -> list B) (ks : list C) :
  forall st, foldl (fun st k => foldl g st (f k)) st ks
             = foldl g st (concat (f <$> ks)).
Proof.
  induction ks as [|k ks IH]; intros st; [reflexivity|].
  rewrite fmap_cons. simpl. now rewrite foldl_app, IH.
Qed.

Lemma filed_elem (d : dict (list share_record)) k r :
  (k, r) ∈ filed d <-> exists l, (k, l) ∈ d /\ r ∈ l.
Proof.
  induction d as [|[k' l'] d IH].
  - split; [intros H; now apply elem_of_nil in H|].
    intros (l & H & _). now apply elem_of_nil in H.
  - rewrite filed_cons, elem_of_app, IH, list_elem_of_fmap. split.
    + intros [(r' & [= -> ->] & Hr)|(l & Hl & Hr)].
      * exists l'. split; [left|exact Hr].
      * exists l. split; [now right|exact Hr].
    + intros (l & Hl & Hr). apply elem_of_cons in Hl as [[= -> ->]|Hl].
      * left. eauto.
      * right. eauto.
Qed.


Lemma export_sqlite_rows_eq (rows : list sqlite_row)
    (d : dict (list share_record)) :
  export_sqlite_rows rows d = rows ++ (row_values <$> records_of d).
Proof.
  unfold export_sqlite_rows, records_of.
  rewrite (foldl_nested (fun rows r => rows ++ [row_values r])
             (fun k => default [] (dict_get d k))).
  generalize (concat ((fun k => default [] (dict_get d k)) <$> dict_keys d)).
  intros recs. revert rows.
  induction recs as [|r recs IH]; intros rows; simpl.
  - now rewrite app_nil_r.
  - rewrite IH. now rewrite <- app_assoc.
Qed.

Lemma write_row_table (data : list token) : forall ws row col r c,
  table (write_row ws row col data) !! (r, c)
  = if decide (r = row /\ (col <= c < col + length data)%nat)
    then match data !! (c - col)%nat ≫= written with
         | Some x => Some x
         | None => table ws !! (r, c)
         end
    else table ws !! (r, c).
Proof.
  induction data as [|t data IH]; intros ws row col r c; simpl.
  - case_decide; [lia|reflexivity].
  - rewrite IH.
    assert (Hw : table (write ws row col t) !! (r, c)
                 = if decide (r = row /\ c = col)
                   then match written t with
                        | Some x => Some x
                        | None => table ws !! (r, c)
                        end
                   else table ws !! (r, c)).
    { unfold write. destruct (written t) as [x|]; simpl.
      - case_decide as E.
        + destruct E as [-> ->]. apply lookup_insert_eq.
        + apply lookup_insert_ne. intros [= -> ->]. tauto.
      - now case_decide. }
    rewrite Hw.
    destruct (decide (r = row /\ c = col)) as [[-> ->]|Hne].
    + repeat case_decide; try lia. rewrite Nat.sub_diag. reflexivity.
    + repeat case_decide; try lia; try reflexivity.
      replace (c - col)%nat with (S (c - S col)) by lia. reflexivity.
Qed.

(** The body of the inner loop of the spreadsheet export. *)
Lemma write_shares_eq (d : dict (list share_record)) (st : worksheet * nat) :
  write_shares d st
  = foldl (fun '(ws, row_id) r =>
             (write_row ws row_id 0 (row_data r), S row_id))
          st (records_of d).
Proof.
  unfold write_shares, records_of.
  apply (foldl_nested
           (fun '(ws, row_id) r =>
              (write_row ws row_id 0 (row_data r), S row_id))
           (fun k => default [] (dict_get d k))).
Qed.

Lemma write_records_table (recs : list share_record) : forall ws n,
  (forall r c, (n <= r)%nat -> table ws !! (r, c) = None) ->
  let st := foldl (fun '(ws, row_id) r =>
                     (write_row ws row_id 0 (row_data r), S row_id))
                  (ws, n) recs in
  snd st = (n + length recs)%nat
  /\ forall r c,
       table (fst st) !! (r, c)
       = if decide ((n <= r < n + length recs)%nat /\ (c < 5)%nat)
         then recs !! (r - n)%nat ≫= (fun x => row_data x !! c ≫= written)
         else table ws !! (r, c).
Proof.
  induction recs as [|x recs IH]; intros ws n Hfree; cbn [foldl length].
  - simpl. split; [lia|]. intros r c. case_decide; [lia|reflexivity].
  - destruct (IH (write_row ws n 0 (row_data x)) (S n)) as [Hn Ht].
    { intros r c Hr. rewrite write_row_table.
      case_decide; [lia|]. apply Hfree. lia. }
    split; [rewrite Hn; lia|]. intros r c. rewrite Ht, write_row_table.
    change (length (row_data x)) with 5%nat.
    repeat case_decide; try lia; try reflexivity.
    + replace (r - n)%nat with (S (r - S n)) by lia. reflexivity.
    + replace (r - n)%nat with 0%nat by lia. rewrite Nat.sub_0_r.
      cbn [lookup list_lookup mbind option_bind].
      rewrite Hfree by lia.
      now destruct (row_data x !! c ≫= written).
Qed.

Lemma written_header (c : nat) :
  (Str <$> header_fields) !! c ≫= written = Text <$> header_fields !! c.
Proof. do 5 (destruct c as [|c]; [reflexivity|]). reflexivity. Qed.

Lemma export_xlsx_sheet_eq (d : dict (list share_record)) :
  let ws := export_xlsx_sheet d in
  (forall c, table ws !! (0%nat, c) = Text <$> header_fields !! c)
  /\ (forall i c, table ws !! (S i, c)
                  = records_of d !! i
                    ≫= (fun r => row_data r !! c ≫= written))
  /\ filter_range ws = Some (0, 0, S (length (records_of d)), 4)%nat.
Proof.
  unfold export_xlsx_sheet. rewrite write_shares_eq.
  set (ws0 := write_row _ 0 0 (Str <$> header_fields)).
  assert (H0 : forall r c, table ws0 !! (r, c)
                 = if decide (r = 0%nat /\ (c < 5)%nat)
                   then Text <$> header_fields !! c else None).
  { intros r c. subst ws0. rewrite write_row_table.
    change (length (Str <$> header_fields)) with 5%nat.
    repeat case_decide; try lia; try reflexivity.
    rewrite Nat.sub_0_r, written_header.
    now destruct (Text <$> header_fields !! c). }
  destruct (write_records_table (records_of d) ws0 1) as [Hn Ht].
  { intros r c Hr. rewrite H0. case_decide; [lia|reflexivity]. }
  destruct (foldl _ (ws0, 1%nat) (records_of d)) as [ws row_id].
  simpl in Hn, Ht. subst row_id. simpl.
  split; [|split; [|reflexivity]].
  - intros c. rewrite Ht, H0.
    repeat case_decide; try lia; try reflexivity.
    rewrite lookup_ge_None_2; [reflexivity|]. simpl. lia.
  - intros i c. rewrite Ht, H0. replace (S i - 1)%nat with i by lia.
    repeat case_decide; try lia; try reflexivity.
    destruct (records_of d !! i) as [x|] eqn:E; [|reflexivity].
    apply lookup_lt_Some in E. simpl.
    destruct (decide (c < 5)%nat); [lia|].
    rewrite lookup_ge_None_2; [reflexivity|]. simpl. lia.
Qed.

(** C7: the spreadsheet has the header row and one data row for each
    record, in order, with the cells [write] makes of the five values of the
    record (none for an empty string; the cell of the boolean is always
    there); the autofilter also covers the row after the last one written,
    which is empty. *)
Theorem export_xlsx_autofilter_one_row_too_far
    (results : dict (list share_record)) :
  let ws := export_xlsx_sheet results in
  let n := length (records_of results) in
  (forall c, table ws !! (0%nat, c) = Text <$> header_fields !! c)
  /\ (forall i c, table ws !! (S i, c)
                  = records_of results !! i
                    ≫= (fun r => row_data r !! c ≫= written))
  /\ (forall i, (i < n)%nat -> is_Some (table ws !! (S i, 4%nat)))
  /\ (forall row c, (n < row)%nat -> table ws !! (row, c) = None)
  /\ filter_range ws = Some (0, 0, S n, 4)%nat
  /\ filter_range ws <> Some (0, 0, n, 4)%nat.
Proof.
  destruct (export_xlsx_sheet_eq results) as (Hh & Hd & Hf).
  cbv zeta. split; [exact Hh|]. split; [exact Hd|]. split; [|split].
  - intros i Hi. rewrite Hd.
    destruct (lookup_lt_is_Some_2 (records_of results) i Hi) as [r ->].
    simpl. eauto.
  - intros [|i] c Hrow; [lia|]. rewrite Hd, lookup_ge_None_2; [reflexivity|lia].
  - rewrite Hf. split; [reflexivity|]. intros [= H]. lia.
Qed.

(** ** Shares of a probed host *)


Lemma print_all_printed (err : nat -> string -> option string)
    (lines : list string) : forall n,
  (forall m line, line ∈ lines -> err m line = None) ->
  print_all err n lines = (lines, None).
Proof.
  induction lines as [|line lines IH]; intros n H; [reflexivity|].
  cbn [print_all]. rewrite H by left.
  rewrite IH; [reflexivity|]. intros m l Hl. apply H. now right.
Qed.

Lemma attempt_silent p (acts : list action) : forall n,
  Forall (fun a => silent a = a) acts -> attempt p n acts = (acts, None).
Proof.
  induction acts as [|a acts IH]; intros n H; [reflexivity|].
  apply Forall_cons in H as [Ha H]. cbn [attempt].
  destruct a as [t r|lines].
  - now rewrite IH.
  - injection Ha as <-. cbn [print_all length]. now rewrite IH.
Qed.

Lemma attempt_well p (acts : list action) : forall n,
  (forall m line, print_error p m line = None) ->
  attempt p n acts = (acts, None).
Proof.
  induction acts as [|a acts IH]; intros n H; [reflexivity|].
  cbn [attempt]. destruct a as [t r|lines].
  - now rewrite IH.
  - rewrite print_all_printed by (intros; apply H). now rewrite IH.
Qed.

(** The insertions of the loop are those of the shares it reaches. *)
Lemma attempt_shares o t ip address p (resp : list SHARE_INFO_1) : forall n,
  appended (fst (attempt p n (concat (share_actions o t ip address <$> resp))))
  = (fun sh => (t, make_record t ip (all_but_last (shi1_netname sh))
                     (all_but_last (shi1_remark sh)) (shi1_type sh)))
      <$> reached o address p n resp.
Proof.
  induction resp as [|sh resp IH]; intros n; [reflexivity|].
  rewrite fmap_cons, concat_cons.
  change (share_actions o t ip address sh)
    with [Append t (make_record t ip (all_but_last (shi1_netname sh))
                      (all_but_last (shi1_remark sh)) (shi1_type sh));
          Output (share_lines o address sh)].
  cbn [app attempt reached].
  destruct (print_all (print_error p) n (share_lines o address sh))
    as [printed [e|]]; cbn [snd].
  - reflexivity.
  - specialize (IH (n + length (share_lines o address sh))%nat).
    destruct (attempt p _ _) as [done e']. cbn [fst] in *.
    rewrite fmap_cons, <- IH. reflexivity.
Qed.

Lemma worker_appended_cases o t address p :
  appended (fst (worker o t address p))
  = match dns_lookup p with
    | Ok (ip :: _) =>
        match (_ ← init_smb_session o p; listShares p) with
        | Ok resp =>
            (fun sh => (t, make_record t ip (all_but_last (shi1_netname sh))
                             (all_but_last (shi1_remark sh)) (shi1_type sh)))
              <$> reached o address p 0 resp
        | Raise _ => []
        end
    | _ => []
    end.
Proof.
  unfold worker.
  destruct (dns_lookup p) as [[|ip ips]|e]; try reflexivity.
  destruct (_ ← init_smb_session o p; listShares p) as [resp|e].
  - rewrite <- (attempt_shares o t ip address p resp 0).
    destruct (attempt p 0 _) as [done [e|]]; cbn [fst]; [|reflexivity].
    destruct (debug o); [|reflexivity].
    destruct (print_error p (prints done) e); [reflexivity|].
    cbn [fst]. rewrite appended_app. apply app_nil_r.
  - destruct (debug o); [|reflexivity].
    now destruct (print_error p (prints []) e).
Qed.

(** When every line is printed the worker does the whole loop. *)
Lemma worker_well o t address p :
  (forall m line, print_error p m line = None) ->
  fst (worker o t address p)
  = match dns_lookup p with
    | Ok (ip :: _) =>
        match (_ ← init_smb_session o p; listShares p) with
        | Ok resp => concat (share_actions o t ip address <$> resp)
        | Raise e => if debug o then [Output [e]] else []
        end
    | _ => []
    end.
Proof.
  intros H. unfold worker.
  destruct (dns_lookup p) as [[|ip ips]|e]; try reflexivity.
  destruct (_ ← init_smb_session o p; listShares p) as [resp|e].
  - now rewrite attempt_well by exact H.
  - destruct (debug o); [|reflexivity]. now rewrite H.
Qed.


Lemma reached_well o address p (resp : list SHARE_INFO_1) : forall n,
  (forall m line, print_error p m line = None) ->
  reached o address p n resp = resp.
Proof.
  induction resp as [|sh resp IH]; intros n H; [reflexivity|].
  cbn [reached]. rewrite print_all_printed by (intros; apply H).
  cbn [snd]. now rewrite IH.
Qed.







Lemma appended_concat (tasks : list (list action)) x :
  x ∈ appended (concat tasks) -> exists task, task ∈ tasks /\ x ∈ appended task.
Proof.
  induction tasks as [|t tasks IH]; intros Hx.
  - now apply elem_of_nil in Hx.
  - rewrite concat_cons, appended_app, elem_of_app in Hx.
    destruct Hx as [Hx|Hx].
    + exists t. split; [left|exact Hx].
    + destruct (IH Hx) as (task & Ht & Hxt). exists task. split; [now right|exact Hxt].
Qed.

Lemma worker_appended o t address p k r :
  (k, r) ∈ appended (fst (worker o t address p)) ->
  exists ip sh,
    k = t
    /\ r = make_record t ip (all_but_last (shi1_netname sh))
             (all_but_last (shi1_remark sh)) (shi1_type sh).
Proof.
  rewrite worker_appended_cases.
  destruct (dns_lookup p) as [[|ip ips]|e];
    try (intros H; now apply elem_of_nil in H).
  destruct (_ ← init_smb_session o p; listShares p) as [resp|e];
    [|intros H; now apply elem_of_nil in H].
  intros H. apply list_elem_of_fmap in H as (sh & [= -> ->] & _). eauto.
Qed.

(** C5: the "hidden" field of a recorded share is true exactly when the
    recorded name ends with the character "$": so it is for the record the
    prober makes of a share, and for every record of the result set when
    the pool is done. *)
Theorem hidden_iff_name_ends_with_dollar (o : options) :
  (forall target_name target_ip address sh,
     exists r lines,
       share_actions o target_name target_ip address sh
       = [Append target_name r; Output lines]
       /\ (hidden (share r) = true
           <-> exists prefix, name (share r) = prefix +:+ "$"))
  /\ (forall env (computers : gmap string attributes) out k r,
        (k, r) ∈ filed (results (run_pool (schedule env)
                                   (submit_all o env computers)
                                   {| results := []; stdout := out |})) ->
        (hidden (share r) = true
         <-> exists prefix, name (share r) = prefix +:+ "$")).
Proof.
  assert (Hrec : forall t ip n c ty,
            hidden (share (make_record t ip n c ty)) = true
            <-> exists prefix, name (share (make_record t ip n c ty))
                               = prefix +:+ "$").
  { intros t ip n c ty. cbn [share make_record hidden name].
    rewrite <- endswith_spec. now destruct (endswith n "$"). }
  split.
  - intros target_name target_ip address sh. eexists _, _.
    split; [reflexivity|]. apply Hrec.
  - intros env computers out k r Hin.
    rewrite run_pool_filed in Hin. simpl in Hin.
    apply appended_concat in Hin as (task & Ht & Hx).
    unfold submit_all in Ht. apply list_elem_of_fmap in Ht as ([ck c] & -> & _).
    apply worker_appended in Hx as (ip & sh & _ & ->). apply Hrec.
Qed.

(** ** What the result set depends on *)

Lemma do_action_silent (st st' : shared) (a : action) :
  results st = results st' ->
  results (do_action st a) = results (do_action st' (silent a)).
Proof. intros H. destruct a; simpl; now rewrite H. Qed.

Lemma do_actions_silent (acts : list action) : forall st st' : shared,
  results st = results st' ->
  results (foldl do_action st acts)
  = results (foldl do_action st' (silent <$> acts)).
Proof.
  induction acts as [|a acts IH]; intros st st' H; [exact H|].
  rewrite fmap_cons. cbn [foldl]. apply IH. now apply do_action_silent.
Qed.

Lemma concat_silent (tasks : list (list action)) :
  concat (silent_tasks tasks) = silent <$> concat tasks.
Proof.
  induction tasks as [|t tasks IH]; [reflexivity|].
  unfold silent_tasks in *. rewrite fmap_cons, !concat_cons, fmap_app.
  now rewrite IH.
Qed.

Lemma next_action_silent (tasks : list (list action)) i :
  next_action (silent_tasks tasks) i
  = (fun '((a, ts) : action * list (list action)) =>
       (silent a, silent_tasks ts)) <$> next_action tasks i.
Proof.
  unfold next_action, silent_tasks. rewrite list_lookup_fmap.
  destruct (tasks !! i) as [[|a rest]|]; try reflexivity.
  simpl. now rewrite list_fmap_insert.
Qed.

Lemma run_pool_silent (sched : list nat) :
  forall (tasks : list (list action)) (st st' : shared),
    results st = results st' ->
    results (run_pool sched tasks st)
    = results (run_pool sched (silent_tasks tasks) st').
Proof.
  induction sched as [|i sched IH]; intros tasks st st' H; cbn [run_pool].
  - rewrite concat_silent. now apply do_actions_silent.
  - rewrite next_action_silent.
    destruct (next_action tasks i) as [[a tasks']|]; simpl.
    + apply IH. now apply do_action_silent.
    + now apply IH.
Qed.

Lemma share_actions_silent o t ip address (resp : list SHARE_INFO_1) :
  silent <$> concat (share_actions o t ip address <$> resp)
  = concat ((fun sh =>
               [Append t (make_record t ip (all_but_last (shi1_netname sh))
                            (all_but_last (shi1_remark sh)) (shi1_type sh));
                Output []]) <$> resp).
Proof.
  induction resp as [|sh resp IH]; [reflexivity|].
  rewrite !fmap_cons, !concat_cons, fmap_app, IH. reflexivity.
Qed.

Lemma worker_silent o b t address p :
  (forall m line, print_error p m line = None) ->
  silent <$> fst (worker (set_ignore_hidden_shares b o) t address p)
  = silent <$> fst (worker o t address p).
Proof.
  intros H. rewrite !worker_well by exact H.
  destruct o. unfold init_smb_session, mbind, result_bind. simpl.
  destruct (dns_lookup p) as [[|ip ips]|e]; try reflexivity.
  destruct (smb_connect p) as [[]|e]; simpl; [|reflexivity].
  destruct use_kerberos0; simpl; [reflexivity|].
  destruct (smb_login p) as [[]|e]; simpl; [|reflexivity].
  destruct (listShares p) as [resp|e]; simpl; [|reflexivity].
  now rewrite !share_actions_silent.
Qed.

Lemma submit_all_silent o b env (computers : gmap string attributes) :
  (forall ck c, computers !! ck = Some c -> prints_well env ck) ->
  silent_tasks (submit_all (set_ignore_hidden_shares b o) env computers)
  = silent_tasks (submit_all o env computers).
Proof.
  intros H. unfold submit_all, silent_tasks. rewrite <- !list_fmap_compose.
  apply list_fmap_ext. intros i [ck c] Hi. simpl. apply worker_silent.
  apply (H ck c). apply elem_of_map_to_list, list_elem_of_lookup. eauto.
Qed.

Lemma exports_outcome o o' env d out out' :
  export_json o = export_json o' ->
  export_xlsx o = export_xlsx o' ->
  export_sqlite o = export_sqlite o' ->
  files (exports o env d out) = files (exports o' env d out')
  /\ status (exports o env d out) = status (exports o' env d out')
  /\ uncaught (exports o env d out) = uncaught (exports o' env d out').
Proof.
  intros Hj Hx Hs. unfold exports, export_to, crash.
  rewrite <- Hj, <- Hx, <- Hs.
  destruct (export_json o) as [pj|], (export_xlsx o) as [px|],
    (export_sqlite o) as [ps|];
    repeat match goal with
           | |- context [writable env ?q] => destruct (writable env q)
           end;
    simpl; auto.
Qed.

(** C8: when every line of the enumeration is printed, the result set,
    and with it every exported file and the exit status, is the same with
    and without the option that ignores hidden shares; the option then only
    changes what is printed. *)
Theorem ignore_hidden_shares_only_changes_output
    (o : options) (env : environment) (b : bool) :
  let o' := set_ignore_hidden_shares b o in
  (forall (computers : gmap string attributes) out out',
     (forall ck c, computers !! ck = Some c -> prints_well env ck) ->
     results (run_pool (schedule env) (submit_all o' env computers)
                {| results := []; stdout := out' |})
     = results (run_pool (schedule env) (submit_all o env computers)
                  {| results := []; stdout := out |}))
  /\ (forall out,
        (forall ck, prints_well env ck) ->
        files (program o' env out) = files (program o env out)
        /\ status (program o' env out) = status (program o env out)
        /\ uncaught (program o' env out) = uncaught (program o env out))
  /\ ignore_hidden_shares o' = b.
Proof.
  intros o'.
  assert (Hpool : forall (computers : gmap string attributes) out out',
     (forall ck c, computers !! ck = Some c -> prints_well env ck) ->
     results (run_pool (schedule env) (submit_all o' env computers)
                {| results := []; stdout := out' |})
     = results (run_pool (schedule env) (submit_all o env computers)
                  {| results := []; stdout := out |})).
  { intros computers out out' Hwell.
    rewrite (run_pool_silent _ _ _ {| results := []; stdout := [] |})
      by reflexivity.
    rewrite (run_pool_silent _ (submit_all o env computers) _
               {| results := []; stdout := [] |}) by reflexivity.
    subst o'. now rewrite submit_all_silent. }
  split; [exact Hpool|]. split; [|subst o'; now destruct o].
  intros out Hwell. unfold program.
  assert (Ho : quiet o' = quiet o /\ threads o' = threads o
               /\ init_ldap_session_output o' env
                  = init_ldap_session_output o env
               /\ export_json o' = export_json o
               /\ export_xlsx o' = export_xlsx o
               /\ export_sqlite o' = export_sqlite o)
    by (subst o'; destruct o; simpl; repeat split; reflexivity).
  destruct Ho as (-> & -> & -> & Hj & Hx & Hs).
  destruct (ldap_session env) as [pages|e]; [|simpl; auto].
  destruct (get_domain_computers pages) as [computers|e]; [|simpl; auto].
  destruct (ThreadPoolExecutor _); [|simpl; auto].
  set (out1 := if negb (quiet o) then _ else _).
  rewrite (Hpool computers out1 out1) by (intros; apply Hwell).
  now apply exports_outcome.
Qed.

(** ** The command line *)

(** A property of the namespace and of the arguments seen that every
    occurrence of an argument keeps holds when [take_actions] is done. *)
Lemma take_actions_invariant (P : options -> list nat -> list nat -> Prop)
    (steps : list step) :
  (forall i a v o ns seen nd nd',
     Take i v ∈ steps ->
     P ns seen nd ->
     parser !! i = Some a ->
     match act a with
     | store set =>
         exists s, v = Some s /\ set s ns = Ok o
                   /\ (if is_default a s then nd' = nd
                       else conflicts i a nd = false /\ nd' = i :: nd)
     | store_const set =>
         v = None /\ o = set ns /\ conflicts i a nd = false /\ nd' = i :: nd
     | help => False
     end ->
     P o (i :: seen) nd') ->
  forall st st',
    P (namespace st) (seen_actions st) (seen_non_default_actions st) ->
    take_actions steps st = Parsed st' ->
    P (namespace st') (seen_actions st') (seen_non_default_actions st')
    /\ extras st' = extras st ++ omap (fun x => match x with
                                                | Extra s => Some s
                                                | _ => None
                                                end) steps.
Proof.
  induction steps as [|x steps IH]; intros Hstep st st' HP Hrun.
  - simpl in Hrun. injection Hrun as <-. simpl. now rewrite app_nil_r.
  - assert (Hstep' : forall i a v o ns seen nd nd',
              Take i v ∈ steps -> P ns seen nd -> parser !! i = Some a ->
              match act a with
              | store set =>
                  exists s, v = Some s /\ set s ns = Ok o
                            /\ (if is_default a s then nd' = nd
                                else conflicts i a nd = false /\ nd' = i :: nd)
              | store_const set =>
                  v = None /\ o = set ns /\ conflicts i a nd = false
                  /\ nd' = i :: nd
              | help => False
              end ->
              P o (i :: seen) nd').
    { intros i a v o ns seen nd nd' Hin. apply Hstep. now right. }
    destruct x as [i v|arg_string|message]; cbn [take_actions] in Hrun.
    + destruct (take_action i v st) as [st1| |] eqn:Et; try discriminate.
      assert (H1 : P (namespace st1) (seen_actions st1)
                     (seen_non_default_actions st1)
                   /\ extras st1 = extras st).
      { unfold take_action in Et.
        destruct (parser !! i) as [a|] eqn:Ea; [|discriminate].
        pose proof (Hstep i a v (namespace st1) (namespace st)
                      (seen_actions st) (seen_non_default_actions st)
                      (seen_non_default_actions st1)
                      (list_elem_of_here _ _) HP Ea) as Hs.
        destruct (act a) as [set|set|]; destruct v as [s|]; try discriminate.
        - destruct (set s (namespace st)) as [o|e] eqn:Es; [|discriminate].
          destruct (is_default a s) eqn:Ed.
          + injection Et as <-. simpl in *. split; [|reflexivity].
            apply Hs. exists s. rewrite Ed. auto.
          + destruct (conflicts i a _) eqn:Ec; [discriminate|].
            injection Et as <-. simpl in *. split; [|reflexivity].
            apply Hs. exists s. rewrite Ed. auto.
        - destruct (conflicts i a _) eqn:Ec; [discriminate|].
          injection Et as <-. simpl in *. split; [|reflexivity].
          apply Hs. auto. }
      destruct H1 as [HP1 He1].
      destruct (IH Hstep' st1 st' HP1 Hrun) as [HP' He'].
      split; [exact HP'|]. rewrite He', He1. reflexivity.
    + destruct (IH Hstep'
                  {| namespace := namespace st;
                     seen_actions := seen_actions st;
                     seen_non_default_actions := seen_non_default_actions st;
                     extras := extras st ++ [arg_string] |} st' HP Hrun)
        as [HP' He'].
      split; [exact HP'|]. rewrite He'. simpl. now rewrite <- app_assoc.
    + discriminate.
Qed.

Lemma parser_parse_args_Parsed lexer args st :
  parser_parse_args lexer args = Parsed st ->
  exists steps,
    lexer args = Ok steps
    /\ take_actions steps
         {| namespace := defaults; seen_actions := [];
            seen_non_default_actions := []; extras := [] |} = Parsed st
    /\ missing_required (seen_actions st) = []
    /\ extras st = [].
Proof.
  unfold parser_parse_args.
  destruct (lexer args) as [steps|e]; [|discriminate].
  destruct (take_actions steps _) as [st0| |] eqn:Ec; try discriminate.
  destruct (missing_required _) eqn:Em; [|discriminate].
  destruct (extras st0) eqn:Ee; [|discriminate].
  intros [= <-]. eauto.
Qed.

(** No argument stores [None] as the password, and only [-p/--password]
    stores a password at all. *)
Lemma parser_password i a :
  parser !! i = Some a ->
  match act a with
  | store set =>
      forall v o o', set v o = Ok o' ->
        (is_Some (auth_password o) -> is_Some (auth_password o'))
        /\ (i <> password_argument -> auth_password o' = auth_password o)
  | store_const set => forall o, auth_password (set o) = auth_password o
  | help => True
  end.
Proof.
  unfold password_argument.
  do 18 (destruct i as [|i];
         [intros [= <-]; simpl;
          first
            [ exact I
            | solve [intros o; now destruct o]
            | solve [intros v o o' [= <-]; destruct o; simpl;
                     split; [eauto|intros; reflexivity]]
            | solve [intros v o o'; destruct (int v); intros [= <-];
                     destruct o; simpl; split; [eauto|intros; reflexivity]]
            | solve [intros v o o' [= <-]; destruct o; simpl;
                     split; [eauto|intros H; exfalso; now apply H]] ]
         |]).
  simpl. discriminate.
Qed.

Lemma parser_parse_args_password lexer args st :
  parser_parse_args lexer args = Parsed st ->
  is_Some (auth_password (namespace st))
  /\ (forall steps, lexer args = Ok steps ->
        (forall v, Take password_argument v ∉ steps) ->
        auth_password (namespace st) = Some "").
Proof.
  intros Hp. apply parser_parse_args_Parsed in Hp as (steps & Hl & Hrun & _).
  split.
  - refine (proj1 (take_actions_invariant
                     (fun ns _ _ => is_Some (auth_password ns)) steps _ _ _ _
                     Hrun)); [|simpl; eauto].
    intros i a v o ns seen nd nd' _ HP Ha Hact.
    pose proof (parser_password i a Ha) as Hpw.
    destruct (act a) as [set|set|]; [| |contradiction].
    + destruct Hact as (s & _ & Hs & _). now apply (Hpw _ _ _ Hs).
    + destruct Hact as (_ & -> & _). now rewrite Hpw.
  - intros steps' Hl' Hno. rewrite Hl in Hl'. injection Hl' as <-.
    refine (proj1 (take_actions_invariant
                     (fun ns _ _ => auth_password ns = Some "") steps _ _ _ _
                     Hrun)); [|reflexivity].
    intros i a v o ns seen nd nd' Hin HP Ha Hact.
    pose proof (parser_password i a Ha) as Hpw.
    destruct (act a) as [set|set|]; [| |contradiction].
    + destruct Hact as (s & _ & Hs & _).
      rewrite (proj2 (Hpw _ _ _ Hs)); [exact HP|].
      intros ->. now apply (Hno v).
    + destruct Hact as (_ & -> & _). now rewrite Hpw.
Qed.

(** C10: [parse_args] never asks for the password, however [argparse]
    reads the command line: the password it returns is a string, never
    [None], and it is the empty string when the command line has no
    occurrence of [-p/--password]. *)
Theorem password_prompt_unreachable
    (lexer : lexer) (argv : list string) (tty : string) :
  (forall prompt, Getpass prompt ∉ fst (parse_args lexer argv tty))
  /\ (forall o, snd (parse_args lexer argv tty) = Return o ->
        exists s, auth_password o = Some s)
  /\ (forall o steps,
        snd (parse_args lexer argv tty) = Return o ->
        lexer (drop 1 argv) = Ok steps ->
        (forall v, Take password_argument v ∉ steps) ->
        auth_password o = Some "").
Proof.
  unfold parse_args.
  destruct (length argv =? 1)%nat.
  { simpl. split; [|split; discriminate].
    intros prompt H. repeat (apply elem_of_cons in H as [H|H]; [discriminate|]).
    now apply elem_of_nil in H. }
  destruct (parser_parse_args lexer (drop 1 argv)) as [st| |] eqn:Ep.
  - destruct (parser_parse_args_password _ _ _ Ep) as [[s Hs] Hempty].
    rewrite Hs, bool_decide_eq_false_2 by discriminate. simpl.
    split; [|split].
    + intros prompt H. apply elem_of_cons in H as [H|H]; [discriminate|].
      now apply elem_of_nil in H.
    + intros o [= <-]. eauto.
    + intros o steps [= <-] Hl Hno. exact (Hempty steps Hl Hno).
  - simpl. split; [|split; discriminate].
    intros prompt H. repeat (apply elem_of_cons in H as [H|H]; [discriminate|]).
    now apply elem_of_nil in H.
  - simpl. split; [|split; discriminate].
    intros prompt H. apply elem_of_cons in H as [H|H]; [discriminate|].
    now apply elem_of_nil in H.
Qed.

(** ** The whole run *)



(** ** The small domain *)

Lemma example_search : get_domain_computers example_pages = Ok example_computers.
Proof. vm_compute. reflexivity. Qed.


(** The paged answer of the small domain is returned whole. *)
Lemma get_domain_computers_paged_witness :
  well_paged example_pages = true
  /\ exists results : gmap string attributes,
       get_domain_computers example_pages = Ok results
       /\ forall e, e ∈ computer_entries example_pages ->
                    is_Some (results !! dn e).
Proof.
  split; [reflexivity|].
  destruct (get_domain_computers_paged example_pages eq_refl)
    as (results & Hret & _ & Hkeys & _).
  exists results. split; assumption.
Defined.




(** The command line of the small domain gives no password: the program
    goes on with the empty one.  So does a command line that names the
    password by an abbreviation and gives the empty string. *)
Lemma password_prompt_unreachable_witness :
  (exists steps, argparse_lexer (drop 1 example_argv) = Ok steps
                 /\ forall v, Take password_argument v ∉ steps)
  /\ snd (parse_args argparse_lexer example_argv "") = Return example_options
  /\ auth_password example_options = Some "".
Proof.
  assert (Hl : argparse_lexer (drop 1 example_argv)
               = Ok [Take 10 (Some "10.0.0.1"); Take 11 (Some "lab");
                     Take 12 (Some "alice"); Take 8 (Some "shares.json");
                     Take 9 (Some "shares.db")])
    by (vm_compute; reflexivity).
  assert (Hno : forall v, Take password_argument v
                          ∉ [Take 10 (Some "10.0.0.1"); Take 11 (Some "lab");
                             Take 12 (Some "alice");
                             Take 8 (Some "shares.json");
                             Take 9 (Some "shares.db")]).
  { intros v H. unfold password_argument in H.
    repeat (apply elem_of_cons in H as [H|H]; [discriminate|]).
    now apply elem_of_nil in H. }
  assert (Hp : snd (parse_args argparse_lexer example_argv "")
               = Return example_options)
    by (vm_compute; reflexivity).
  split; [eauto|]. split; [exact Hp|].
  destruct (password_prompt_unreachable argparse_lexer example_argv "")
    as (_ & _ & H).
  exact (H example_options _ Hp Hl Hno).
Defined.

(** The record of [C$] in the small domain is hidden. *)
Lemma hidden_iff_name_ends_with_dollar_witness :
  hidden (share (make_record "ws01.lab" "10.0.0.11" "C$" "Default share"
                   0x80000000)) = true
  <-> exists prefix, "C$" = prefix +:+ "$".
Proof.
  destruct (hidden_iff_name_ends_with_dollar example_options) as [_ H].
  apply (H example_env example_computers [] "ws01.lab"
           (make_record "ws01.lab" "10.0.0.11" "C$" "Default share"
              0x80000000)).
  vm_compute. left.
Defined.

(** The two records of the small domain fill the rows 1 and 2; the
    autofilter runs to row 3, where nothing is written. *)
Lemma export_xlsx_autofilter_one_row_too_far_witness :
  length (records_of example_results) = 2%nat
  /\ table (export_xlsx_sheet example_results) !! (3%nat, 0%nat) = None
  /\ filter_range (export_xlsx_sheet example_results)
     = Some (0, 0, 3, 4)%nat.
Proof.
  split; [reflexivity|].
  destruct (export_xlsx_autofilter_one_row_too_far example_results)
    as (_ & _ & _ & Hempty & Hfilter & _).
  split; [apply Hempty; vm_compute; lia|exact Hfilter].
Defined.

(** In the small domain every line is printed, and the result set is the
    same with and without [-I]. *)
Lemma ignore_hidden_shares_only_changes_output_witness :
  results (run_pool (schedule example_env)
             (submit_all (set_ignore_hidden_shares true example_options)
                example_env example_computers)
             {| results := []; stdout := [] |})
  = results (run_pool (schedule example_env)
               (submit_all example_options example_env example_computers)
               {| results := []; stdout := [] |}).
Proof.
  destruct (ignore_hidden_shares_only_changes_output example_options
              example_env true) as [H _].
  apply (H example_computers [] []).
  intros ck c _ n line. unfold example_env, example_probe. simpl.
  now destruct (decide _).
Defined.

(** The claim of C8 as it is written fails: on a terminal that prints
    ASCII only, the line of the hidden share with an accent is printed
    without [-I], raises and ends the loop of the host after one record;
    with [-I] the line is not printed and the loop files the three
    shares. *)
Lemma ignore_hidden_shares_counterexample :
  let pool o :=
    results (run_pool (schedule ascii_env)
               (submit_all o ascii_env example_computers)
               {| results := []; stdout := [] |}) in
  length (records_of (pool example_options)) = 1%nat
  /\ length (records_of (pool (set_ignore_hidden_shares true example_options)))
     = 3%nat
  /\ pool (set_ignore_hidden_shares true example_options)
     <> pool example_options
  /\ files (program (set_ignore_hidden_shares true example_options)
              ascii_env [])
     <> files (program example_options ascii_env []).
Proof.
  cbv zeta. split; [vm_compute; reflexivity|].
  split; [vm_compute; reflexivity|].
  split; vm_compute; discriminate.
Qed.

(** * Further properties of the program *)

(** ** Share-type decoding *)

(** X1: the decoder reads bits 0, 1, 30 and 31 only: two values that agree
    on these four bits have the same flags. *)
Theorem STYPE_MASK_reads_four_bits (v w : Z) :
  Z.land v 0xC0000003 = Z.land w 0xC0000003 ->
  STYPE_MASK v = STYPE_MASK w.
Proof.
  assert (H : forall x, STYPE_MASK (Z.land x 0xC0000003) = STYPE_MASK x).
  { intros x. rewrite !STYPE_MASK_unfold.
    rewrite <- Z.land_assoc. change (Z.land 0xC0000003 3) with 3.
    rewrite !Z.land_spec. change (Z.testbit 0xC0000003 31) with true.
    change (Z.testbit 0xC0000003 30) with true.
    now rewrite !andb_true_r. }
  intros E. rewrite <- (H v), <- (H w). now rewrite E.
Qed.

Lemma STYPE_MASK_reads_four_bits_witness :
  Z.land 0x80000003 0xC0000003 = Z.land 0x8000FF03 0xC0000003
  /\ STYPE_MASK 0x80000003 = STYPE_MASK 0x8000FF03.
Proof.
  split; [reflexivity|].
  apply (STYPE_MASK_reads_four_bits 0x80000003 0x8000FF03). reflexivity.
Defined.

(** X2: the decoded list starts with the category flag, has no flag twice,
    and has one more element for each of the bits 31 and 30 that is
    clear: between one and three flags. *)
Theorem STYPE_MASK_shape (v : Z) :
  STYPE_MASK v !! 0%nat = Some (category_of (Z.land v 3))
  /\ NoDup (STYPE_MASK v)
  /\ length (STYPE_MASK v)
     = (1 + (if Z.testbit v 31 then 0 else 1)
          + (if Z.testbit v 30 then 0 else 1))%nat
  /\ (1 <= length (STYPE_MASK v) <= 3)%nat.
Proof.
  rewrite STYPE_MASK_unfold.
  assert (Hc : category_of (Z.land v 3) <> "STYPE_SPECIAL"
               /\ category_of (Z.land v 3) <> "STYPE_TEMPORARY").
  { unfold category_of.
    destruct (Z.land v 3 =? 0), (Z.land v 3 =? 1), (Z.land v 3 =? 2);
      split; discriminate. }
  destruct Hc as [Hs Ht].
  destruct (Z.testbit v 31), (Z.testbit v 30); simpl;
    (split; [reflexivity|]); (split; [|split; [reflexivity|lia]]);
    repeat (apply NoDup_cons; split;
            [rewrite ?elem_of_cons, ?elem_of_nil; intuition congruence|]);
    apply NoDup_nil_2.
Qed.

(** ** Paged directory search *)

Lemma paged_search_prefix pages rest : forall expected results,
  well_paged pages = true ->
  paged_search (pages ++ rest) expected expected results
  = Ok (record_entries results (concat (response <$> pages))).
Proof.
  induction pages as [|p pages IH]; intros expected results Hw; [discriminate|].
  cbn [app paged_search]. rewrite decide_True by reflexivity.
  destruct pages as [|q pages].
  - cbn in Hw. apply negb_true_iff in Hw.
    rewrite (stops_next_paging _ _ Hw). cbn. now rewrite app_nil_r.
  - change (well_paged (p :: q :: pages))
      with (continues p && well_paged (q :: pages))%bool in Hw.
    apply andb_true_iff in Hw as [Hc Hw].
    rewrite (continues_next_paging _ _ Hc). rewrite IH by exact Hw.
    f_equal. rewrite fmap_cons with (x := p). cbn [concat].
    unfold record_entries. now rewrite foldl_app.
Qed.

(** X3: the enumerator stops at the first page that does not ask for a
    continuation: whatever the server would send after it is never
    requested, and does not change the result. *)
Theorem get_domain_computers_stops_at_last_page (pages rest : list page) :
  well_paged pages = true ->
  get_domain_computers (pages ++ rest) = get_domain_computers pages.
Proof.
  intros Hw. unfold get_domain_computers.
  rewrite (paged_search_prefix pages rest None ∅ Hw).
  rewrite <- (app_nil_r pages) at 2.
  now rewrite (paged_search_prefix pages [] None ∅ Hw).
Qed.

Lemma get_domain_computers_stops_at_last_page_witness :
  well_paged example_pages = true
  /\ get_domain_computers (example_pages ++ example_pages)
     = get_domain_computers example_pages.
Proof.
  split; [reflexivity|].
  apply (get_domain_computers_stops_at_last_page example_pages example_pages).
  reflexivity.
Defined.

Lemma record_entries_filter (es : list entry) :
  forall results : gmap string attributes,
    record_entries results (filter (fun e => type e = "searchResEntry") es)
    = record_entries results es.
Proof.
  induction es as [|e es IH]; intros results; [reflexivity|].
  rewrite filter_cons. unfold record_entries in *. cbn [foldl].
  destruct (decide (type e = "searchResEntry")) as [Ht|Ht].
  - cbn [foldl]. apply IH.
  - rewrite IH. f_equal. unfold record_entry. now rewrite decide_True.
Qed.

Lemma record_entries_last (l2 : list entry) :
  forall (results : gmap string attributes) l1 e,
    type e = "searchResEntry" ->
    (forall e', e' ∈ l2 -> type e' = "searchResEntry" -> dn e' <> dn e) ->
    record_entries results (l1 ++ e :: l2) !! dn e = Some (attrs e).
Proof.
  induction l2 as [|x l2 IH] using rev_ind; intros results l1 e Ht Hlater.
  - change (l1 ++ [e]) with (l1 ++ [e]). rewrite record_entries_snoc.
    rewrite record_entry_lookup. now rewrite decide_True.
  - replace (l1 ++ e :: l2 ++ [x]) with ((l1 ++ e :: l2) ++ [x])
      by now rewrite <- app_assoc.
    rewrite record_entries_snoc, record_entry_lookup.
    destruct (decide (type x = "searchResEntry" /\ dn x = dn e)) as [[Hx Hd]|_].
    + exfalso. apply (Hlater x); [|exact Hx|exact Hd].
      rewrite elem_of_app, list_elem_of_singleton. now right.
    + apply IH; [exact Ht|]. intros e' He'. apply Hlater.
      rewrite elem_of_app. now left.
Qed.

(** X4: when a distinguished name comes more than once in a paged answer,
    the attributes of its last entry are the ones returned. *)
Theorem get_domain_computers_last_entry_wins
    (pages : list page) (before after : list entry) (e : entry) :
  well_paged pages = true ->
  computer_entries pages = before ++ e :: after ->
  (forall e', e' ∈ after -> dn e' <> dn e) ->
  exists results : gmap string attributes,
    get_domain_computers pages = Ok results
    /\ results !! dn e = Some (attrs e).
Proof.
  intros Hw Hsplit Hlast. eexists. split.
  { unfold get_domain_computers. now apply paged_search_well_paged. }
  rewrite <- record_entries_filter. fold (computer_entries pages).
  rewrite Hsplit. apply record_entries_last.
  - assert (He : e ∈ computer_entries pages).
    { rewrite Hsplit, elem_of_app. right. left. }
    unfold computer_entries in He. apply list_elem_of_filter in He. tauto.
  - intros e' He' _. now apply Hlast.
Qed.

Lemma get_domain_computers_last_entry_wins_witness :
  exists results : gmap string attributes,
    get_domain_computers renamed_pages = Ok results
    /\ results !! "CN=SRV,CN=Computers,DC=lab"
       = Some {| dNSHostName := "new.lab"; sAMAccountName := "SRV$" |}.
Proof.
  apply (get_domain_computers_last_entry_wins renamed_pages
           [renamed_entry "old.lab"] [] (renamed_entry "new.lab")).
  - reflexivity.
  - reflexivity.
  - intros e' He'. now apply elem_of_nil in He'.
Defined.

(** ** The result set after the pool *)

Lemma worker_appended_eq o env ck c :
  appended (fst (worker o (dNSHostName c) (dNSHostName c) (probe env ck)))
  = pair (dNSHostName c) <$> recorded o env ck c.
Proof.
  rewrite worker_appended_cases. unfold recorded.
  destruct (dns_lookup (probe env ck)) as [[|ip ips]|e]; try reflexivity.
  destruct (_ ← init_smb_session o (probe env ck); listShares (probe env ck))
    as [resp|e]; [|reflexivity].
  now rewrite <- list_fmap_compose.
Qed.

Lemma appended_concat_fmap {A} (f : A -> list action) (l : list A) :
  appended (concat (f <$> l)) = concat ((fun x => appended (f x)) <$> l).
Proof.
  induction l as [|x l IH]; [reflexivity|].
  rewrite !fmap_cons, !concat_cons, appended_app. now rewrite IH.
Qed.

Lemma submit_all_appended o env (computers : gmap string attributes) :
  appended (concat (submit_all o env computers))
  = concat ((fun '((ck, c) : string * attributes) =>
               pair (dNSHostName c) <$> recorded o env ck c)
              <$> map_to_list computers).
Proof.
  unfold submit_all. rewrite appended_concat_fmap. f_equal.
  apply list_fmap_ext. intros i [ck c] _. apply worker_appended_eq.
Qed.

Lemma pool_filed o env (computers : gmap string attributes)
    (sched : list nat) (out : list event) :
  filed (results (run_pool sched (submit_all o env computers)
                    {| results := []; stdout := out |}))
  ≡ₚ concat ((fun '((ck, c) : string * attributes) =>
                pair (dNSHostName c) <$> recorded o env ck c)
               <$> map_to_list computers).
Proof. rewrite run_pool_filed. simpl. now rewrite submit_all_appended. Qed.

Lemma reached_prefix o address p (resp : list SHARE_INFO_1) : forall n,
  reached o address p n resp `prefix_of` resp.
Proof.
  induction resp as [|sh resp IH]; intros n; cbn [reached].
  - apply prefix_nil.
  - apply prefix_cons. destruct (snd _); [apply prefix_nil|apply IH].
Qed.

(** What is recorded of a host is the beginning of what it lists: not
    empty when the listing is not, and the whole of it when every line is
    printed. *)
Lemma recorded_prefix o env ck c :
  recorded o env ck c `prefix_of` host_records o env ck c
  /\ (host_records o env ck c <> [] -> recorded o env ck c <> [])
  /\ (prints_well env ck -> recorded o env ck c = host_records o env ck c).
Proof.
  unfold recorded, host_records.
  destruct (dns_lookup (probe env ck)) as [[|ip ips]|e];
    try (split; [apply prefix_nil|split; [tauto|reflexivity]]).
  destruct (_ ← init_smb_session o (probe env ck); listShares (probe env ck))
    as [resp|e];
    [|split; [apply prefix_nil|split; [tauto|reflexivity]]].
  split; [|split].
  - destruct (reached_prefix o (dNSHostName c) (probe env ck) resp 0)
      as [rest Hrest].
    exists ((fun sh => make_record (dNSHostName c) ip
                         (all_but_last (shi1_netname sh))
                         (all_but_last (shi1_remark sh)) (shi1_type sh))
              <$> rest).
    rewrite <- fmap_app. now rewrite <- Hrest.
  - destruct resp as [|sh resp]; [tauto|]. intros _. discriminate.
  - intros Hwell. now rewrite reached_well by exact Hwell.
Qed.

Lemma recorded_sub o env ck c r :
  r ∈ recorded o env ck c -> r ∈ host_records o env ck c.
Proof.
  destruct (recorded_prefix o env ck c) as [[rest ->] _].
  intros H. apply elem_of_app. now left.
Qed.

(** X5: when the pool is done the result set holds, for every schedule,
    exactly the records of the shares that the loops of the workers
    reached, and nothing else: of each computer the beginning of its
    listing, up to the first share whose line [print] raises on; at least
    the first share, and the whole listing when every line is printed. *)
Theorem pool_records_all_listed_shares
    (o : options) (env : environment) (computers : gmap string attributes)
    (out : list event) :
  let d := results (run_pool (schedule env) (submit_all o env computers)
                      {| results := []; stdout := out |}) in
  filed d
  ≡ₚ concat ((fun '((ck, c) : string * attributes) =>
                pair (dNSHostName c) <$> recorded o env ck c)
               <$> map_to_list computers)
  /\ length (records_of d)
     = sum_list ((fun '((ck, c) : string * attributes) =>
                    length (recorded o env ck c))
                   <$> map_to_list computers)
  /\ (forall ck c,
        recorded o env ck c `prefix_of` host_records o env ck c
        /\ (host_records o env ck c <> [] -> recorded o env ck c <> [])
        /\ (prints_well env ck ->
            recorded o env ck c = host_records o env ck c)).
Proof.
  intros d. pose proof (pool_filed o env computers (schedule env) out) as Hp.
  fold d in Hp. split; [exact Hp|]. split; [|intros; apply recorded_prefix].
  rewrite records_of_filed by (apply run_pool_keys; apply NoDup_nil_2).
  rewrite length_fmap, Hp. clear Hp.
  induction (map_to_list computers) as [|[ck c] l IH]; [reflexivity|].
  rewrite !fmap_cons, concat_cons, length_app, length_fmap, IH. reflexivity.
Qed.

(** On the terminal that prints ASCII only, the first computer lists
    three shares and the result set has one record. *)
Lemma pool_records_all_listed_shares_witness :
  length (host_records example_options ascii_env
            "CN=WS01,CN=Computers,DC=lab"
            {| dNSHostName := "ws01.lab"; sAMAccountName := "WS01$" |})
  = 3%nat
  /\ length (records_of
               (results (run_pool (schedule ascii_env)
                           (submit_all example_options ascii_env
                              example_computers)
                           {| results := []; stdout := [] |}))) = 1%nat.
Proof.
  split; [reflexivity|].
  destruct (pool_records_all_listed_shares example_options ascii_env
              example_computers []) as (_ & H & _).
  rewrite H. vm_compute. reflexivity.
Defined.

Lemma host_records_fqdn o env ck c r :
  r ∈ host_records o env ck c -> fqdn (computer r) = dNSHostName c.
Proof.
  unfold host_records.
  destruct (dns_lookup (probe env ck)) as [[|ip ips]|e];
    try (intros H; now apply elem_of_nil in H).
  destruct (_ ← init_smb_session o (probe env ck); listShares (probe env ck))
    as [resp|e]; [|intros H; now apply elem_of_nil in H].
  intros H. apply list_elem_of_fmap in H as (sh & -> & _). reflexivity.
Qed.

Lemma elem_of_concat {A} (x : A) (ls : list (list A)) :
  x ∈ concat ls <-> exists l, x ∈ l /\ l ∈ ls.
Proof.
  induction ls as [|l0 ls IH]; simpl.
  - split; [intros H; now apply elem_of_nil in H|].
    intros (l & _ & H). now apply elem_of_nil in H.
  - rewrite elem_of_app, IH. split.
    + intros [H|(l & Hx & Hl)]; [exists l0; split; [exact H|left]|].
      exists l. split; [exact Hx|now right].
    + intros (l & Hx & Hl). apply elem_of_cons in Hl as [->|Hl]; [now left|].
      right. eauto.
Qed.

Lemma listed_elem (f : string -> attributes -> list share_record)
    (computers : gmap string attributes) k r :
  (k, r) ∈ concat ((fun '((ck, c) : string * attributes) =>
                      pair (dNSHostName c) <$> f ck c)
                     <$> map_to_list computers)
  <-> exists ck c, computers !! ck = Some c /\ dNSHostName c = k
                   /\ r ∈ f ck c.
Proof.
  rewrite elem_of_concat. split.
  - intros (l & Hin & Hl). apply list_elem_of_fmap in Hl as ([ck c] & -> & Hc).
    apply elem_of_map_to_list in Hc.
    apply list_elem_of_fmap in Hin as (r' & [= -> ->] & Hr). eauto.
  - intros (ck & c & Hc & <- & Hr).
    exists (pair (dNSHostName c) <$> f ck c). split.
    + now apply list_elem_of_fmap_2.
    + apply list_elem_of_fmap. exists (ck, c). split; [reflexivity|].
      now apply elem_of_map_to_list.
Qed.

(** A record of the result set is one of those recorded of a computer. *)
Lemma pool_elem o env (computers : gmap string attributes)
    (sched : list nat) (out : list event) k r :
  (k, r) ∈ filed (results (run_pool sched (submit_all o env computers)
                             {| results := []; stdout := out |}))
  <-> exists ck c, computers !! ck = Some c /\ dNSHostName c = k
                   /\ r ∈ recorded o env ck c.
Proof. rewrite pool_filed. apply (listed_elem (recorded o env)). Qed.

(** Every key of a result set built by [record_share] has a record. *)
Lemma record_share_nonempty (d : dict (list share_record)) t r :
  Forall (fun kl => snd kl <> []) d ->
  Forall (fun kl => snd kl <> []) (record_share d t r).
Proof.
  intros H. destruct (record_share_cases d t r)
    as [(d1 & l & d2 & -> & ->)|(_ & ->)].
  - apply Forall_app in H as [H1 H2]. apply Forall_cons in H2 as [_ H2].
    apply Forall_app. split; [exact H1|]. apply Forall_cons. split; [|exact H2].
    simpl. now destruct l.
  - apply Forall_app. split; [exact H|]. apply Forall_cons.
    split; [discriminate|apply Forall_nil_2].
Qed.

Lemma do_actions_nonempty (acts : list action) : forall st : shared,
  Forall (fun kl => snd kl <> []) (results st) ->
  Forall (fun kl => snd kl <> []) (results (foldl do_action st acts)).
Proof.
  induction acts as [|a acts IH]; intros st H; [exact H|].
  cbn [foldl]. apply IH. destruct a; simpl; [|exact H].
  now apply record_share_nonempty.
Qed.

Lemma run_pool_nonempty (sched : list nat) :
  forall (tasks : list (list action)) (st : shared),
    Forall (fun kl => snd kl <> []) (results st) ->
    Forall (fun kl => snd kl <> []) (results (run_pool sched tasks st)).
Proof.
  induction sched as [|i sched IH]; intros tasks st H; cbn [run_pool].
  - now apply do_actions_nonempty.
  - destruct (next_action tasks i) as [[a tasks']|]; [|now apply IH].
    apply IH. destruct a; simpl; [|exact H]. now apply record_share_nonempty.
Qed.

Lemma key_has_record (d : dict (list share_record)) k :
  Forall (fun kl => snd kl <> []) d ->
  k ∈ dict_keys d <-> exists r, (k, r) ∈ filed d.
Proof.
  intros Hne. unfold dict_keys. rewrite list_elem_of_fmap. split.
  - intros ([k' l] & -> & Hin). simpl.
    rewrite Forall_forall in Hne. specialize (Hne _ Hin). simpl in Hne.
    destruct l as [|r l]; [congruence|]. exists r. apply filed_elem.
    exists (r :: l). split; [exact Hin|left].
  - intros (r & Hr). apply filed_elem in Hr as (l & Hl & _).
    now exists (k, l).
Qed.

(** X6: the invariants of the result set, for every schedule: no host name
    is a key twice, every key has at least one record, and every record is
    filed under the name of its own host. *)
Theorem pool_result_set_invariants
    (o : options) (env : environment) (computers : gmap string attributes)
    (out : list event) :
  let d := results (run_pool (schedule env) (submit_all o env computers)
                      {| results := []; stdout := out |}) in
  NoDup (dict_keys d)
  /\ Forall (fun kl => snd kl <> []) d
  /\ forall k l r, (k, l) ∈ d -> r ∈ l -> fqdn (computer r) = k.
Proof.
  intros d. split; [|split].
  - apply run_pool_keys. apply NoDup_nil_2.
  - apply run_pool_nonempty. apply Forall_nil_2.
  - intros k l r Hl Hr.
    assert (Hin : (k, r) ∈ filed d) by (apply filed_elem; eauto).
    subst d. apply pool_elem in Hin as (ck & c & _ & <- & Hrec).
    now apply recorded_sub, host_records_fqdn in Hrec.
Qed.

(** X7: a host name is a key of the result set exactly when a computer of
    that name listed at least one share; a computer whose probe fails, or
    that lists no share, leaves no key behind. *)
Theorem pool_keys_are_hosts_with_shares
    (o : options) (env : environment) (computers : gmap string attributes)
    (out : list event) (k : string) :
  k ∈ dict_keys (results (run_pool (schedule env) (submit_all o env computers)
                            {| results := []; stdout := out |}))
  <-> exists ck c, computers !! ck = Some c /\ dNSHostName c = k
                   /\ host_records o env ck c <> [].
Proof.
  rewrite key_has_record by (apply run_pool_nonempty; apply Forall_nil_2).
  split.
  - intros (r & Hr). apply pool_elem in Hr as (ck & c & Hc & Hk & Hrec).
    exists ck, c. split; [exact Hc|]. split; [exact Hk|].
    apply recorded_sub in Hrec.
    intros E. rewrite E in Hrec. now apply elem_of_nil in Hrec.
  - intros (ck & c & Hc & Hk & Hne).
    destruct (recorded_prefix o env ck c) as (_ & Hsome & _).
    specialize (Hsome Hne).
    destruct (recorded o env ck c) as [|r l] eqn:E; [congruence|].
    exists r. apply pool_elem.
    exists ck, c. split; [exact Hc|]. split; [exact Hk|]. rewrite E. left.
Qed.

(** *** The order of the records of one host *)

Lemma dict_get_set {V} (d : dict V) t k (v : V) :
  dict_get (dict_set d t v) k = if decide (t = k) then Some v else dict_get d k.
Proof.
  induction d as [|[k' v'] d IH]; simpl.
  - destruct (decide (t = k)); reflexivity.
  - destruct (decide (k' = t)) as [->|Hne]; simpl.
    + destruct (decide (t = k)); reflexivity.
    + rewrite IH. destruct (decide (k' = k)) as [->|Hne'].
      * now rewrite decide_False by congruence.
      * reflexivity.
Qed.

Lemma record_share_get (d : dict (list share_record)) t r k :
  default [] (dict_get (record_share d t r) k)
  = default [] (dict_get d k) ++ (if decide (t = k) then [r] else []).
Proof.
  unfold record_share, append.
  set (d' := if negb _ then _ else _).
  assert (Hd' : forall k', default [] (dict_get d' k')
                           = default [] (dict_get d k')).
  { intros k'. subst d'. destruct (negb _) eqn:E; [|reflexivity].
    apply negb_true_iff, bool_decide_eq_false in E.
    apply dict_get_None in E. rewrite dict_get_set.
    destruct (decide (t = k')) as [<-|]; [now rewrite E|reflexivity]. }
  assert (Ht : is_Some (dict_get d' t)).
  { subst d'. destruct (negb _) eqn:E.
    - rewrite dict_get_set, decide_True by reflexivity. eauto.
    - apply negb_false_iff, bool_decide_eq_true in E.
      destruct (dict_get d t) eqn:E'; [eauto|].
      apply dict_get_None in E'. contradiction. }
  destruct Ht as [l Hl]. rewrite Hl, dict_get_set.
  destruct (decide (t = k)) as [<-|Hne].
  - simpl. rewrite <- Hd', Hl. reflexivity.
  - rewrite Hd'. now rewrite app_nil_r.
Qed.

Lemma appended_for_app k (acts1 acts2 : list action) :
  appended_for k (acts1 ++ acts2) = appended_for k acts1 ++ appended_for k acts2.
Proof. apply omap_app. Qed.

Lemma appended_for_cons k (a : action) (acts : list action) :
  appended_for k (a :: acts) = appended_for k [a] ++ appended_for k acts.
Proof. destruct a as [t r|]; simpl; [|reflexivity]. now destruct (decide (t = k)). Qed.

Lemma do_action_get (st : shared) (a : action) k :
  default [] (dict_get (results (do_action st a)) k)
  = default [] (dict_get (results st) k) ++ appended_for k [a].
Proof.
  destruct a as [t r|lines]; simpl.
  - rewrite record_share_get. now destruct (decide (t = k)).
  - now rewrite app_nil_r.
Qed.

Lemma do_actions_get (acts : list action) k : forall st : shared,
  default [] (dict_get (results (foldl do_action st acts)) k)
  = default [] (dict_get (results st) k) ++ appended_for k acts.
Proof.
  induction acts as [|a acts IH]; intros st; cbn [foldl].
  - simpl. now rewrite app_nil_r.
  - rewrite IH, do_action_get, (appended_for_cons k a acts).
    now rewrite app_assoc.
Qed.

Lemma appended_for_concat_nil k (tasks : list (list action)) :
  Forall (fun t => appended_for k t = []) tasks ->
  appended_for k (concat tasks) = [].
Proof.
  induction 1 as [|t tasks Ht _ IH]; [reflexivity|].
  rewrite concat_cons, appended_for_app, Ht, IH. reflexivity.
Qed.

(** When one task at most files records under [k], these come in the
    order of that task, whatever the schedule. *)
Lemma run_pool_get (sched : list nat) k m :
  forall (tasks : list (list action)) (st : shared),
    (forall j t, tasks !! j = Some t -> j <> m -> appended_for k t = []) ->
    default [] (dict_get (results (run_pool sched tasks st)) k)
    = default [] (dict_get (results st) k) ++ appended_for k (concat tasks).
Proof.
  induction sched as [|i sched IH]; intros tasks st Hone; cbn [run_pool].
  - apply do_actions_get.
  - destruct (next_action tasks i) as [[a tasks']|] eqn:E; [|now apply IH].
    assert (Hi : exists rest, tasks !! i = Some (a :: rest)
                              /\ tasks' = <[i := rest]> tasks).
    { unfold next_action in E.
      destruct (tasks !! i) as [[|a' rest]|]; try discriminate.
      injection E as -> <-. eauto. }
    destruct Hi as (rest & Hi & ->).
    rewrite IH.
    + rewrite do_action_get, <- app_assoc. f_equal.
      rewrite <- (take_drop_middle tasks i (a :: rest) Hi) at 2.
      rewrite insert_take_drop by (now apply lookup_lt_Some in Hi).
      rewrite !concat_app, !concat_cons, !appended_for_app.
      rewrite (appended_for_cons k a rest).
      destruct (appended_for k [a]) as [|r0 l0] eqn:Ea; [reflexivity|].
      assert (Him : i = m).
      { destruct (decide (i = m)) as [|Hne]; [assumption|].
        pose proof (Hone i _ Hi Hne) as Hnil.
        rewrite appended_for_cons, Ea in Hnil. discriminate. }
      subst i. rewrite (appended_for_concat_nil k (firstn m tasks)).
      * simpl. now rewrite <- app_assoc.
      * apply Forall_forall. intros t Ht.
        apply list_elem_of_lookup in Ht as [j Hj].
        apply lookup_take_Some in Hj as [Hj Hlt].
        apply (Hone j t Hj). lia.
    + intros j t Hj Hjm.
      destruct (decide (j = i)) as [->|Hji].
      * rewrite list_lookup_insert_eq in Hj by (now apply lookup_lt_Some in Hi).
        injection Hj as <-. pose proof (Hone i _ Hi Hjm) as Hnil.
        rewrite appended_for_cons in Hnil.
        now apply app_eq_nil in Hnil as [_ ?].
      * rewrite list_lookup_insert_ne in Hj by congruence.
        now apply (Hone j t).
Qed.

Lemma appended_for_appended k (acts : list action) :
  appended_for k acts
  = omap (fun '((t, r) : string * share_record) =>
            if decide (t = k) then Some r else None) (appended acts).
Proof.
  induction acts as [|a acts IH]; [reflexivity|].
  rewrite (appended_for_cons k a acts), (appended_cons a acts), omap_app, IH.
  f_equal. destruct a as [t r|lines]; [|reflexivity].
  simpl. now destruct (decide (t = k)).
Qed.

Lemma worker_appended_for o env ck c k :
  appended_for k
    (fst (worker o (dNSHostName c) (dNSHostName c) (probe env ck)))
  = if decide (dNSHostName c = k) then recorded o env ck c else [].
Proof.
  rewrite appended_for_appended, worker_appended_eq.
  generalize (recorded o env ck c). intros l.
  destruct (decide (dNSHostName c = k)) as [E|E].
  - induction l as [|r l IH]; [reflexivity|].
    rewrite fmap_cons. simpl. rewrite decide_True by exact E.
    f_equal. exact IH.
  - induction l as [|r l IH]; [reflexivity|].
    rewrite fmap_cons. simpl. rewrite decide_False by exact E. exact IH.
Qed.

(** X8: when no other computer has the same host name, the records filed
    under the name of a computer are those of the shares that the loop of
    its worker reached, in the order the server listed them, for every
    schedule: the beginning of its listing, and the whole of it when every
    line is printed. *)
Theorem pool_keeps_the_order_of_a_host
    (o : options) (env : environment) (computers : gmap string attributes)
    (out : list event) (ck : string) (c : attributes) :
  computers !! ck = Some c ->
  (forall ck' c', computers !! ck' = Some c' ->
                  dNSHostName c' = dNSHostName c -> ck' = ck) ->
  let filed_under_host :=
    default [] (dict_get
                  (results (run_pool (schedule env)
                              (submit_all o env computers)
                              {| results := []; stdout := out |}))
                  (dNSHostName c)) in
  filed_under_host = recorded o env ck c
  /\ filed_under_host `prefix_of` host_records o env ck c
  /\ (prints_well env ck -> filed_under_host = host_records o env ck c).
Proof.
  intros Hc Huniq filed_under_host.
  assert (Heq : filed_under_host = recorded o env ck c).
  { subst filed_under_host.
    assert (Hin : (ck, c) ∈ map_to_list computers)
      by now apply elem_of_map_to_list.
    apply list_elem_of_lookup in Hin as [m Hm].
    assert (Hother : forall j x, map_to_list computers !! j = Some x -> j <> m ->
              appended_for (dNSHostName c)
                (fst (worker o (dNSHostName (snd x)) (dNSHostName (snd x))
                        (probe env (fst x)))) = []).
    { intros j [ck' c'] Hj Hjm. simpl. rewrite worker_appended_for.
      destruct (decide (dNSHostName c' = dNSHostName c)) as [Hsame|];
        [|reflexivity].
      exfalso. apply Hjm.
      assert (Hc' : computers !! ck' = Some c').
      { apply elem_of_map_to_list, list_elem_of_lookup. eauto. }
      pose proof (Huniq ck' c' Hc' Hsame) as ->.
      pose proof (NoDup_fst_map_to_list computers) as Hnd.
      apply (NoDup_lookup _ j m ck Hnd); rewrite list_lookup_fmap.
      - now rewrite Hj.
      - now rewrite Hm. }
    rewrite (run_pool_get _ (dNSHostName c) m).
    - simpl. unfold submit_all.
      rewrite <- (take_drop_middle _ m (ck, c) Hm).
      rewrite fmap_app, fmap_cons, concat_app, concat_cons, !appended_for_app.
      rewrite worker_appended_for, decide_True by reflexivity.
      rewrite !appended_for_concat_nil.
      + now rewrite app_nil_r.
      + apply Forall_fmap, Forall_forall. intros [ck' c'] Hx.
        apply list_elem_of_lookup in Hx as [j Hj].
        rewrite lookup_drop in Hj. simpl.
        apply (Hother _ (ck', c') Hj). lia.
      + apply Forall_fmap, Forall_forall. intros [ck' c'] Hx.
        apply list_elem_of_lookup in Hx as [j Hj].
        apply lookup_take_Some in Hj as [Hj Hlt]. simpl.
        apply (Hother _ (ck', c') Hj). lia.
    - intros j t Hj Hjm. unfold submit_all in Hj.
      rewrite list_lookup_fmap in Hj.
      destruct (map_to_list computers !! j) as [[ck' c']|] eqn:Ej;
        [|discriminate].
      injection Hj as <-. apply (Hother j (ck', c') Ej Hjm). }
  destruct (recorded_prefix o env ck c) as (Hpre & _ & Hwell).
  rewrite Heq. split; [reflexivity|]. split; [exact Hpre|exact Hwell].
Qed.

Lemma pool_keeps_the_order_of_a_host_witness :
  default [] (dict_get
                (results (run_pool (schedule example_env)
                            (submit_all example_options example_env
                               example_computers)
                            {| results := []; stdout := [] |}))
                "ws01.lab")
  = [make_record "ws01.lab" "10.0.0.11" "C$" "Default share" 0x80000000;
     make_record "ws01.lab" "10.0.0.11" "Projects" "" 0x0].
Proof.
  destruct (pool_keeps_the_order_of_a_host example_options example_env
              example_computers [] "CN=WS01,CN=Computers,DC=lab"
              {| dNSHostName := "ws01.lab"; sAMAccountName := "WS01$" |})
    as (_ & _ & H).
  - reflexivity.
  - intros ck' c' Hc' Hname. unfold example_computers in Hc'.
    apply lookup_insert_Some in Hc'. destruct Hc' as [[E _]|[_ Hc']].
    + now symmetry.
    + apply lookup_insert_Some in Hc'. destruct Hc' as [[_ E]|[_ Hc']].
      * subst c'. discriminate.
      * now rewrite lookup_empty in Hc'.
  - apply H. intros n line. reflexivity.
Defined.

(** ** Kerberos *)

Lemma host_records_kerberos o env ck c :
  use_kerberos o = true -> host_records o env ck c = [].
Proof.
  intros Hk. unfold host_records, init_smb_session, mbind, result_bind.
  destruct (dns_lookup (probe env ck)) as [[|ip ips]|e]; try reflexivity.
  rewrite Hk. now destruct (smb_connect (probe env ck)).
Qed.

Lemma empty_when_no_key (d : dict (list share_record)) :
  (forall k, k ∉ dict_keys d) -> d = [].
Proof.
  destruct d as [|[k l] d]; [reflexivity|].
  intros H. exfalso. apply (H k). left.
Qed.

(** X9: with [-k] no share is ever recorded: [init_smb_session] reads the
    attribute [aesKey], which the namespace does not have, so every probe
    raises before the login and the result set stays empty, whatever the
    hosts would answer. *)
Theorem kerberos_records_nothing
    (o : options) (env : environment) (computers : gmap string attributes)
    (out : list event) :
  use_kerberos o = true ->
  (forall p, exists e, init_smb_session o p = Raise e)
  /\ results (run_pool (schedule env) (submit_all o env computers)
                {| results := []; stdout := out |}) = [].
Proof.
  intros Hk. split.
  - intros p. unfold init_smb_session, mbind, result_bind. rewrite Hk.
    destruct (smb_connect p); simpl; eauto.
  - apply empty_when_no_key. intros k Hin.
    rewrite key_has_record in Hin
      by (apply run_pool_nonempty; apply Forall_nil_2).
    destruct Hin as (r & Hr).
    apply pool_elem in Hr as (ck & c & _ & _ & Hrec).
    apply recorded_sub in Hrec.
    rewrite (host_records_kerberos _ _ _ _ Hk) in Hrec.
    now apply elem_of_nil in Hrec.
Qed.

Lemma kerberos_records_nothing_witness :
  listShares (probe example_env "CN=WS01,CN=Computers,DC=lab")
  = Ok example_shares
  /\ results (run_pool (schedule example_env)
                (submit_all (set_use_kerberos true example_options)
                   example_env example_computers)
                {| results := []; stdout := [] |}) = [].
Proof.
  split; [reflexivity|].
  apply (kerberos_records_nothing (set_use_kerberos true example_options)
           example_env example_computers [] eq_refl).
Defined.

(** ** What is printed *)

Lemma do_actions_stdout (acts : list action) : forall st : shared,
  Forall (fun a => silent a = a) acts ->
  stdout (foldl do_action st acts) = stdout st.
Proof.
  induction acts as [|a acts IH]; intros st H; [reflexivity|].
  apply Forall_cons in H as [Ha H]. cbn [foldl]. rewrite IH by exact H.
  destruct a as [|lines]; [reflexivity|]. simpl in *.
  injection Ha as <-. apply app_nil_r.
Qed.

Lemma run_pool_stdout (sched : list nat) :
  forall (tasks : list (list action)) (st : shared),
    Forall (Forall (fun a => silent a = a)) tasks ->
    stdout (run_pool sched tasks st) = stdout st.
Proof.
  induction sched as [|i sched IH]; intros tasks st H; cbn [run_pool].
  - apply do_actions_stdout. now apply Forall_concat.
  - destruct (next_action tasks i) as [[a tasks']|] eqn:E; [|now apply IH].
    apply next_action_split in E as (before & rest & after & -> & ->).
    apply Forall_app in H as [Hb H]. apply Forall_cons in H as [Ht Ha].
    apply Forall_cons in Ht as [Hsil Hrest].
    rewrite IH.
    + destruct a as [|lines]; [reflexivity|]. simpl in *.
      injection Hsil as <-. apply app_nil_r.
    + apply Forall_app. split; [exact Hb|]. now apply Forall_cons.
Qed.

Lemma display_quiet o sharename sharecomment address :
  quiet o = true -> display o sharename sharecomment address = [].
Proof.
  intros Hq. unfold display. rewrite Hq. simpl. rewrite andb_false_r.
  now destruct (negb _).
Qed.

Lemma worker_quiet o t address p :
  quiet o = true -> debug o = false ->
  Forall (fun a => silent a = a) (fst (worker o t address p)).
Proof.
  intros Hq Hd. unfold worker.
  destruct (dns_lookup p) as [[|ip ips]|e]; try apply Forall_nil_2.
  destruct (_ ← init_smb_session o p; listShares p) as [resp|e]; simpl.
  - assert (Hs : Forall (fun a => silent a = a)
                   (concat (share_actions o t ip address <$> resp))).
    { apply Forall_concat, Forall_fmap, Forall_forall. intros sh _.
      unfold compose, share_actions. rewrite display_quiet by exact Hq.
      repeat constructor. }
    rewrite attempt_silent by exact Hs. exact Hs.
  - rewrite Hd. apply Forall_nil_2.
Qed.

(** X10: with [-q] and without [--debug] the enumeration prints nothing,
    and a run without export prints nothing after the banner but, with
    [-k], the exceptions of the ticket cache, which [ldap3_kerberos_login]
    prints quiet or not; an export still announces itself. *)
Theorem quiet_silences_the_enumeration_only
    (o : options) (env : environment) (out : list event) :
  quiet o = true ->
  debug o = false ->
  (forall (computers : gmap string attributes),
     stdout (run_pool (schedule env) (submit_all o env computers)
               {| results := []; stdout := out |}) = out)
  /\ (export_paths o = [] ->
      output (program o env out)
      = out ++ (if use_kerberos o then Print <$> ccache_errors env else []))
  /\ (forall d path,
        export_json o = Some path ->
        Print ("[>] Exporting results to " +:+ path +:+ " ... ")
        ∈ output (exports o env d out)).
Proof.
  intros Hq Hd.
  assert (Hpool : forall (computers : gmap string attributes) out,
            stdout (run_pool (schedule env) (submit_all o env computers)
                      {| results := []; stdout := out |}) = out).
  { intros computers out0. rewrite run_pool_stdout; [reflexivity|].
    unfold submit_all. apply Forall_fmap, Forall_forall. intros [ck c] _.
    now apply worker_quiet. }
  split; [intros; apply Hpool|]. split.
  - intros Hnone. unfold program. rewrite Hq. simpl.
    fold (init_ldap_session_output o env).
    destruct (ldap_session env) as [pages|e]; [|reflexivity].
    destruct (get_domain_computers pages) as [computers|e]; [|reflexivity].
    destruct (ThreadPoolExecutor _); [|reflexivity].
    rewrite Hpool. unfold export_paths in Hnone. unfold exports, export_to.
    destruct (export_json o), (export_xlsx o), (export_sqlite o);
      try discriminate. reflexivity.
  - intros d path Hj. unfold exports, export_to, crash. rewrite Hj.
    destruct (export_xlsx o) as [px|], (export_sqlite o) as [ps|];
      repeat match goal with
             | |- context [writable env ?q] => destruct (writable env q)
             end;
      simpl; rewrite !elem_of_app, list_elem_of_singleton; tauto.
Qed.

(** A quiet run of the small domain prints nothing; with [-k] and a
    ticket cache that cannot be loaded it prints the exception. *)
Lemma quiet_silences_the_enumeration_only_witness :
  let o := set_export_json None
             (set_export_sqlite None (set_quiet true example_options)) in
  output (program o example_env []) = []
  /\ output (program (set_use_kerberos true o) no_ccache_env [])
     = [Print "expected str, bytes or os.PathLike object, not NoneType"].
Proof.
  cbv zeta. split.
  - destruct (quiet_silences_the_enumeration_only
                (set_export_json None
                   (set_export_sqlite None (set_quiet true example_options)))
                example_env [] eq_refl eq_refl) as (_ & H & _).
    exact (H eq_refl).
  - destruct (quiet_silences_the_enumeration_only
                (set_use_kerberos true
                   (set_export_json None
                      (set_export_sqlite None
                         (set_quiet true example_options))))
                no_ccache_env [] eq_refl eq_refl) as (_ & H & _).
    exact (H eq_refl).
Defined.

(** X11: with [-I] the line of a hidden share that is not a common one is
    dropped only when colours are on or the share has no comment: without
    colours a hidden share with a comment is still announced. *)
Theorem ignore_hidden_shares_misses_plain_comments
    (o : options) (sharename sharecomment address : string) :
  ignore_hidden_shares o = true ->
  quiet o = false ->
  endswith sharename "$" = true ->
  sharename ∉ COMMON_SHARES ->
  (display o sharename sharecomment address = []
   <-> colors o = true \/ sharecomment = "")
  /\ (colors o = false -> sharecomment <> "" ->
      display o sharename sharecomment address
      = ["[>] Found '" +:+ sharename +:+ "' on '" +:+ address
         +:+ "' (comment: '" +:+ sharecomment +:+ "')"]).
Proof.
  intros Hi Hq He Hc. unfold display.
  rewrite bool_decide_eq_false_2 by exact Hc. rewrite Hq, He, Hi. simpl.
  destruct sharecomment as [|ch rest]; simpl.
  - split; [|congruence]. destruct (colors o); split; auto.
  - split.
    + destruct (colors o); split; try reflexivity; try discriminate; auto.
      intros [H|H]; discriminate.
    + intros -> _. reflexivity.
Qed.

Lemma ignore_hidden_shares_misses_plain_comments_witness :
  display (set_colors false (set_ignore_hidden_shares true defaults))
    "Backup$" "nightly" "ws01.lab"
  = ["[>] Found 'Backup$' on 'ws01.lab' (comment: 'nightly')"].
Proof.
  destruct (ignore_hidden_shares_misses_plain_comments
              (set_colors false (set_ignore_hidden_shares true defaults))
              "Backup$" "nightly" "ws01.lab" eq_refl eq_refl eq_refl)
    as [_ H].
  - unfold COMMON_SHARES. rewrite !not_elem_of_cons.
    repeat split; try discriminate. apply not_elem_of_nil.
  - apply H; [reflexivity|discriminate].
Defined.

(** ** The command line, continued *)

Lemma parse_args_Return lexer argv tty o :
  snd (parse_args lexer argv tty) = Return o ->
  exists st, parser_parse_args lexer (drop 1 argv) = Parsed st
             /\ o = namespace st.
Proof.
  unfold parse_args.
  destruct (length argv =? 1)%nat; [discriminate|].
  destruct (parser_parse_args lexer (drop 1 argv)) as [st| |] eqn:Ep;
    try discriminate.
  destruct (parser_parse_args_password _ _ _ Ep) as [[s Hs] _].
  rewrite Hs, bool_decide_eq_false_2 by discriminate. simpl.
  intros [= <-]. eauto.
Qed.

(** The argument [--dc-ip] stores a value; no other argument touches
    [dc_ip]. *)
Lemma parser_dc_ip i a :
  parser !! i = Some a ->
  match act a with
  | store set =>
      forall v o o', set v o = Ok o' ->
        (i = 10%nat -> dc_ip o' = Some v)
        /\ (i <> 10%nat -> dc_ip o' = dc_ip o)
  | store_const set => forall o, i <> 10%nat /\ dc_ip (set o) = dc_ip o
  | help => True
  end.
Proof.
  do 18 (destruct i as [|i];
         [intros [= <-]; simpl;
          first
            [ exact I
            | solve [intros o; split; [lia|now destruct o]]
            | solve [intros v o o' [= <-]; destruct o; simpl;
                     split; intros; first [reflexivity|lia]]
            | solve [intros v o o'; destruct (int v); intros [= <-];
                     destruct o; simpl;
                     split; intros; first [reflexivity|lia]] ]
         |]).
  simpl. discriminate.
Qed.

Lemma missing_required_nil seen :
  missing_required seen = [] -> 10%nat ∈ seen.
Proof.
  unfold missing_required. simpl.
  destruct (bool_decide_reflect (10%nat ∈ seen)) as [H|H]; [auto|discriminate].
Qed.

(** X12: the options [parse_args] returns always carry the address given
    with [--dc-ip], however [argparse] reads the command line: a command
    line without an occurrence of it is refused, so the tests
    [options.dc_ip is not None] of the program never fail. *)
Theorem parse_args_requires_dc_ip
    (lexer : lexer) (argv : list string) (tty : string) (o : options) :
  snd (parse_args lexer argv tty) = Return o ->
  exists v, dc_ip o = Some v.
Proof.
  intros Hr. apply parse_args_Return in Hr as (st & Hp & ->).
  apply parser_parse_args_Parsed in Hp as (steps & _ & Hrun & Hm & _).
  apply missing_required_nil in Hm.
  refine (proj1 (take_actions_invariant
                   (fun ns seen _ => 10%nat ∈ seen -> is_Some (dc_ip ns))
                   steps _ _ _ _ Hrun) Hm);
    [|intros H; now apply elem_of_nil in H].
  intros i a v o ns seen nd nd' _ HP Hpi Hact Hin.
  pose proof (parser_dc_ip i a Hpi) as Hd.
  destruct (act a) as [set|set|]; [| |contradiction].
  - destruct Hact as (s & _ & Hs & _). destruct (Hd _ _ _ Hs) as [H10 Hn10].
    destruct (decide (i = 10%nat)) as [E|E].
    + rewrite (H10 E). eauto.
    + rewrite (Hn10 E). apply HP.
      apply elem_of_cons in Hin as [Hin|Hin]; [congruence|exact Hin].
  - destruct Hact as (_ & -> & _). destruct (Hd ns) as [E ->]. apply HP.
    apply elem_of_cons in Hin as [Hin|Hin]; [congruence|exact Hin].
Qed.

(** The address may be given under an abbreviated name; without it the
    command line is refused. *)
Lemma parse_args_requires_dc_ip_witness :
  snd (parse_args argparse_lexer
         ["FindUncommonShares.py"; "--dc"; "10.0.0.1"; "-t"; "-5"; "-qI"] "")
  = Return (set_ignore_hidden_shares true
              (set_quiet true
                 (set_threads (-5) (set_dc_ip (Some "10.0.0.1") defaults))))
  /\ (exists v,
        dc_ip (set_ignore_hidden_shares true
                 (set_quiet true
                    (set_threads (-5)
                       (set_dc_ip (Some "10.0.0.1") defaults)))) = Some v)
  /\ snd (parse_args argparse_lexer ["FindUncommonShares.py"; "-q"] "")
     = Exit 2.
Proof.
  assert (Hp : snd (parse_args argparse_lexer
                      ["FindUncommonShares.py"; "--dc"; "10.0.0.1";
                       "-t"; "-5"; "-qI"] "")
               = Return (set_ignore_hidden_shares true
                           (set_quiet true
                              (set_threads (-5)
                                 (set_dc_ip (Some "10.0.0.1") defaults)))))
    by (vm_compute; reflexivity).
  split; [exact Hp|]. split; [|vm_compute; reflexivity].
  exact (parse_args_requires_dc_ip argparse_lexer _ "" _ Hp).
Defined.

(** The effect of every argument on the four credentials, and the
    values of the credentials that are their defaults. *)
Lemma parser_credentials i a :
  parser !! i = Some a ->
  (exclusive a = true <-> (13 <= i <= 16)%nat)
  /\ match act a with
     | store set =>
         forall v o o', set v o = Ok o' ->
           no_pass o' = no_pass o
           /\ (i <> 14%nat -> auth_password o' = auth_password o)
           /\ (i <> 15%nat -> auth_hashes o' = auth_hashes o)
           /\ (i <> 16%nat -> auth_key o' = auth_key o)
           /\ (i = 14%nat -> is_default a v = true ->
               auth_password o' = Some "")
           /\ (i = 15%nat \/ i = 16%nat -> is_default a v = false)
     | store_const set =>
         forall o,
           (i <> 13%nat -> no_pass (set o) = no_pass o)
           /\ auth_password (set o) = auth_password o
           /\ auth_hashes (set o) = auth_hashes o
           /\ auth_key (set o) = auth_key o
     | help => True
     end.
Proof.
  do 18 (destruct i as [|i];
         [intros [= <-]; simpl;
          (split; [split; [discriminate || lia|lia || reflexivity]|]);
          first
            [ exact I
            | solve [intros o; destruct o; simpl;
                     repeat split; intros; first [reflexivity|lia]]
            | solve [intros v o o' [= <-]; destruct o; simpl;
                     repeat split; intros;
                     first [reflexivity|lia
                           |match goal with
                            | H : (_ =? _)%string = true |- _ =>
                                apply String.eqb_eq in H; now subst
                            end] ]
            | solve [intros v o o'; destruct (int v); intros [= <-];
                     destruct o; simpl;
                     repeat split; intros; first [reflexivity|lia]] ]
         |]).
  simpl. discriminate.
Qed.

Lemma exclusive_index j :
  (13 <= j <= 16)%nat ->
  exists b, parser !! j = Some b /\ exclusive b = true.
Proof.
  intros Hj.
  assert (j = 13 \/ j = 14 \/ j = 15 \/ j = 16)%nat as [-> | [-> | [-> | ->]]] by lia;
    eexists; split; reflexivity.
Qed.

Lemma conflicts_false i a seen j :
  conflicts i a seen = false ->
  exclusive a = true ->
  j ∈ seen -> (13 <= j <= 16)%nat -> j = i.
Proof.
  unfold conflicts. intros Hc Ha Hin Hj. rewrite Ha in Hc. simpl in Hc.
  destruct (decide (j = i)) as [|Hne]; [assumption|]. exfalso.
  assert (Ht : existsb (fun j => negb (j =? i)%nat
                                 && match parser !! j with
                                    | Some b => exclusive b
                                    | None => false
                                    end) seen = true).
  { apply existsb_exists. exists j. split; [now apply list_elem_of_In|].
    destruct (exclusive_index j Hj) as (b & -> & ->).
    apply Nat.eqb_neq in Hne. now rewrite Hne. }
  congruence.
Qed.

Lemma credentials_step i a v o ns nd nd' :
  credentials_invariant ns nd ->
  parser !! i = Some a ->
  match act a with
  | store set =>
      exists s, v = Some s /\ set s ns = Ok o
                /\ (if is_default a s then nd' = nd
                    else conflicts i a nd = false /\ nd' = i :: nd)
  | store_const set =>
      v = None /\ o = set ns /\ conflicts i a nd = false /\ nd' = i :: nd
  | help => False
  end ->
  credentials_invariant o nd'.
Proof.
  intros (Hnp & Hpw & Hh & Hk & Huniq) Hpi Hact.
  destruct (parser_credentials i a Hpi) as [Hex Heff].
  assert (Hgrow : forall x, x ∈ nd -> x ∈ nd').
  { intros x Hx. destruct (act a) as [set|set|]; [| |contradiction].
    - destruct Hact as (s & _ & _ & Hnd).
      destruct (is_default a s); [now subst|].
      destruct Hnd as [_ ->]. now right.
    - destruct Hact as (_ & _ & _ & ->). now right. }
  assert (Hnew : forall x, x ∈ nd' -> x ∈ nd \/ (x = i /\ i ∈ nd'
                                                 /\ (exclusive a = true ->
                                                     conflicts i a nd = false))).
  { intros x Hx. destruct (act a) as [set|set|]; [| |contradiction].
    - destruct Hact as (s & _ & _ & Hnd).
      destruct (is_default a s); [subst; now left|].
      destruct Hnd as [Hc ->].
      apply elem_of_cons in Hx as [->|Hx]; [right|now left].
      split; [reflexivity|]. split; [left|auto].
    - destruct Hact as (_ & _ & Hc & ->).
      apply elem_of_cons in Hx as [->|Hx]; [right|now left].
      split; [reflexivity|]. split; [left|auto]. }
  assert (Hfields :
            (no_pass o = true -> no_pass ns = true \/ (i = 13%nat /\ i ∈ nd'))
            /\ (auth_password o <> Some "" ->
                auth_password ns <> Some "" /\ i <> 14%nat
                \/ (i = 14%nat /\ i ∈ nd'))
            /\ (auth_hashes o <> None ->
                auth_hashes ns <> None /\ i <> 15%nat
                \/ (i = 15%nat /\ i ∈ nd'))
            /\ (auth_key o <> None ->
                auth_key ns <> None /\ i <> 16%nat
                \/ (i = 16%nat /\ i ∈ nd'))).
  { destruct (act a) as [set|set|] eqn:Ea; [| |contradiction].
    - destruct Hact as (s & _ & Hs & Hnd).
      destruct (Heff _ _ _ Hs) as (H1 & H2 & H3 & H4 & H5 & H6).
      assert (Hin : is_default a s = false -> i ∈ nd').
      { intros E. rewrite E in Hnd. destruct Hnd as [_ ->]. left. }
      split; [rewrite H1; auto|]. split; [|split].
      + intros H. destruct (decide (i = 14%nat)) as [E|E].
        * right. split; [exact E|]. apply Hin.
          destruct (is_default a s) eqn:Ed; [|reflexivity].
          exfalso. apply H. now apply H5.
        * left. rewrite <- (H2 E). auto.
      + intros H. destruct (decide (i = 15%nat)) as [E|E].
        * right. split; [exact E|]. apply Hin, H6. auto.
        * left. rewrite <- (H3 E). auto.
      + intros H. destruct (decide (i = 16%nat)) as [E|E].
        * right. split; [exact E|]. apply Hin, H6. auto.
        * left. rewrite <- (H4 E). auto.
    - destruct Hact as (_ & -> & _ & ->).
      destruct (Heff ns) as (H1 & H2 & H3 & H4).
      split; [|split; [|split]].
      + intros H. destruct (decide (i = 13%nat)) as [E|E].
        * right. split; [exact E|left].
        * left. now rewrite <- (H1 E).
      + intros H. left. rewrite <- H2.
        split; [exact H|]. intros ->. injection Hpi as <-. discriminate Ea.
      + intros H. left. rewrite <- H3.
        split; [exact H|]. intros ->. injection Hpi as <-. discriminate Ea.
      + intros H. left. rewrite <- H4.
        split; [exact H|]. intros ->. injection Hpi as <-. discriminate Ea. }
  destruct Hfields as (F1 & F2 & F3 & F4).
  unfold credentials_invariant. split; [|split; [|split; [|split]]].
  - intros H. destruct (F1 H) as [H'|[-> H']]; [apply Hgrow; auto|exact H'].
  - intros H. destruct (F2 H) as [[H' _]|[-> H']]; [apply Hgrow; auto|exact H'].
  - intros H. destruct (F3 H) as [[H' _]|[-> H']]; [apply Hgrow; auto|exact H'].
  - intros H. destruct (F4 H) as [[H' _]|[-> H']]; [apply Hgrow; auto|exact H'].
  - intros x y Hx Hy Hxr Hyr.
    destruct (Hnew x Hx) as [Hx'|(-> & _ & Hcx)];
      destruct (Hnew y Hy) as [Hy'|(-> & _ & Hcy)].
    + now apply Huniq.
    + assert (Ha : exclusive a = true) by (apply Hex; exact Hyr).
      exact (conflicts_false i a nd x (Hcy Ha) Ha Hx' Hxr).
    + assert (Ha : exclusive a = true) by (apply Hex; exact Hxr).
      symmetry. exact (conflicts_false i a nd y (Hcx Ha) Ha Hy' Hyr).
    + reflexivity.
Qed.

(** X13: the credentials exclude one another, however [argparse] reads
    the command line: the options [parse_args] returns carry at most one of
    [--no-pass], a password that is not empty, the hashes and the AES key;
    the others are at their defaults.  (An empty password is the default
    and goes with any of the others.) *)
Theorem parse_args_credentials_exclusive
    (lexer : lexer) (argv : list string) (tty : string) (o : options) :
  snd (parse_args lexer argv tty) = Return o ->
  (no_pass o = true ->
   auth_password o = Some "" /\ auth_hashes o = None /\ auth_key o = None)
  /\ (auth_hashes o <> None ->
      auth_password o = Some "" /\ auth_key o = None /\ no_pass o = false)
  /\ (auth_key o <> None ->
      auth_password o = Some "" /\ auth_hashes o = None /\ no_pass o = false)
  /\ (auth_password o <> Some "" ->
      auth_hashes o = None /\ auth_key o = None /\ no_pass o = false).
Proof.
  intros Hr. apply parse_args_Return in Hr as (st & Hp & ->).
  apply parser_parse_args_Parsed in Hp as (steps & _ & Hrun & _ & _).
  assert (Hinit : credentials_invariant defaults []).
  { unfold credentials_invariant. simpl.
    repeat split; try congruence;
      try (intros i j Hi; now apply elem_of_nil in Hi). }
  pose proof (proj1 (take_actions_invariant
                       (fun ns _ nd => credentials_invariant ns nd) steps
                       (fun i a v o ns seen nd nd' _ HP Ha Hact =>
                          credentials_step i a v o ns nd nd' HP Ha Hact)
                       {| namespace := defaults; seen_actions := [];
                          seen_non_default_actions := []; extras := [] |}
                       st Hinit Hrun))
    as (Hnp & Hpw & Hh & Hk & Huniq).
  set (ns := namespace st) in *.
  set (seen := seen_non_default_actions st) in *.
  assert (Hpw' : forall n, n ∈ seen -> (13 <= n <= 16)%nat -> n <> 14%nat ->
                           auth_password ns = Some "").
  { intros n Hn Hr Hne. destruct (decide (auth_password ns = Some "")) as [|E];
      [assumption|]. exfalso. apply Hne. apply (Huniq n 14%nat); auto; lia. }
  assert (Hh' : forall n, n ∈ seen -> (13 <= n <= 16)%nat -> n <> 15%nat ->
                          auth_hashes ns = None).
  { intros n Hn Hr Hne. destruct (decide (auth_hashes ns = None)) as [|E];
      [assumption|]. exfalso. apply Hne. apply (Huniq n 15%nat); auto; lia. }
  assert (Hk' : forall n, n ∈ seen -> (13 <= n <= 16)%nat -> n <> 16%nat ->
                          auth_key ns = None).
  { intros n Hn Hr Hne. destruct (decide (auth_key ns = None)) as [|E];
      [assumption|]. exfalso. apply Hne. apply (Huniq n 16%nat); auto; lia. }
  assert (Hnp' : forall n, n ∈ seen -> (13 <= n <= 16)%nat -> n <> 13%nat ->
                           no_pass ns = false).
  { intros n Hn Hr Hne. destruct (no_pass ns) eqn:E; [|reflexivity].
    exfalso. apply Hne. apply (Huniq n 13%nat); auto; lia. }
  split; [intros H; repeat split
        |split; [intros H; repeat split
                |split; [intros H; repeat split|intros H; repeat split]]].
  - apply (Hpw' 13%nat); auto; lia.
  - apply (Hh' 13%nat); auto; lia.
  - apply (Hk' 13%nat); auto; lia.
  - apply (Hpw' 15%nat); auto; lia.
  - apply (Hk' 15%nat); auto; lia.
  - apply (Hnp' 15%nat); auto; lia.
  - apply (Hpw' 16%nat); auto; lia.
  - apply (Hh' 16%nat); auto; lia.
  - apply (Hnp' 16%nat); auto; lia.
  - apply (Hh' 14%nat); auto; lia.
  - apply (Hk' 14%nat); auto; lia.
  - apply (Hnp' 14%nat); auto; lia.
Qed.

(** Hashes with an empty password are accepted, hashes with [--no-pass]
    or with a password are refused. *)
Lemma parse_args_credentials_exclusive_witness :
  snd (parse_args argparse_lexer (hashes_argv ++ ["-p"; ""]) "")
  = Return (set_auth_hashes (Some ":31d6cfe0d16ae931b73c59d7e0c089c0")
              (set_auth_username "alice"
                 (set_dc_ip (Some "10.0.0.1") defaults)))
  /\ snd (parse_args argparse_lexer (hashes_argv ++ ["--no-pass"]) "") = Exit 2
  /\ snd (parse_args argparse_lexer (hashes_argv ++ ["-psecret"]) "") = Exit 2.
Proof.
  split; [|split; vm_compute; reflexivity].
  assert (Hp : snd (parse_args argparse_lexer (hashes_argv ++ ["-p"; ""]) "")
               = Return (set_auth_hashes
                           (Some ":31d6cfe0d16ae931b73c59d7e0c089c0")
                           (set_auth_username "alice"
                              (set_dc_ip (Some "10.0.0.1") defaults))))
    by (vm_compute; reflexivity).
  destruct (parse_args_credentials_exclusive argparse_lexer
              (hashes_argv ++ ["-p"; ""]) "" _ Hp) as (_ & H & _).
  destruct H as (_ & _ & _); [discriminate|exact Hp].
Defined.

(** ** The hashes of [-H] *)

Lemma split_colon_no_colon s : has_colon s = false -> split_colon s = [s].
Proof.
  induction s as [|c s IH]; simpl; [reflexivity|].
  destruct (Ascii.eqb c ":"); simpl; [discriminate|].
  intros H. now rewrite (IH H).
Qed.

Lemma split_colon_app a b :
  has_colon a = false ->
  split_colon (a +:+ ":" +:+ b) = a :: split_colon b.
Proof.
  induction a as [|c a IH]; simpl; [reflexivity|].
  destruct (Ascii.eqb c ":"); simpl; [discriminate|].
  intros H. now rewrite (IH H).
Qed.

Lemma split_colon_two s :
  has_colon s = true -> exists a b rest, split_colon s = a :: b :: rest.
Proof.
  induction s as [|c s IH]; simpl; [discriminate|].
  destruct (Ascii.eqb c ":"); simpl.
  - intros _. destruct (split_colon s) as [|b rest] eqn:E.
    + destruct s; simpl in E; [discriminate|].
      destruct (Ascii.eqb _ _); [discriminate|].
      destruct (split_colon s); discriminate.
    + eauto.
  - intros H. destruct (IH H) as (a & b & rest & ->). eauto.
Qed.

Lemma has_colon_app a b : has_colon (a +:+ ":" +:+ b) = true.
Proof.
  induction a as [|c a IH]; simpl; [reflexivity|].
  rewrite IH. apply orb_true_r.
Qed.

(** X14: the hashes of [-H]: cutting them never fails; without a colon the
    whole string is the NT hash and the LM hash is empty; with colons the
    first two fields are the LM and the NT hash and the rest is dropped;
    and an empty LM hash becomes the hash of the empty password in what is
    handed to ldap3. *)
Theorem split_hashes_fields :
  (forall h, exists lm nt, split_hashes h = Ok (lm, nt))
  /\ (forall h, has_colon h = false ->
        split_hashes (Some h) = Ok ("", h)
        /\ hashes_password "" h = EMPTY_LM_HASH +:+ ":" +:+ h)
  /\ (forall lm nt, has_colon lm = false -> has_colon nt = false ->
        split_hashes (Some (lm +:+ ":" +:+ nt)) = Ok (lm, nt)
        /\ (lm <> "" -> hashes_password lm nt = lm +:+ ":" +:+ nt))
  /\ (forall lm nt rest, has_colon lm = false -> has_colon nt = false ->
        split_hashes (Some (lm +:+ ":" +:+ nt +:+ ":" +:+ rest))
        = Ok (lm, nt)).
Proof.
  split; [|split; [|split]].
  - intros [h|]; [|simpl; eauto]. unfold split_hashes.
    destruct (has_colon h) eqn:E; [|eauto].
    destruct (split_colon_two h E) as (a & b & rest & ->). simpl. eauto.
  - intros h Hh. unfold split_hashes. rewrite Hh. split; reflexivity.
  - intros lm nt Hlm Hnt. unfold split_hashes.
    rewrite has_colon_app, split_colon_app by exact Hlm.
    rewrite split_colon_no_colon by exact Hnt. split; [reflexivity|].
    intros Hne. unfold hashes_password.
    apply String.eqb_neq in Hne. now rewrite Hne.
  - intros lm nt rest Hlm Hnt. unfold split_hashes.
    rewrite has_colon_app, split_colon_app by exact Hlm.
    rewrite split_colon_app by exact Hnt. reflexivity.
Qed.

(** ** The path of an export file *)

Lemma split_path_no_slash f : no_slash f = true -> split_path f = ("", f).
Proof.
  induction f as [|c f IH]; simpl; [reflexivity|].
  destruct (Ascii.eqb c "/"); simpl; [discriminate|].
  intros H. now rewrite (IH H).
Qed.

Lemma append_slash_not_empty d x : String.eqb (d +:+ "/" +:+ x) "" = false.
Proof. now destruct d. Qed.

Lemma split_path_app d f :
  no_slash f = true -> split_path (d +:+ "/" +:+ f) = (d +:+ "/", f).
Proof.
  intros Hf. induction d as [|c d IH].
  - change ("" +:+ "/" +:+ f) with (String "/"%char f). cbn [split_path].
    now rewrite (split_path_no_slash f Hf).
  - change (String c d +:+ "/" +:+ f) with (String c (d +:+ "/" +:+ f)).
    cbn [split_path]. rewrite IH.
    pose proof (append_slash_not_empty d "") as Hne.
    change (d +:+ "/" +:+ "") with (d +:+ "/") in Hne.
    now rewrite Hne.
Qed.

Lemma rstrip_slash_app d : rstrip_slash (d +:+ "/") = rstrip_slash d.
Proof. induction d as [|c d IH]; simpl; [reflexivity|]. now rewrite IH. Qed.

Lemma rstrip_slash_id d c :
  c <> "/"%char -> rstrip_slash (d +:+ String c "") = d +:+ String c "".
Proof.
  intros Hc. apply Ascii.eqb_neq in Hc.
  induction d as [|a d IH]; simpl.
  - now rewrite Hc.
  - rewrite IH. now destruct d.
Qed.

Lemma string_snoc (s : string) :
  s <> "" -> exists t c, s = t +:+ String c "".
Proof.
  induction s as [|a s IH]; [congruence|]. intros _.
  destruct s as [|b s].
  - exists "", a. reflexivity.
  - destruct IH as (t & c & E); [discriminate|].
    exists (String a t), c. rewrite E. reflexivity.
Qed.

Lemma rstrip_slash_keeps dir :
  endswith dir "/" = false -> rstrip_slash dir = dir.
Proof.
  intros He. destruct (String.eqb_spec dir "") as [->|Hne]; [reflexivity|].
  destruct (string_snoc dir Hne) as (t & c & ->).
  apply rstrip_slash_id. intros ->.
  assert (H : endswith (t +:+ "/") "/" = true) by (apply endswith_spec; eauto).
  congruence.
Qed.

(** X15: the path an export block writes to: a name without directory is
    kept as it is, a name in a directory (one that does not end with a
    slash) is put together again unchanged and the directory is created
    when missing, ["./name"] loses its prefix, and a name in the root
    directory gets a second slash. *)
Theorem export_path_rebuilt :
  (forall f, no_slash f = true -> path_to_file f = (f, false))
  /\ (forall dir f,
        dir <> "" -> dir <> "." -> endswith dir "/" = false ->
        no_slash f = true ->
        path_to_file (dir +:+ "/" +:+ f) = (dir +:+ "/" +:+ f, true))
  /\ (forall f, no_slash f = true -> path_to_file ("./" +:+ f) = (f, false))
  /\ (forall f, no_slash f = true ->
        path_to_file ("/" +:+ f) = ("//" +:+ f, true)).
Proof.
  split; [|split; [|split]].
  - intros f Hf. unfold path_to_file, dirname, basename.
    now rewrite (split_path_no_slash f Hf).
  - intros dir f Hne Hdot Hend Hf. unfold path_to_file, dirname, basename.
    rewrite (split_path_app dir f Hf). cbn [fst snd].
    rewrite rstrip_slash_app, (rstrip_slash_keeps dir Hend).
    pose proof (append_slash_not_empty dir "") as Hne2.
    change (dir +:+ "/" +:+ "") with (dir +:+ "/") in Hne2.
    apply String.eqb_neq in Hne. rewrite Hne2, Hne. cbn [negb andb].
    rewrite bool_decide_eq_false_2; [reflexivity|].
    rewrite !elem_of_cons, elem_of_nil. intros [H|[H|[]]]; [contradiction|].
    rewrite H in Hne. discriminate.
  - intros f Hf. unfold path_to_file, dirname, basename.
    change ("./" +:+ f) with ("." +:+ "/" +:+ f).
    rewrite (split_path_app "." f Hf). reflexivity.
  - intros f Hf. unfold path_to_file, dirname, basename.
    change ("/" +:+ f) with ("" +:+ "/" +:+ f).
    rewrite (split_path_app "" f Hf). reflexivity.
Qed.

(** ** The LDAP connection *)

Lemma init_ldap_connection_eq {S : Type}
    (connect : connection_request -> result S) t v o domain username password
    lmhash nthash :
  init_ldap_connection connect t v o domain username password lmhash nthash
  = (ldap_request o t v domain username password lmhash nthash,
     connect (ldap_request o t v domain username password lmhash nthash)).
Proof.
  unfold init_ldap_connection, ldap_request.
  destruct v; destruct (use_kerberos o); try reflexivity;
    destruct (bool_decide _); reflexivity.
Qed.

(** X16: with [--use-ldaps] the directory is only ever asked for over TLS
    on port 636: first with TLS 1.2, and once more with TLS 1.0 exactly
    when the first attempt could not open the socket; no attempt is made in
    clear.  Without the option there is one attempt, in clear on port 389.
    Outside Kerberos the target is the address of [--dc-ip] when there is
    one; the outcome is that of the last attempt. *)
Theorem init_ldap_session_attempts {S : Type}
    (connect : connection_request -> result S) (machine_name : result string)
    (o : options) (domain username : string) (password : option string)
    (lmhash nthash : string) :
  let attempts :=
    fst (init_ldap_session connect machine_name o domain username password
           lmhash nthash) in
  let outcome :=
    snd (init_ldap_session connect machine_name o domain username password
           lmhash nthash) in
  (use_ldaps o = true ->
   Forall (fun q => use_ssl q = true /\ port q = 636) attempts
   /\ (tls <$> attempts = []
       \/ tls <$> attempts = [Some PROTOCOL_TLSv1_2]
       \/ (tls <$> attempts = [Some PROTOCOL_TLSv1_2; Some PROTOCOL_TLSv1]
           /\ exists q, attempts !! 0%nat = Some q
                        /\ connect q = Raise "LDAPSocketOpenError")))
  /\ (use_ldaps o = false ->
      Forall (fun q => use_ssl q = false /\ port q = 389 /\ tls q = None)
        attempts
      /\ (length attempts <= 1)%nat)
  /\ (attempts = [] <-> use_kerberos o = true
                        /\ exists e, machine_name = Raise e)
  /\ (forall q, last attempts = Some q -> outcome = connect q)
  /\ (use_kerberos o = false ->
      forall v, dc_ip o = Some v -> Forall (fun q => target q = v) attempts)
  /\ Forall (fun q =>
               auth q
               = if use_kerberos o then KERBEROS
                 else if bool_decide (auth_hashes o <> None)
                      then NTLM (domain +:+ "\" +:+ username)
                             (Some (hashes_password lmhash nthash))
                      else NTLM (domain +:+ "\" +:+ username) password)
       attempts.
Proof.
  pose (req := fun t v =>
          ldap_request o t v domain username password lmhash nthash).
  assert (Hcases :
    forall t,
      let r := if use_ldaps o then
                 match connect (req t (Some PROTOCOL_TLSv1_2)) with
                 | Raise e =>
                     if String.eqb e "LDAPSocketOpenError" then
                       ([req t (Some PROTOCOL_TLSv1_2);
                         req t (Some PROTOCOL_TLSv1)],
                        connect (req t (Some PROTOCOL_TLSv1)))
                     else ([req t (Some PROTOCOL_TLSv1_2)], Raise e)
                 | Ok session => ([req t (Some PROTOCOL_TLSv1_2)], Ok session)
                 end
               else ([req t None], connect (req t None)) in
      (use_ldaps o = true ->
       fst r = [req t (Some PROTOCOL_TLSv1_2)]
       \/ (fst r = [req t (Some PROTOCOL_TLSv1_2); req t (Some PROTOCOL_TLSv1)]
           /\ connect (req t (Some PROTOCOL_TLSv1_2))
              = Raise "LDAPSocketOpenError"))
      /\ (use_ldaps o = false -> fst r = [req t None])
      /\ fst r <> []
      /\ (forall q, last (fst r) = Some q -> snd r = connect q)
      /\ Forall (fun q => target q = t) (fst r)).
  { intros t r. subst r. destruct (use_ldaps o).
    - destruct (connect (req t (Some PROTOCOL_TLSv1_2))) as [s|e] eqn:E1;
        [|destruct (String.eqb_spec e "LDAPSocketOpenError") as [->|Hne]];
        cbn [fst snd]; (repeat split; try discriminate; auto);
        try (intros q [= <-]; first [reflexivity|now rewrite E1]);
        try (repeat constructor; fail).
    - cbn [fst snd]. (repeat split; try discriminate; auto);
        try (intros q [= <-]; reflexivity);
        try (repeat constructor; fail). }
  assert (Hreq : forall t v,
            (use_ssl (req t v) = match v with Some _ => true | None => false end)
            /\ (port (req t v) = match v with Some _ => 636 | None => 389 end)
            /\ tls (req t v) = v
            /\ auth (req t v)
               = (if use_kerberos o then KERBEROS
                  else if bool_decide (auth_hashes o <> None)
                       then NTLM (domain +:+ "\" +:+ username)
                              (Some (hashes_password lmhash nthash))
                       else NTLM (domain +:+ "\" +:+ username) password))
    by (intros t v; subst req; repeat split).
  assert (Hall : forall t,
      let r := if use_ldaps o then
                 match connect (req t (Some PROTOCOL_TLSv1_2)) with
                 | Raise e =>
                     if String.eqb e "LDAPSocketOpenError" then
                       ([req t (Some PROTOCOL_TLSv1_2);
                         req t (Some PROTOCOL_TLSv1)],
                        connect (req t (Some PROTOCOL_TLSv1)))
                     else ([req t (Some PROTOCOL_TLSv1_2)], Raise e)
                 | Ok session => ([req t (Some PROTOCOL_TLSv1_2)], Ok session)
                 end
               else ([req t None], connect (req t None)) in
      (use_ldaps o = true ->
       Forall (fun q => use_ssl q = true /\ port q = 636) (fst r)
       /\ (tls <$> fst r = []
           \/ tls <$> fst r = [Some PROTOCOL_TLSv1_2]
           \/ (tls <$> fst r = [Some PROTOCOL_TLSv1_2; Some PROTOCOL_TLSv1]
               /\ exists q, fst r !! 0%nat = Some q
                            /\ connect q = Raise "LDAPSocketOpenError")))
      /\ (use_ldaps o = false ->
          Forall (fun q => use_ssl q = false /\ port q = 389 /\ tls q = None)
            (fst r)
          /\ (length (fst r) <= 1)%nat)
      /\ Forall (fun q =>
               auth q
               = if use_kerberos o then KERBEROS
                 else if bool_decide (auth_hashes o <> None)
                      then NTLM (domain +:+ "\" +:+ username)
                             (Some (hashes_password lmhash nthash))
                      else NTLM (domain +:+ "\" +:+ username) password)
           (fst r)).
  { intros t r. destruct (Hcases t) as (H1 & H2 & _ & _ & _). fold r in H1, H2.
    split; [|split].
    - intros Hl. destruct (H1 Hl) as [E|[E Hc]]; rewrite E.
      + split; [repeat constructor|right; left; reflexivity].
      + split; [repeat constructor|]. right. right. split; [reflexivity|].
        eexists. split; [reflexivity|exact Hc].
    - intros Hl. rewrite (H2 Hl). split; [repeat constructor|simpl; lia].
    - destruct (use_ldaps o) eqn:Hl.
      + destruct (H1 eq_refl) as [E|[E Hc]]; rewrite E;
          repeat constructor; apply Hreq.
      + rewrite (H2 eq_refl). repeat constructor; apply Hreq. }
  unfold init_ldap_session.
  destruct (if use_kerberos o then machine_name
            else match dc_ip o with
                 | Some dc_ip => Ok dc_ip
                 | None => Ok domain
                 end) as [t|e] eqn:Et.
  - rewrite !init_ldap_connection_eq. cbv beta iota zeta.
    destruct (Hcases t) as (_ & _ & Hne & Hlast & Htarget).
    destruct (Hall t) as (A1 & A2 & A3). cbv zeta in *.
    split; [exact A1|]. split; [exact A2|]. split.
    { split; [intros E; contradiction|]. intros [Hk [e' He']].
      rewrite Hk, He' in Et. discriminate. }
    split; [exact Hlast|]. split; [|exact A3].
    intros Hk v Hv. rewrite Hk, Hv in Et. injection Et as <-. exact Htarget.
  - assert (Hk : use_kerberos o = true /\ machine_name = Raise e).
    { destruct (use_kerberos o); [auto|]. destruct (dc_ip o); discriminate. }
    destruct Hk as [Hk Hm]. cbn [fst snd].
    split; [intros _; split; [constructor|now left]|].
    split; [intros _; split; [constructor|simpl; lia]|].
    split; [split; eauto|]. split; [discriminate|].
    split; [congruence|constructor].
Qed.

(** ** Hashes for Kerberos *)

Lemma string_length_two (n : nat) (s : string) :
  String.length s = (2 * S n)%nat ->
  exists a b s', s = String a (String b s') /\ String.length s' = (2 * n)%nat.
Proof.
  destruct s as [|a [|b s']]; simpl; try lia. intros H.
  exists a, b, s'. split; [reflexivity|lia].
Qed.

Lemma unhexlify_value (n : nat) : forall s acc v,
  String.length s = (2 * n)%nat ->
  hex_value s acc = Some v ->
  exists bytes,
    unhexlify s = Ok bytes
    /\ bytes_value bytes acc = v
    /\ length bytes = n.
Proof.
  induction n as [|n IH]; intros s acc v Hlen Hv.
  - destruct s; [|simpl in Hlen; lia]. simpl in Hv. injection Hv as <-.
    exists []. auto.
  - destruct (string_length_two n s Hlen) as (a & b & s' & -> & Hlen').
    cbn [hex_value] in Hv. cbn [unhexlify].
    destruct (hex_digit a) as [x|]; [|discriminate].
    destruct (hex_digit b) as [y|]; [|discriminate].
    destruct (IH s' _ v Hlen' Hv) as (bytes & -> & Hb & Hl).
    exists (16 * x + y :: bytes). split; [reflexivity|]. split; [|simpl; lia].
    unfold bytes_value in *. cbn [foldl].
    replace (256 * acc + (16 * x + y)) with (16 * (16 * acc + x) + y) by lia.
    exact Hb.
Qed.

Lemma unhexlify_bad (n : nat) : forall s acc,
  String.length s = (2 * n)%nat ->
  hex_value s acc = None ->
  exists e, unhexlify s = Raise e.
Proof.
  induction n as [|n IH]; intros s acc Hlen Hv.
  - destruct s; [discriminate|simpl in Hlen; lia].
  - destruct (string_length_two n s Hlen) as (a & b & s' & -> & Hlen').
    cbn [hex_value] in Hv. cbn [unhexlify].
    destruct (hex_digit a) as [x|]; [|eauto].
    destruct (hex_digit b) as [y|]; [|eauto].
    destruct (IH s' _ Hlen' Hv) as (e & ->). eauto.
Qed.

Lemma pad_odd_even (h : string) :
  String.length (pad_odd h) = (2 * ((String.length h + 1) / 2))%nat
  /\ hex_value (pad_odd h) 0 = hex_value h 0.
Proof.
  unfold pad_odd. destruct (Nat.odd (String.length h)) eqn:E.
  - apply Nat.odd_spec in E as [k Hk]. split; [|reflexivity].
    change (String.length ("0" +:+ h)) with (S (String.length h)).
    rewrite Hk. replace (2 * k + 1 + 1)%nat with ((k + 1) * 2)%nat by lia.
    rewrite Nat.div_mul by lia. lia.
  - split; [|reflexivity].
    assert (Hev : Nat.even (String.length h) = true)
      by (rewrite <- Nat.negb_odd, E; reflexivity).
    apply Nat.even_spec in Hev as [k Hk]. rewrite Hk.
    replace (2 * k + 1)%nat with (1 + k * 2)%nat by lia.
    rewrite Nat.div_add by lia. simpl. lia.
Qed.

(** X17: the hashes handed to the Kerberos login: when one of them is
    given and both are written in hexadecimal, a hash of odd length gets a
    leading zero, so decoding never fails on the length, and the bytes
    write the same number as the digits; when both are empty they are left
    as they are; a character that is no hexadecimal digit makes the login
    raise, since the error is not the one the code catches. *)
Theorem kerberos_hashes_decoded :
  (forall lm nt vl vn,
     lm <> "" \/ nt <> "" ->
     hex_value lm 0 = Some vl ->
     hex_value nt 0 = Some vn ->
     exists bl bn,
       kerberos_hashes lm nt = Ok (Bytes bl, Bytes bn)
       /\ bytes_value bl 0 = vl
       /\ bytes_value bn 0 = vn
       /\ length bl = ((String.length lm + 1) / 2)%nat
       /\ length bn = ((String.length nt + 1) / 2)%nat)
  /\ kerberos_hashes "" "" = Ok (Hex "", Hex "")
  /\ (forall lm nt,
        hex_value lm 0 = None \/ hex_value nt 0 = None ->
        exists e, kerberos_hashes lm nt = Raise e).
Proof.
  assert (Hcond : forall lm nt, lm <> "" \/ nt <> "" ->
            negb (String.eqb lm "") || negb (String.eqb nt "") = true).
  { intros lm nt [H|H]; apply String.eqb_neq in H; rewrite H; simpl;
      [reflexivity|apply orb_true_r]. }
  split; [|split; [reflexivity|]].
  - intros lm nt vl vn Hne Hl Hn. unfold kerberos_hashes.
    rewrite (Hcond lm nt Hne).
    destruct (pad_odd_even lm) as [Hll Hlv].
    destruct (pad_odd_even nt) as [Hnl Hnv].
    rewrite <- Hlv in Hl. rewrite <- Hnv in Hn.
    destruct (unhexlify_value _ _ _ _ Hll Hl) as (bl & El & Hbl & Hlen_l).
    destruct (unhexlify_value _ _ _ _ Hnl Hn) as (bn & En & Hbn & Hlen_n).
    exists bl, bn. unfold mbind, result_bind. rewrite El, En. simpl. auto.
  - intros lm nt Hbad. unfold kerberos_hashes.
    assert (Hne : lm <> "" \/ nt <> "").
    { destruct Hbad as [H|H]; [left|right]; intros ->; discriminate. }
    rewrite (Hcond lm nt Hne).
    destruct (pad_odd_even lm) as [Hll Hlv].
    destruct (pad_odd_even nt) as [Hnl Hnv].
    unfold mbind, result_bind. rewrite <- Hlv, <- Hnv in Hbad. clear Hlv Hnv.
    destruct (hex_value (pad_odd lm) 0) as [vl|] eqn:El.
    + destruct (unhexlify_value _ _ _ _ Hll El) as (bl & -> & _). simpl.
      destruct Hbad as [H|H]; [discriminate|].
      destruct (unhexlify_bad _ _ _ Hnl H) as (e & ->). simpl. eauto.
    + destruct (unhexlify_bad _ _ _ Hll El) as (e & ->). simpl. eauto.
Qed.

(** ** The exporters, continued *)


(** X19: the database export appends: the rows the table already holds
    stay first and unchanged, then comes one row for each record, in the
    order of the spreadsheet (whose row [i + 1] has the cells [write] makes
    of the values of record [i]: none for an empty name or comment, a
    formula or a hyperlink for a text that reads like one); exporting the
    same result set again into the same database writes every row a second
    time. *)
Theorem export_sqlite_appends
    (rows : list sqlite_row) (d : dict (list share_record)) :
  export_sqlite_rows rows d = rows ++ (row_values <$> records_of d)
  /\ (forall i r, records_of d !! i = Some r ->
        export_sqlite_rows rows d !! (length rows + i)%nat
        = Some (row_values r)
        /\ forall col, (col < 5)%nat ->
             table (export_xlsx_sheet d) !! (S i, col)
             = row_data r !! col ≫= written)
  /\ export_sqlite_rows (export_sqlite_rows rows d) d
     = rows ++ (row_values <$> records_of d) ++ (row_values <$> records_of d).
Proof.
  rewrite !export_sqlite_rows_eq. split; [reflexivity|]. split.
  - intros i r Hi. split.
    + rewrite lookup_app_r by lia.
      replace (length rows + i - length rows)%nat with i by lia.
      now rewrite list_lookup_fmap, Hi.
    + intros col _. destruct (export_xlsx_sheet_eq d) as (_ & Hd & _).
      now rewrite Hd, Hi.
  - now rewrite <- app_assoc.
Qed.

Lemma write_row_widths (data : list token) : forall ws row col,
  col_widths (write_row ws row col data) = col_widths ws
  /\ row_heights (write_row ws row col data) = row_heights ws.
Proof.
  induction data as [|t data IH]; intros ws row col; simpl; [auto|].
  destruct (IH (write ws row col t) row (S col)) as [-> ->].
  unfold write. destruct (written t); auto.
Qed.

Lemma write_records_widths (recs : list share_record) : forall ws n,
  let st := foldl (fun '(ws, row_id) r =>
                     (write_row ws row_id 0 (row_data r), S row_id))
                  (ws, n) recs in
  col_widths (fst st) = col_widths ws
  /\ row_heights (fst st) = row_heights ws.
Proof.
  induction recs as [|x recs IH]; intros ws n; cbn [foldl]; [auto|].
  destruct (IH (write_row ws n 0 (row_data x)) (S n)) as [-> ->].
  apply write_row_widths.
Qed.

(** X21: the layout of the spreadsheet does not depend on the result set:
    row 0 is 20 high, and since every header column [k] is sized with
    [set_column(k, k + 1, ...)], the columns 0 to 4 get the width of their
    header plus 3 and column 5, which has no header, gets the width of the
    last one. *)
Theorem export_xlsx_layout (d : dict (list share_record)) :
  col_widths (export_xlsx_sheet d)
  = list_to_map [(0, 16); (1, 14); (2, 13); (3, 16); (4, 12); (5, 12)]%nat
  /\ row_heights (export_xlsx_sheet d) = {[ 0%nat := 20%nat ]}
  /\ (forall k h, header_fields !! k = Some h ->
        col_widths (export_xlsx_sheet d) !! k = Some (String.length h + 3)%nat).
Proof.
  assert (H : col_widths (export_xlsx_sheet d)
              = list_to_map
                  [(0, 16); (1, 14); (2, 13); (3, 16); (4, 12); (5, 12)]%nat
              /\ row_heights (export_xlsx_sheet d) = {[ 0%nat := 20%nat ]}).
  { unfold export_xlsx_sheet. rewrite write_shares_eq.
    set (ws0 := write_row _ 0 0 (Str <$> header_fields)).
    pose proof (write_records_widths (records_of d) ws0 1) as Hw.
    cbv zeta in Hw.
    destruct (foldl _ (ws0, 1%nat) (records_of d)) as [ws row_id].
    cbn [fst] in Hw. destruct Hw as [Hc Hr].
    unfold autofilter. cbn [col_widths row_heights]. rewrite Hc, Hr.
    subst ws0.
    match goal with
    | |- context [write_row ?w 0 0 ?data] =>
        destruct (write_row_widths data w 0 0) as [Hc0 Hr0]
    end.
    rewrite Hc0, Hr0. split; vm_compute; reflexivity. }
  destruct H as [Hc Hr]. split; [exact Hc|]. split; [exact Hr|].
  intros k h Hk. rewrite Hc.
  do 5 (destruct k as [|k]; [injection Hk as <-; reflexivity|]).
  discriminate.
Qed.

(** ** The records of the result set *)

(** X22: every record of the result set is consistent: its address is the
    first one of the DNS answer of its host, its UNC path is made of that
    address and of the recorded name, between backslashes, and its flags
    are those of its share type. *)
Theorem pool_records_are_consistent
    (o : options) (env : environment) (computers : gmap string attributes)
    (out : list event) (k : string) (r : share_record) :
  (k, r) ∈ filed (results (run_pool (schedule env) (submit_all o env computers)
                             {| results := []; stdout := out |})) ->
  (exists ck c ips,
     computers !! ck = Some c /\ dNSHostName c = k
     /\ dns_lookup (probe env ck) = Ok (ip (computer r) :: ips))
  /\ uncpath (share r)
     = "\\" +:+ ip (computer r) +:+ "\" +:+ name (share r) +:+ "\"
  /\ stype_flags (stype (share r)) = STYPE_MASK (stype_value (stype (share r))).
Proof.
  intros Hin. apply pool_elem in Hin as (ck & c & Hc & Hk & Hr).
  apply recorded_sub in Hr. unfold host_records in Hr.
  destruct (dns_lookup (probe env ck)) as [[|ip0 ips]|e] eqn:Ed;
    try (now apply elem_of_nil in Hr).
  destruct (_ ← init_smb_session o (probe env ck); listShares (probe env ck))
    as [resp|e]; [|now apply elem_of_nil in Hr].
  apply list_elem_of_fmap in Hr as (sh & -> & _).
  split; [|split; reflexivity].
  exists ck, c, ips. auto.
Qed.

Lemma pool_records_are_consistent_witness :
  uncpath (share (make_record "ws01.lab" "10.0.0.11" "C$" "Default share"
                    0x80000000))
  = "\\10.0.0.11\C$\".
Proof.
  refine (proj1 (proj2 (pool_records_are_consistent example_options example_env
                          example_computers [] "ws01.lab" _ _))).
  vm_compute. left.
Defined.

(** ** A pool without workers *)

(** X23: when the directory holds no computer, or the number of threads
    asked for is not positive, the pool cannot be created: the program ends
    on the exception, with status 1, before it writes any file, though the
    bind and the search went well. *)
Theorem no_worker_ends_the_run
    (o : options) (env : environment) (out : list event)
    (pages : list page) (computers : gmap string attributes) :
  ldap_session env = Ok pages ->
  get_domain_computers pages = Ok computers ->
  threads o <= 0 \/ size computers = 0%nat ->
  status (program o env out) = 1
  /\ uncaught (program o env out) = Some "max_workers must be greater than 0"
  /\ files (program o env out) = [].
Proof.
  intros Hl Hs Hzero. unfold program. rewrite Hl, Hs.
  unfold ThreadPoolExecutor.
  destruct (Z.leb_spec (Z.min (threads o) (Z.of_nat (size computers))) 0)
    as [_|Hpos]; [simpl; auto|lia].
Qed.

Lemma no_worker_ends_the_run_witness :
  status (program (set_threads 0 example_options) example_env []) = 1
  /\ files (program (set_threads 0 example_options) example_env []) = [].
Proof.
  destruct (no_worker_ends_the_run (set_threads 0 example_options) example_env
              [] example_pages example_computers eq_refl example_search)
    as (Hs & _ & Hf).
  - left. simpl. lia.
  - split; [exact Hs|exact Hf].
Defined.
